(** * Customer list manager: batch generation, progressive loading,
      filter and sort

    A shallow embedding of [src/utils/dataGenerator.js] (both revisions
    of the batch producers that the repository carries), of the
    orchestration, filter, sort and render code of [src/App.jsx], of
    the sort headers and the virtual list of [CustomerTable.jsx] and of
    the hook of [src/hooks/useDebounce.js].

    Modelling conventions.
    - JavaScript numbers that hold identifiers, counts and timestamps
      are integers ([Z]).  The progress percentage is computed as the
      source computes it, in binary64 ([spec_float]), because its
      value depends on the rounding; the random fractions and the
      pixel positions, of which only ranges matter, are exact
      rationals ([Q]).
    - JavaScript strings are sequences of code units restricted to the
      range 0..255 (Stdlib [string]); [toLowerCase] folds the ASCII and
      Latin-1 capital letters.
    - [Math.random], [Date.now] and IndexedDB are host facilities: their
      answers are inputs of the model (oracles), never fixed by it.
      Two runs that are compared have a host each.  A promise that is
      never settled is [None]: what awaits it does not end.
    - React state setters are explicit updates of an application state
      record; callbacks are state transformers.
    - Pixel positions read from the DOM ([scrollTop], [clientHeight])
      are rationals; rows of the virtual list have the height the
      component assumes for them.
    - A hook is a state record and one transition per event the host
      can deliver to it (a render, a timer callback); timers never run
      before they are due.
    - The repository carries two revisions of the batch producers.
      [App.jsx] calls [generateCustomersInMemory] synchronously and
      hands [populateDatabase] a progress callback only, which is the
      interface of the first revision ([V1]); the second ([V2]) adds the
      batch-ready callback and the yield between batches. *)

From Stdlib Require Import ZArith QArith Qround List String Ascii Bool Lia.
From Stdlib Require Import SpecFloat.
From Stdlib Require Import Permutation Sorted DecimalString Lqa.
From Stdlib Require OrderedTypeEx DecimalPos DecimalZ.
Import ListNotations.

Local Open Scope Z_scope.

(* ------------------------------------------------------------------ *)
(** ** JavaScript strings *)

(** [String.prototype.toLowerCase] on one code unit of the range 0..255:
    A-Z and the Latin-1 capitals (except the multiplication sign) move
    up by 32. *)
Definition toLowerCase_unit (c : ascii) : ascii :=
  let n := N_of_ascii c in
  if (((65 <=? n) && (n <=? 90)) ||
      ((192 <=? n) && (n <=? 222) && negb (n =? 215)))%N
  then ascii_of_N (n + 32) else c.

Fixpoint toLowerCase (s : string) : string :=
  match s with
  | EmptyString => EmptyString
  | String c s' => String (toLowerCase_unit c) (toLowerCase s')
  end.

(** [s.includes(searchString)]: [searchString] occurs in [s] at some
    position. *)
Fixpoint includes (s searchString : string) : bool :=
  prefix searchString s ||
  match s with
  | EmptyString => false
  | String _ s' => includes s' searchString
  end.

(** Decimal rendering of an integer, as in a template literal (the
    integers of the program are far below the 10^21 from which the
    language switches to exponents). *)
Definition String_of_number (z : Z) : string :=
  NilZero.string_of_int (Z.to_int z).

(** [s[0]] as a string (the empty string stands for [undefined]). *)
Definition charAt0 (s : string) : string :=
  match s with
  | EmptyString => EmptyString
  | String c _ => String c EmptyString
  end.

(* ------------------------------------------------------------------ *)
(** ** Records *)

Record Avatar := mkAvatar { initials : string; color : string }.

(** The object literal returned by [generateCustomer].  [lastMessageAt]
    holds the instant in epoch milliseconds: the source stores its
    ISO-8601 rendering ([toISOString]) and reads it back with
    [new Date(..).getTime()], which are inverse to each other. *)
Record Customer := mkCustomer {
  id : Z;
  name : string;
  phone : string;
  email : string;
  score : Z;
  lastMessageAt : Z;
  addedBy : string;
  avatar : Avatar
}.

(* ------------------------------------------------------------------ *)
(** ** Host facilities and a small state monad *)

(** The host answers [Math.random()] and [Date.now()] during one run.
    Both are indexed by the number of [Math.random()] calls made so far
    in that run, which is the only clock the model keeps; the readings
    of another run are those of another host. *)
Record Host := mkHost {
  random_bits : nat -> Z;
  clock : nat -> Z
}.

Definition State (St A : Type) : Type := St -> A * St.

Definition ret {St A : Type} (a : A) : State St A := fun s => (a, s).

Definition bind {St A B : Type} (m : State St A) (f : A -> State St B)
  : State St B :=
  fun s => let r := m s in f (fst r) (snd r).

Declare Scope monad_scope.
Delimit Scope monad_scope with monad.
Notation "x <- m ;; k" := (bind m (fun x => k))
  (at level 61, m at next level, right associativity) : monad_scope.
Notation "m ;;; k" := (bind m (fun _ => k))
  (at level 61, right associativity) : monad_scope.
Local Open Scope monad_scope.

(** The generator threads the count of random draws. *)
Definition Gen (A : Type) : Type := State nat A.

(** [Math.random()]: a double in [0,1), here the rational [m / 2^53]. *)
Definition Math_random (h : Host) : Gen Q :=
  fun k => (((random_bits h k) mod 2 ^ 53) # (2 ^ 53), S k).

(** [Date.now()] *)
Definition Date_now (h : Host) : Gen Z := fun k => (clock h k, k).

Definition Math_floor (q : Q) : Z := Qfloor q.

(** Truncation toward zero, as the [Date] constructor applies to its
    time value. *)
Definition ToInteger (q : Q) : Z :=
  if Qle_bool 0 q then Qfloor q else Qceiling q.

(** [xs[Math.floor(Math.random() * xs.length)]] *)
Definition sample (h : Host) (xs : list string) : Gen string :=
  r <- Math_random h ;;
  ret (nth (Z.to_nat (Math_floor (r * inject_Z (Z.of_nat (List.length xs)))))
           xs "undefined"%string).

(* ------------------------------------------------------------------ *)
(** ** dataGenerator.js: the record generator (identical in both
       revisions) *)

Definition firstNames : list string :=
  [ "James"; "Mary"; "John"; "Patricia"; "Robert"; "Jennifer"; "Michael";
    "Linda"; "William"; "Barbara"; "David"; "Elizabeth"; "Richard"; "Susan";
    "Joseph"; "Jessica"; "Thomas"; "Sarah"; "Charles"; "Karen";
    "Christopher"; "Nancy"; "Daniel"; "Lisa"; "Matthew"; "Betty"; "Anthony";
    "Margaret"; "Mark"; "Sandra"; "Donald"; "Ashley"; "Steven"; "Kimberly";
    "Paul"; "Emily"; "Andrew"; "Donna"; "Joshua"; "Michelle" ]%string.

Definition lastNames : list string :=
  [ "Smith"; "Johnson"; "Williams"; "Brown"; "Jones"; "Garcia"; "Miller";
    "Davis"; "Rodriguez"; "Martinez"; "Hernandez"; "Lopez"; "Gonzalez";
    "Wilson"; "Anderson"; "Thomas"; "Taylor"; "Moore"; "Jackson"; "Martin";
    "Lee"; "Perez"; "Thompson"; "White"; "Harris"; "Sanchez"; "Clark";
    "Ramirez"; "Lewis"; "Robinson"; "Walker"; "Young" ]%string.

Definition domains : list string :=
  [ "gmail.com"; "yahoo.com"; "hotmail.com"; "outlook.com";
    "company.com" ]%string.

Definition avatarColors : list string :=
  [ "#FF6B6B"; "#4ECDC4"; "#45B7D1"; "#FFA07A"; "#98D8C8"; "#F7DC6F";
    "#BB8FCE"; "#85C1E2" ]%string.

Definition generatePhone (h : Host) : Gen string :=
  r1 <- Math_random h ;;
  let areaCode := Math_floor (r1 * 900) + 100 in
  r2 <- Math_random h ;;
  let prefix := Math_floor (r2 * 900) + 100 in
  r3 <- Math_random h ;;
  let lineNumber := Math_floor (r3 * 9000) + 1000 in
  ret ("+1 (" ++ String_of_number areaCode ++ ") "
         ++ String_of_number prefix ++ "-"
         ++ String_of_number lineNumber)%string.

Definition generateDate (h : Host) : Gen Z :=
  now <- Date_now h ;;
  let twoYearsAgo := now - (2 * 365 * 24 * 60 * 60 * 1000) in
  r <- Math_random h ;;
  let randomTime :=
    (inject_Z twoYearsAgo + r * inject_Z (now - twoYearsAgo))%Q in
  ret (ToInteger randomTime).

Definition generateAvatar (h : Host) (firstName lastName : string)
  : Gen Avatar :=
  let initials := (charAt0 firstName ++ charAt0 lastName)%string in
  color <- sample h avatarColors ;;
  ret (mkAvatar initials color).

Definition generateCustomer (h : Host) (id : Z) : Gen Customer :=
  firstName <- sample h firstNames ;;
  lastName <- sample h lastNames ;;
  let name := (firstName ++ " " ++ lastName)%string in
  domain <- sample h domains ;;
  let email :=
    (toLowerCase firstName ++ "." ++ toLowerCase lastName
       ++ String_of_number id ++ "@" ++ domain)%string in
  phone <- generatePhone h ;;
  r <- Math_random h ;;
  let score := Math_floor (r * 100) + 1 in
  lastMessageAt <- generateDate h ;;
  addedFirst <- sample h firstNames ;;
  addedLast <- sample h lastNames ;;
  let addedBy := (addedFirst ++ " " ++ addedLast)%string in
  avatar <- generateAvatar h firstName lastName ;;
  ret (mkCustomer id name phone email score lastMessageAt addedBy avatar).

(* ------------------------------------------------------------------ *)
(** ** Loops, callbacks and outcomes *)

(** The integers [lo, lo+1, ..., lo+n-1]. *)
Fixpoint iota (lo : Z) (n : nat) : list Z :=
  match n with
  | O => []
  | S n' => lo :: iota (lo + 1) n'
  end.

(** The values taken by [i] in [for (let i = lo; i <= hi; i++)]. *)
Definition upto (lo hi : Z) : list Z := iota lo (Z.to_nat (hi - lo + 1)).

(** A producer runs against the state [C] of its consumer (changed only
    through the callbacks) and the count of random draws. *)
Definition Run (C A : Type) : Type := State (C * nat) A.

Definition liftGen {C A : Type} (g : Gen A) : Run C A :=
  fun s => let r := g (snd s) in (fst r, (fst s, snd r)).

(** [if (onProgress) onProgress(processed, total)] *)
Definition callProgress {C : Type} (onProgress : option (Z -> Z -> C -> C))
  (processed total : Z) : Run C unit :=
  fun s =>
    match onProgress with
    | Some f => (tt, (f processed total (fst s), snd s))
    | None => (tt, s)
    end.

(** [if (onBatchComplete) onBatchComplete(batchCustomers)] *)
Definition callBatch {C : Type}
  (onBatchComplete : option (list Customer -> C -> C))
  (batchCustomers : list Customer) : Run C unit :=
  fun s =>
    match onBatchComplete with
    | Some f => (tt, (f batchCustomers (fst s), snd s))
    | None => (tt, s)
    end.

(** [await new Promise(resolve => setTimeout(resolve, 0))]: a suspension
    point.  The tasks the host runs meanwhile cannot reach the local
    variables of the suspended producer. *)
Definition yieldToEventLoop {C : Type} : Run C unit := ret tt.

(** A counted loop whose body updates an accumulator. *)
Fixpoint forEach {C A : Type} (xs : list Z) (body : Z -> A -> Run C A)
  (acc : A) : Run C A :=
  match xs with
  | [] => ret acc
  | i :: xs' => acc' <- body i acc ;; forEach xs' body acc'
  end.

(** Settlement of a promise, or completion of a [try] block. *)
Inductive Outcome (A : Type) : Type :=
| Resolved (value : A)
| Rejected (message : string).
Arguments Resolved {A} value.
Arguments Rejected {A} message.

(** [error?.message || 'Unknown error'] *)
Definition messageOrUnknown (m : option string) : string :=
  match m with
  | Some EmptyString | None => "Unknown error"%string
  | Some s => s
  end.

(* ------------------------------------------------------------------ *)
(** ** IndexedDB as seen by the program *)

(** How a read-write transaction of [populateDatabase] ends. *)
Inductive TxOutcome : Type :=
| TxThrows (message : string)        (* db.transaction(...) throws *)
| TxComplete                         (* oncomplete *)
| TxError (message : option string)  (* onerror *)
| TxAbort.                           (* onabort *)

(** How a request inside a read-only transaction ends. *)
Inductive Request (A : Type) : Type :=
| ReqThrows (message : string)       (* creating the request throws *)
| ReqSuccess (result : A)            (* onsuccess *)
| ReqError (message : option string). (* onerror *)
Arguments ReqThrows {A} message.
Arguments ReqSuccess {A} result.
Arguments ReqError {A} message.

(** An open database: the host decides how the [batch]-th write
    transaction ends and what [count()] and [getAll()] answer. *)
Record IDBDatabase := mkDB {
  writeTx : Z -> TxOutcome;
  countReq : Request Z;
  getAllReq : Request (list Customer)
}.

(** [batch < TOTAL_RECORDS / BATCH_SIZE], the quotient taken exactly.
    Division by zero gives an infinity of the sign of the dividend, or
    NaN for 0/0, which compares false. *)
Definition lt_quotient (batch total size : Z) : bool :=
  if 0 <? size then batch * size <? total
  else if size =? 0 then 0 <? total
  else total <? batch * size.

(* ------------------------------------------------------------------ *)
(** ** dataGenerator.js, first revision (the one App.jsx is written
       against: synchronous generation, progress callback only) *)

Module V1.

Definition BATCH_SIZE : Z := 10000.
Definition TOTAL_RECORDS : Z := 1000000.

(** Body of the loop of [generateCustomersInMemory]. *)
Definition generateStep {C : Type} (h : Host) (count : Z)
  (onProgress : option (Z -> Z -> C -> C)) (i : Z)
  (customers : list Customer) : Run C (list Customer) :=
  c <- liftGen (generateCustomer h i) ;;
  let customers := customers ++ [c] in
  (if Z.rem i BATCH_SIZE =? 0 then callProgress onProgress i count
   else ret tt) ;;;
  ret customers.

(** [generateCustomersInMemory(count, onProgress)]; every caller passes
    the count, so its default value plays no part. *)
Definition generateCustomersInMemory {C : Type} (h : Host) (count : Z)
  (onProgress : option (Z -> Z -> C -> C)) : Run C (list Customer) :=
  forEach (upto 1 count) (generateStep h count onProgress) [].

(** [for (let i = 0; i < BATCH_SIZE; i++)]: generate the record
    [batch * BATCH_SIZE + i + 1] and add it to the object store. *)
Definition addBatch {C : Type} (h : Host) (size batch : Z)
  : Run C (list Customer) :=
  forEach (upto 0 (size - 1))
    (fun i (added : list Customer) =>
       let id := batch * size + i + 1 in
       customer <- liftGen (generateCustomer h id) ;;
       ret (added ++ [customer])) [].

(** The loop of [populateDatabase] for a total [total] and a batch size
    [size]: the transaction is opened first, the records are generated
    and added inside it, and progress is reported when it completes;
    [None] when the fuel runs out before the loop condition fails. *)
Fixpoint populateLoop {C : Type} (fuel : nat) (h : Host) (db : IDBDatabase)
  (total size : Z) (onProgress : option (Z -> Z -> C -> C))
  (batch processed : Z) : Run C (option (Outcome unit)) :=
  if lt_quotient batch total size then
    match fuel with
    | O => ret None
    | S fuel' =>
        match writeTx db batch with
        | TxThrows m => ret (Some (Rejected m))
        | TxComplete =>
            addBatch h size batch ;;;
            let processed := processed + size in
            callProgress onProgress processed total ;;;
            populateLoop fuel' h db total size onProgress
              (batch + 1) processed
        | TxError m =>
            addBatch h size batch ;;;
            ret (Some (Rejected
              ("Transaction error: " ++ messageOrUnknown m)%string))
        | TxAbort =>
            addBatch h size batch ;;;
            ret (Some (Rejected "Transaction aborted"%string))
        end
    end
  else ret (Some (Resolved tt)).

Definition populateDatabase {C : Type} (h : Host) (db : IDBDatabase)
  (onProgress : option (Z -> Z -> C -> C)) : Run C (option (Outcome unit)) :=
  populateLoop (Z.to_nat TOTAL_RECORDS) h db TOTAL_RECORDS BATCH_SIZE
    onProgress 0 0.

End V1.

(* ------------------------------------------------------------------ *)
(** ** dataGenerator.js, second revision (progressive loading: batches
       of 5000, a batch-ready callback, a yield after every batch) *)

Module V2.

Definition BATCH_SIZE : Z := 5000.
Definition TOTAL_RECORDS : Z := 1000000.

(** [for (let i = batchStart; i <= batchEnd; i++)
      batchCustomers.push(generateCustomer(i))] *)
Definition generateBatch {C : Type} (h : Host) (ids : list Z)
  : Run C (list Customer) :=
  forEach ids
    (fun i (batchCustomers : list Customer) =>
       customer <- liftGen (generateCustomer h i) ;;
       ret (batchCustomers ++ [customer])) [].

(** The loop of [generateCustomersInMemory] for a batch size [size];
    [None] when the fuel runs out before the loop condition fails. *)
Fixpoint generateLoop {C : Type} (fuel : nat) (h : Host) (size count : Z)
  (onProgress : option (Z -> Z -> C -> C))
  (onBatchComplete : option (list Customer -> C -> C))
  (batchStart : Z) (allCustomers : list Customer)
  : Run C (option (list Customer)) :=
  if batchStart <=? count then
    match fuel with
    | O => ret None
    | S fuel' =>
        let batchEnd := Z.min (batchStart + size - 1) count in
        batchCustomers <- generateBatch h (upto batchStart batchEnd) ;;
        let allCustomers := allCustomers ++ batchCustomers in
        callProgress onProgress batchEnd count ;;;
        callBatch onBatchComplete batchCustomers ;;;
        yieldToEventLoop ;;;
        generateLoop fuel' h size count onProgress onBatchComplete
          (batchStart + size) allCustomers
    end
  else ret (Some allCustomers).

Definition generateCustomersInMemoryWith {C : Type} (size : Z) (h : Host)
  (count : Z) (onProgress : option (Z -> Z -> C -> C))
  (onBatchComplete : option (list Customer -> C -> C))
  : Run C (option (list Customer)) :=
  generateLoop (Z.to_nat count) h size count onProgress onBatchComplete 1 [].

Definition generateCustomersInMemory {C : Type} :=
  @generateCustomersInMemoryWith C BATCH_SIZE.

(** The loop of [populateDatabase] for a total [total] and a batch size
    [size]: the batch is generated first, then written in one
    transaction, and reported when the transaction completes. *)
Fixpoint populateLoop {C : Type} (fuel : nat) (h : Host) (db : IDBDatabase)
  (total size : Z) (onProgress : option (Z -> Z -> C -> C))
  (onBatchComplete : option (list Customer -> C -> C))
  (batch processed : Z) : Run C (option (Outcome unit)) :=
  if lt_quotient batch total size then
    match fuel with
    | O => ret None
    | S fuel' =>
        batchCustomers <-
          generateBatch h
            (map (fun i => batch * size + i + 1) (upto 0 (size - 1))) ;;
        match writeTx db batch with
        | TxThrows m => ret (Some (Rejected m))
        | TxComplete =>
            let processed := processed + size in
            callProgress onProgress processed total ;;;
            callBatch onBatchComplete batchCustomers ;;;
            yieldToEventLoop ;;;
            populateLoop fuel' h db total size onProgress onBatchComplete
              (batch + 1) processed
        | TxError m =>
            ret (Some (Rejected
              ("Transaction error: " ++ messageOrUnknown m)%string))
        | TxAbort => ret (Some (Rejected "Transaction aborted"%string))
        end
    end
  else ret (Some (Resolved tt)).

Definition populateDatabaseWith {C : Type} (total size : Z) (h : Host)
  (db : IDBDatabase) (onProgress : option (Z -> Z -> C -> C))
  (onBatchComplete : option (list Customer -> C -> C))
  : Run C (option (Outcome unit)) :=
  populateLoop (Z.to_nat total) h db total size onProgress onBatchComplete
    0 0.

Definition populateDatabase {C : Type} :=
  @populateDatabaseWith C TOTAL_RECORDS BATCH_SIZE.

End V2.

(* ------------------------------------------------------------------ *)
(** ** Observing a producer: the calls it makes, in order *)

(** A call received by a consumer that only records what it is told. *)
Inductive Event : Type :=
| Progress (processed total : Z)
| BatchReady (records : list Customer).

Definition recordProgress : option (Z -> Z -> list Event -> list Event) :=
  Some (fun processed total log => log ++ [Progress processed total]).

Definition recordBatch : option (list Customer -> list Event -> list Event) :=
  Some (fun records log => log ++ [BatchReady records]).

Fixpoint batchesOf (log : list Event) : list (list Customer) :=
  match log with
  | [] => []
  | BatchReady b :: log' => b :: batchesOf log'
  | Progress _ _ :: log' => batchesOf log'
  end.

Fixpoint progressOf (log : list Event) : list (Z * Z) :=
  match log with
  | [] => []
  | Progress p t :: log' => (p, t) :: progressOf log'
  | BatchReady _ :: log' => progressOf log'
  end.

(** The percentage is computed on JavaScript numbers, that is in
    binary64 with rounding to nearest even: an integer as a double, the
    quotient and the product of two doubles. *)
Definition Number_of_integer (z : Z) : spec_float :=
  binary_normalize 53 1024 z 0 false.

Definition Number_div (x y : spec_float) : spec_float := SFdiv 53 1024 x y.

Definition Number_mul (x y : spec_float) : spec_float := SFmul 53 1024 x y.

(** [Math.floor] of a double.  NaN and the infinities, which only a
    zero total gives, have no integer part and stand as 0 here; no
    caller of the progress callback passes a zero total. *)
Definition Math_floor_Number (x : spec_float) : Z :=
  match x with
  | S754_zero _ => 0
  | S754_finite sign m e =>
      let v := if sign then Z.neg m else Z.pos m in
      if 0 <=? e then v * 2 ^ e else v / 2 ^ (- e)
  | S754_infinity _ | S754_nan => 0
  end.

(** [Math.floor((processed / total) * 100)] *)
Definition percent (processed total : Z) : Z :=
  Math_floor_Number
    (Number_mul (Number_div (Number_of_integer processed)
                            (Number_of_integer total))
                (Number_of_integer 100)).

(* ------------------------------------------------------------------ *)
(** ** dataGenerator.js: the persistent store adapter (identical in both
       revisions) *)

(** What the page finds when it looks for [window.indexedDB]. *)
Inductive Probe : Type :=
| ProbeThrows
| ProbeAnswers (inWindow notNull : bool).

(** How [indexedDB.open('CustomersDB', 1)] ends.  A request that other
    connections keep blocked fires [onblocked], whose handler only
    warns, and then no other event for as long as they stay open. *)
Inductive OpenOutcome : Type :=
| OpenThrows (message : string)         (* the call itself throws *)
| OpenError (message : option string)   (* onerror *)
| OpenUpgradeThrows (message : string)  (* onupgradeneeded fails *)
| OpenSuccess (database : IDBDatabase)  (* onsuccess *)
| OpenBlocked.                          (* onblocked, nothing after *)

(** The browser of one session.  [heapLimit n] bounds the number of
    records the [n]-th in-memory generation can hold before the engine
    gives up, with the message of the exception it then throws. *)
Record Browser := mkBrowser {
  host : Host;
  indexedDB_probe : Probe;
  indexedDB_open : OpenOutcome;
  heapLimit : nat -> option (Z * string)
}.

Definition isIndexedDBAvailable (env : Browser) : bool :=
  match indexedDB_probe env with
  | ProbeAnswers inWindow notNull => inWindow && notNull
  | ProbeThrows => false
  end.

(** [initializeDatabase()]: how its promise is settled, or [None] when
    it never is (no handler of a blocked request resolves or rejects). *)
Definition initializeDatabase (env : Browser)
  : option (Outcome IDBDatabase) :=
  if negb (isIndexedDBAvailable env) then
    Some (Rejected "IndexedDB is not available. Please use a regular browser window (not private/incognito mode)."%string)
  else
    match indexedDB_open env with
    | OpenThrows m => Some (Rejected m)
    | OpenError m =>
        Some (Rejected ("IndexedDB error: " ++ messageOrUnknown m)%string)
    | OpenUpgradeThrows m => Some (Rejected m)
    | OpenSuccess database => Some (Resolved database)
    | OpenBlocked => None
    end.

Definition isDatabasePopulated (database : IDBDatabase) : Outcome bool :=
  match countReq database with
  | ReqThrows m => Rejected m
  | ReqSuccess count => Resolved (1000000 <=? count)
  | ReqError m => Rejected ("Count error: " ++ messageOrUnknown m)%string
  end.

(* ------------------------------------------------------------------ *)
(** ** App.jsx: state and data initialisation *)

Record AppState := mkApp {
  customers : list Customer;
  loading : bool;
  progress : Z;
  error : option string;
  useMemoryStorage : bool;
  db : option IDBDatabase
}.

(** The initial values given to [useState]. *)
Definition initialState : AppState := mkApp [] true 0 None false None.

Definition setCustomers (v : list Customer) (a : AppState) : AppState :=
  mkApp v (loading a) (progress a) (error a) (useMemoryStorage a) (db a).
Definition setLoading (v : bool) (a : AppState) : AppState :=
  mkApp (customers a) v (progress a) (error a) (useMemoryStorage a) (db a).
Definition setProgress (v : Z) (a : AppState) : AppState :=
  mkApp (customers a) (loading a) v (error a) (useMemoryStorage a) (db a).
Definition setError (v : option string) (a : AppState) : AppState :=
  mkApp (customers a) (loading a) (progress a) v (useMemoryStorage a) (db a).
Definition setUseMemoryStorage (v : bool) (a : AppState) : AppState :=
  mkApp (customers a) (loading a) (progress a) (error a) v (db a).
Definition setDb (v : option IDBDatabase) (a : AppState) : AppState :=
  mkApp (customers a) (loading a) (progress a) (error a)
        (useMemoryStorage a) v.

(** The operations of the data layer that [initData] may invoke. *)
Inductive Call : Type :=
| CallProbe            (* isIndexedDBAvailable *)
| CallOpen             (* initializeDatabase *)
| CallIsPopulated      (* isDatabasePopulated *)
| CallPopulate         (* populateDatabase *)
| CallReadAll          (* loadCustomers, the read of all records *)
| CallGenerate.        (* generateCustomersInMemory *)

Definition isGenerate (c : Call) : bool :=
  match c with CallGenerate => true | _ => false end.
Definition isOpen (c : Call) : bool :=
  match c with CallOpen => true | _ => false end.
Definition isPopulate (c : Call) : bool :=
  match c with CallPopulate => true | _ => false end.
Definition isReadAll (c : Call) : bool :=
  match c with CallReadAll => true | _ => false end.

(** The component state together with the log of data-layer calls. *)
Record World := mkWorld { app : AppState; calls : list Call }.

Definition initialWorld : World := mkWorld initialState [].

(** An asynchronous step of [initData]: it ends resolved or rejected
    (thrown), or does not end ([None]). *)
Definition Task (A : Type) : Type := Run World (option (Outcome A)).

Definition done {A : Type} (a : A) : Task A := ret (Some (Resolved a)).

Definition throw {A : Type} (message : string) : Task A :=
  ret (Some (Rejected message)).

Definition andThen {A B : Type} (m : Task A) (f : A -> Task B) : Task B :=
  r <- m ;;
  match r with
  | Some (Resolved a) => f a
  | Some (Rejected e) => ret (Some (Rejected e))
  | None => ret None
  end.

Definition tryCatch {A : Type} (m : Task A) (handler : string -> Task A)
  : Task A :=
  r <- m ;;
  match r with
  | Some (Rejected e) => handler e
  | other => ret other
  end.

Notation "x <-- m ;; k" := (andThen m (fun x => k))
  (at level 61, m at next level, right associativity) : monad_scope.
Notation "m ;>> k" := (andThen m (fun _ => k))
  (at level 61, right associativity) : monad_scope.

Definition update (f : AppState -> AppState) : Task unit :=
  fun s => (Some (Resolved tt),
            (mkWorld (f (app (fst s))) (calls (fst s)), snd s)).

Definition logCall (c : Call) : Task unit :=
  fun s => (Some (Resolved tt),
            (mkWorld (app (fst s)) (calls (fst s) ++ [c]), snd s)).

Definition settle {A : Type} (o : Outcome A) : Task A := ret (Some o).

(** [await promise] for a promise that may stay pending: the task then
    never resumes. *)
Definition await {A : Type} (promise : option (Outcome A)) : Task A :=
  ret promise.

(** [(processed, total) =>
      setProgress(Math.floor((processed / total) * 100))] *)
Definition reportProgress : option (Z -> Z -> World -> World) :=
  Some (fun processed total w =>
          mkWorld (setProgress (percent processed total) (app w)) (calls w)).

(** A call of the first revision's [generateCustomersInMemory] in the
    browser [env]: it returns its array, or throws once the heap limit
    of this attempt is reached (the loop has then run for the records
    that fitted). *)
Definition callGenerateCustomersInMemory (env : Browser) (count : Z)
  (onProgress : option (Z -> Z -> World -> World))
  : Task (list Customer) :=
  fun s =>
    let attempt := List.length (filter isGenerate (calls (fst s))) in
    let s :=
      (mkWorld (app (fst s)) (calls (fst s) ++ [CallGenerate]), snd s) in
    match heapLimit env attempt with
    | Some (fits, message) =>
        if fits <? count then
          let r :=
            forEach (upto 1 fits)
              (V1.generateStep (host env) count onProgress) [] s in
          (Some (Rejected message), snd r)
        else
          let r :=
            V1.generateCustomersInMemory (host env) count onProgress s in
          (Some (Resolved (fst r)), snd r)
    | None =>
        let r :=
          V1.generateCustomersInMemory (host env) count onProgress s in
        (Some (Resolved (fst r)), snd r)
    end.

(** A call of [populateDatabase(database, onProgress)]: App.jsx passes
    these two arguments, as the first revision expects. *)
Definition callPopulateDatabase (env : Browser) (database : IDBDatabase)
  (onProgress : option (Z -> Z -> World -> World)) : Task unit :=
  logCall CallPopulate ;>>
  V1.populateDatabase (host env) database onProgress.

(** [loadCustomers]: one [getAll()] whose result replaces the working
    set. *)
Definition loadCustomers (database : option IDBDatabase) : Task unit :=
  logCall CallReadAll ;>>
  match database with
  | None => throw "Database is null"%string
  | Some database =>
      match getAllReq database with
      | ReqThrows m => throw m
      | ReqSuccess result => update (setCustomers result)
      | ReqError m => throw ("Load error: " ++ messageOrUnknown m)%string
      end
  end.

(** [err.message || 'Failed to initialize database'] *)
Definition messageOrDefault (m : string) : string :=
  match m with
  | EmptyString => "Failed to initialize database"%string
  | _ => m
  end.

(** The [catch] block of [initData]: fall back to memory. *)
Definition recover (env : Browser) (err : string) : Task unit :=
  update (setError (Some (messageOrDefault err))) ;>>
  update (setUseMemoryStorage true) ;>>
  tryCatch
    ( memoryCustomers <--
        callGenerateCustomersInMemory env 1000000 reportProgress ;;
      update (setCustomers memoryCustomers) ;>>
      update (setError None) )
    (fun memError =>
       update (setError (Some "Failed to generate customer data"%string)))
  ;>>
  update (setLoading false).

Definition initData (env : Browser) : Task unit :=
  tryCatch
    ( update (setError None) ;>>
      available <-- (logCall CallProbe ;>> done (isIndexedDBAvailable env)) ;;
      if negb available then
        update (setUseMemoryStorage true) ;>>
        memoryCustomers <--
          callGenerateCustomersInMemory env 1000000 reportProgress ;;
        update (setCustomers memoryCustomers) ;>>
        update (setLoading false)
      else
        database <--
          (logCall CallOpen ;>> logCall CallProbe ;>>
           await (initializeDatabase env)) ;;
        update (setDb (Some database)) ;>>
        isPopulated <--
          (logCall CallIsPopulated ;>> settle (isDatabasePopulated database)) ;;
        (if negb isPopulated
         then callPopulateDatabase env database reportProgress
         else done tt) ;>>
        loadCustomers (Some database) ;>>
        update (setLoading false) )
    (recover env).

(** Running [initData] from the freshly mounted component. *)
Definition start (env : Browser) : option (Outcome unit) * World :=
  let r := initData env (initialWorld, O) in (fst r, fst (snd r)).

(* ------------------------------------------------------------------ *)
(** ** App.jsx: arrays as objects *)

(** Arrays live in a store and are passed by reference, so that "the
    same array" and "a new array" can be told apart. *)
Definition ArrayRef : Type := nat.
Definition Heap : Type := list (list Customer).

Definition deref (m : Heap) (r : ArrayRef) : list Customer := nth r m [].

Definition alloc (a : list Customer) : State Heap ArrayRef :=
  fun m => (List.length m, m ++ [a]).

(* ------------------------------------------------------------------ *)
(** ** App.jsx: the filter *)

(** The predicate given to [customers.filter]. *)
Definition matchesSearch (searchLower : string) (customer : Customer) : bool :=
  includes (toLowerCase (name customer)) searchLower ||
  includes (toLowerCase (email customer)) searchLower ||
  includes (toLowerCase (phone customer)) searchLower.

(** [filteredCustomers]; an absent search term is [None]. *)
Definition filteredCustomers (customers : ArrayRef)
  (debouncedSearchTerm : option string) : State Heap ArrayRef :=
  match debouncedSearchTerm with
  | None => ret customers
  | Some EmptyString => ret customers
  | Some term =>
      let searchLower := toLowerCase term in
      fun m => alloc (filter (matchesSearch searchLower) (deref m customers)) m
  end.

(* ------------------------------------------------------------------ *)
(** ** App.jsx: the sort *)

Inductive Column : Type :=
| col_id | col_name | col_email | col_phone | col_score
| col_lastMessageAt | col_addedBy.

Inductive Direction : Type := asc | desc.

Record SortConfig := mkSortConfig { column : Column; direction : Direction }.

(** A precomputed comparison value: a number or a string. *)
Inductive Value : Type :=
| Num (n : Z)
| Str (s : string).

Record Decorated := mkDecorated { customer : Customer; compareValue : Value }.

(** The decoration step.  [Number] of a numeric field is the field,
    [new Date(iso).getTime()] is the instant, [String] of a string field
    is the field. *)
Definition decorate (column : Column) (customer : Customer) : Decorated :=
  let compareValue :=
    match column with
    | col_score => Num (score customer)
    | col_id => Num (id customer)
    | col_lastMessageAt => Num (lastMessageAt customer)
    | col_name => Str (toLowerCase (name customer))
    | col_email => Str (toLowerCase (email customer))
    | col_phone => Str (toLowerCase (phone customer))
    | col_addedBy => Str (toLowerCase (addedBy customer))
    end in
  mkDecorated customer compareValue.

(** [a < b] on comparison values: numeric order, or order of the code
    units.  The two kinds never meet, since one pass decorates with one
    column; the answer is then [false], as for NaN. *)
Definition js_lt (a b : Value) : bool :=
  match a, b with
  | Num x, Num y => x <? y
  | Str s, Str t => String.ltb s t
  | _, _ => false
  end.

Definition js_gt (a b : Value) : bool := js_lt b a.

(** The comparator given to [decorated.sort]. *)
Definition compareFn (direction : Direction) (a b : Decorated) : Z :=
  let aVal := compareValue a in
  let bVal := compareValue b in
  if js_lt aVal bVal then match direction with asc => -1 | desc => 1 end
  else if js_gt aVal bVal then match direction with asc => 1 | desc => -1 end
  else 0.

(** [Array.prototype.sort(comparefn)].  The language requires the sort
    to be stable and, for a consistent comparator, sorted; that fixes
    the result (see [Array_sort_unique]), computed here by insertion. *)
Fixpoint insertSorted {A : Type} (comparefn : A -> A -> Z) (x : A)
  (l : list A) : list A :=
  match l with
  | [] => [x]
  | y :: l' =>
      if comparefn x y <=? 0 then x :: y :: l'
      else y :: insertSorted comparefn x l'
  end.

Definition Array_sort {A : Type} (comparefn : A -> A -> Z) (l : list A)
  : list A :=
  fold_right (insertSorted comparefn) [] l.

(** The comparator ties [x] and [y]. *)
Definition tiedBy {A : Type} (comparefn : A -> A -> Z) (x y : A) : bool :=
  comparefn x y =? 0.

(** The pure content of [sortedCustomers]. *)
Definition sortRecords (sortConfig : SortConfig) (records : list Customer)
  : list Customer :=
  let decorated := map (decorate (column sortConfig)) records in
  let decorated := Array_sort (compareFn (direction sortConfig)) decorated in
  map customer decorated.

Definition sortedCustomers (filteredCustomers : ArrayRef)
  (sortConfig : SortConfig) : State Heap ArrayRef :=
  fun m => alloc (sortRecords sortConfig (deref m filteredCustomers)) m.

(** The comparison value of a record under a column. *)
Definition sortKey (column : Column) (c : Customer) : Value :=
  compareValue (decorate column c).

Definition Value_eqb (a b : Value) : bool :=
  match a, b with
  | Num x, Num y => x =? y
  | Str s, Str t => String.eqb s t
  | _, _ => false
  end.

Definition isNum (v : Value) : bool :=
  match v with Num _ => true | Str _ => false end.

(** The columns decorated with numbers. *)
Definition numericColumn (column : Column) : bool :=
  match column with
  | col_id | col_score | col_lastMessageAt => true
  | _ => false
  end.

(** The sizes of the windows that cut [n] records into batches of
    [size]: full windows, then the remainder if there is one. *)
Definition windowSizes (size n : Z) : list Z :=
  repeat size (Z.to_nat (n / size)) ++
  (if n mod size =? 0 then [] else [n mod size]).

(** The calls a producer makes for a sequence of batches: for each one,
    progress up to its last identifier, then batch-ready. *)
Definition batchEvents (total : Z) (batches : list (list Customer))
  : list Event :=
  flat_map (fun b => [Progress (last (map id b) 0) total; BatchReady b])
           batches.

(** What C1 asks of the batches handed to the batch-ready callback for
    a total [N] and a batch size [B]: the identifiers are 1..N, each
    once and without gaps; the sizes add up to N; the windows are full
    except for a shorter last one when [B] does not divide [N]. *)
Definition deliversExactlyOnce (N B : Z) (batches : list (list Customer))
  : Prop :=
  List.concat (map (map id) batches) = upto 1 N /\
  NoDup (List.concat (map (map id) batches)) /\
  fold_right Z.add 0 (map (fun b => Z.of_nat (List.length b)) batches) = N /\
  map (fun b => Z.of_nat (List.length b)) batches = windowSizes B N.

(** The values that decorate one column are all of one kind. *)
Definition ofColumn (c : Column) (d : Decorated) : Prop :=
  isNum (compareValue d) = numericColumn c.

(** The identifiers at which the first revision reports progress. *)
Definition reportedAt (i : Z) : bool := Z.rem i V1.BATCH_SIZE =? 0.

(** The effect of [if (onProgress) onProgress(i, total)] on the
    consumer. *)
Definition applyProgress {C : Type} (oP : option (Z -> Z -> C -> C))
  (total : Z) (st : C) (i : Z) : C :=
  match oP with
  | Some f => f i total st
  | None => st
  end.

(** The [attempt]-th in-memory generation of [count] records fits in
    the heap of the browser. *)
Definition fitsHeap (env : Browser) (attempt : nat) (count : Z) : bool :=
  match heapLimit env attempt with
  | Some (fits, _) => negb (fits <? count)
  | None => true
  end.

(** Two worlds that differ at most in the progress shown. *)
Definition sameButProgress (w w' : World) : Prop :=
  calls w' = calls w /\
  customers (app w') = customers (app w) /\
  loading (app w') = loading (app w) /\
  error (app w') = error (app w) /\
  useMemoryStorage (app w') = useMemoryStorage (app w) /\
  db (app w') = db (app w).

(** The failures of the persistent store that [initData] can meet, in
    the order of its steps: opening, the population check, the
    population (one of its hundred transactions does not complete), the
    final read of all records. *)
Definition populateFails (database : IDBDatabase) : Prop :=
  exists b, 0 <= b < 100 /\ writeTx database b <> TxComplete.

Definition readAllFails (database : IDBDatabase) : Prop :=
  forall result, getAllReq database <> ReqSuccess result.

Definition storeStepFails (env : Browser) : Prop :=
  (exists m, initializeDatabase env = Some (Rejected m)) \/
  (exists database, initializeDatabase env = Some (Resolved database) /\
     ((exists m, isDatabasePopulated database = Rejected m) \/
      (isDatabasePopulated database = Resolved false /\
       populateFails database) \/
      (isDatabasePopulated database = Resolved false /\
       (forall b, 0 <= b < 100 -> writeTx database b = TxComplete) /\
       readAllFails database) \/
      (isDatabasePopulated database = Resolved true /\
       readAllFails database))).

(** The open request of the session stays blocked: the probe has
    answered yes and the request fires [onblocked] only, so the promise
    of [initializeDatabase] is never settled. *)
Definition openStaysBlocked (env : Browser) : Prop :=
  isIndexedDBAvailable env = true /\ indexedDB_open env = OpenBlocked.

(** Every step of the persistent store succeeds and the final read
    answers [result]. *)
Definition storeSucceeds (env : Browser) (result : list Customer) : Prop :=
  exists database, initializeDatabase env = Some (Resolved database) /\
    (isDatabasePopulated database = Resolved true \/
     (isDatabasePopulated database = Resolved false /\
      forall b, 0 <= b < 100 -> writeTx database b = TxComplete)) /\
    getAllReq database = ReqSuccess result.

(* ------------------------------------------------------------------ *)
(** ** The percentages of a hundred reports *)

(** What [Math.floor((j * 10000 / 1000000) * 100)] gives for the [j]-th
    of a hundred reports: [j], except for the three quotients whose
    nearest double, multiplied by 100, falls just below the integer. *)
Definition percentOfBatch (j : Z) : Z :=
  if (j =? 29) || (j =? 57) || (j =? 58) then j - 1 else j.

(* ------------------------------------------------------------------ *)
(** ** dataGenerator.js: the records of a run, in order *)

(** The records that consecutive calls of [generateCustomer] return for
    the identifiers [ids]. *)
Fixpoint generateMany (h : Host) (ids : list Z) : Gen (list Customer) :=
  match ids with
  | [] => ret []
  | i :: ids' =>
      c <- generateCustomer h i ;;
      cs <- generateMany h ids' ;;
      ret (c :: cs)
  end.

(** The number of [Math.random()] calls of one [generateCustomer]. *)
Definition drawsPerCustomer : nat := 11.

(** Two records that agree on every field except [lastMessageAt], the
    one field computed from [Date.now()]. *)
Definition sameButLastMessageAt (a b : Customer) : Prop :=
  id a = id b /\ name a = name b /\ phone a = phone b /\
  email a = email b /\ score a = score b /\ addedBy a = addedBy b /\
  avatar a = avatar b.

(** Decimal digits, and the first run of digits of a string. *)
Definition isDigit (c : ascii) : bool :=
  ((48 <=? N_of_ascii c) && (N_of_ascii c <=? 57))%N.

Fixpoint allDigits (s : string) : bool :=
  match s with
  | EmptyString => true
  | String c s' => isDigit c && allDigits s'
  end.

Fixpoint noDigit (s : string) : bool :=
  match s with
  | EmptyString => true
  | String c s' => negb (isDigit c) && noDigit s'
  end.

Fixpoint fromFirstDigit (s : string) : string :=
  match s with
  | EmptyString => EmptyString
  | String c s' => if isDigit c then s else fromFirstDigit s'
  end.

Fixpoint leadingDigits (s : string) : string :=
  match s with
  | EmptyString => EmptyString
  | String c s' =>
      if isDigit c then String c (leadingDigits s') else EmptyString
  end.

(** The identifier as it can be read back from a generated address: the
    first run of digits. *)
Definition digitsOfEmail (email : string) : string :=
  leadingDigits (fromFirstDigit email).

(* ------------------------------------------------------------------ *)
(** ** CustomerTable.jsx: the score badge *)

(** [Math.floor(customer.score / 25)], the suffix of the badge class. *)
Definition scoreClass (score : Z) : Z :=
  Math_floor (inject_Z score / 25)%Q.

(* ------------------------------------------------------------------ *)
(** ** App.jsx: what a session can call, and what is rendered *)

(** The sequences of data-layer calls that [initData] can make. *)
Definition initDataCallLogs : list (list Call) :=
  [ [CallProbe; CallGenerate];
    [CallProbe; CallGenerate; CallGenerate];
    [CallProbe; CallOpen; CallProbe; CallGenerate];
    [CallProbe; CallOpen; CallProbe; CallIsPopulated; CallGenerate];
    [CallProbe; CallOpen; CallProbe; CallIsPopulated; CallReadAll];
    [CallProbe; CallOpen; CallProbe; CallIsPopulated; CallReadAll;
     CallGenerate];
    [CallProbe; CallOpen; CallProbe; CallIsPopulated; CallPopulate;
     CallGenerate];
    [CallProbe; CallOpen; CallProbe; CallIsPopulated; CallPopulate;
     CallReadAll];
    [CallProbe; CallOpen; CallProbe; CallIsPopulated; CallPopulate;
     CallReadAll; CallGenerate] ].

(** Some call of the persistent store comes after an in-memory
    generation. *)
Fixpoint storeCallAfterGenerate (log : list Call) : bool :=
  match log with
  | [] => false
  | c :: log' =>
      (isGenerate c && existsb (fun c' => negb (isGenerate c')) log')
      || storeCallAfterGenerate log'
  end.

(** The calls made when [initData] waits for the open request for
    ever. *)
Definition blockedCallLog : list Call := [CallProbe; CallOpen; CallProbe].

(** What [initData] leaves behind when it ends. *)
Definition sessionSummary (w : World) : Prop :=
  In (calls w) initDataCallLogs /\
  useMemoryStorage (app w) = existsb isGenerate (calls w) /\
  loading (app w) = false /\
  (error (app w) = None \/
   error (app w) = Some "Failed to generate customer data"%string /\
   customers (app w) = [] /\ useMemoryStorage (app w) = true) /\
  (error (app w) = None -> useMemoryStorage (app w) = true ->
   map id (customers (app w)) = upto 1 1000000) /\
  (error (app w) = None ->
   progress (app w)
   = if existsb isGenerate (calls w) || existsb isPopulate (calls w)
     then 100 else 0).

(** What [initData] leaves behind when it waits for the open request
    for ever: the state the component was mounted with. *)
Definition pendingSummary (w : World) : Prop :=
  calls w = blockedCallLog /\
  customers (app w) = [] /\
  loading (app w) = true /\
  progress (app w) = 0 /\
  error (app w) = None /\
  useMemoryStorage (app w) = false.

(** The view handed to the table: the filter, then the sort, each
    memoised step allocating its result. *)
Definition displayed (customers : list Customer)
  (debouncedSearchTerm : option string) (sortConfig : SortConfig)
  : list Customer :=
  let f := filteredCustomers 0%nat debouncedSearchTerm [customers] in
  let s := sortedCustomers (fst f) sortConfig (snd f) in
  deref (snd s) (fst s).

(** The three returns of the component. *)
Inductive Screen : Type :=
| LoadingScreen (inMemory : bool) (errorText : option string)
                (progressText : option Z)
| NoDataScreen
| MainScreen (shown total : nat) (memoryBadge : bool).

(** [{error && ...}]: [null] and the empty string show nothing. *)
Definition shownError (error : option string) : option string :=
  match error with
  | Some EmptyString | None => None
  | Some e => Some e
  end.

Definition render (a : AppState) (debouncedSearchTerm : option string)
  (sortConfig : SortConfig) : Screen :=
  if loading a then
    LoadingScreen (useMemoryStorage a) (shownError (error a))
                  (if 0 <? progress a then Some (progress a) else None)
  else if Nat.eqb (List.length (customers a)) 0 then NoDataScreen
  else
    MainScreen
      (List.length (displayed (customers a) debouncedSearchTerm sortConfig))
      (List.length (customers a)) (useMemoryStorage a).

(* ------------------------------------------------------------------ *)
(** ** CustomerTable.jsx: the column headers *)

Definition Column_eqb (a b : Column) : bool :=
  match a, b with
  | col_id, col_id | col_name, col_name | col_email, col_email
  | col_phone, col_phone | col_score, col_score
  | col_lastMessageAt, col_lastMessageAt | col_addedBy, col_addedBy => true
  | _, _ => false
  end.

(** [handleSort(column)]: the configuration handed to [onSortChange]
    when a header is clicked. *)
Definition handleSort (sortConfig : SortConfig) (column' : Column)
  : SortConfig :=
  let direction' :=
    if Column_eqb (column sortConfig) column' &&
       match direction sortConfig with asc => true | desc => false end
    then desc else asc in
  mkSortConfig column' direction'.

(* ------------------------------------------------------------------ *)
(** ** CustomerTable.jsx: virtual scrolling *)

Record VisibleRange := mkVisibleRange { rangeStart : Z; rangeEnd : Z }.

(** [useState({ start: 0, end: 50 })] *)
Definition initialRange : VisibleRange := mkVisibleRange 0 50.

(** [checkResponsive]: the flags [isMobile] and [isTablet] for a window
    width. *)
Definition checkResponsive (width : Z) : bool * bool :=
  (width <? 768, (768 <=? width) && (width <? 1024)).

Definition ROW_HEIGHT (isMobile isTablet : bool) : Z :=
  if isMobile then 120 else if isTablet then 80 else 60.

Definition VIEWPORT_BUFFER : Z := 20.

Definition Math_ceil (q : Q) : Z := Qceiling q.

(** The scroll container as [handleScroll] reads it:
    [containerRef.current.scrollTop] and [.clientHeight]. *)
Record Container := mkContainer { scrollTop : Q; clientHeight : Q }.

(** [handleScroll]: the range kept in the state after a scroll event,
    for the row height of the current layout; nothing changes while the
    container is not mounted. *)
Definition handleScroll (rowHeight : Z) (data : list Customer)
  (containerRef : option Container) (visibleRange : VisibleRange)
  : VisibleRange :=
  match containerRef with
  | None => visibleRange
  | Some current =>
      let scrollTop := scrollTop current in
      let viewportHeight := clientHeight current in
      let startIndex :=
        Z.max 0 (Math_floor (scrollTop / inject_Z rowHeight)
                 - VIEWPORT_BUFFER) in
      let endIndex :=
        Z.min (Z.of_nat (List.length data))
              (Math_ceil ((scrollTop + viewportHeight) / inject_Z rowHeight)
               + VIEWPORT_BUFFER) in
      if (5 <? Z.abs (startIndex - rangeStart visibleRange)) ||
         (5 <? Z.abs (endIndex - rangeEnd visibleRange))
      then mkVisibleRange startIndex endIndex
      else visibleRange
  end.

(** Successive calls of [handleScroll], by the scroll listener or by
    the effect that installs it, with no other update of the range
    between them: each is made with the range the previous one has left
    and the container as it then is. *)
Definition handleScrolls (rowHeight : Z) (data : list Customer)
  (containers : list Container) (visibleRange : VisibleRange)
  : VisibleRange :=
  fold_left
    (fun range current => handleScroll rowHeight data (Some current) range)
    containers visibleRange.

(** [Array.prototype.slice(start, end)] on integer arguments: negative
    indices count from the end, both are clamped to the array. *)
Definition Array_slice {A : Type} (l : list A) (start' end' : Z) : list A :=
  let len := Z.of_nat (List.length l) in
  let k := if start' <? 0 then Z.max (len + start') 0 else Z.min start' len in
  let final := if end' <? 0 then Z.max (len + end') 0 else Z.min end' len in
  firstn (Z.to_nat (final - k)) (skipn (Z.to_nat k) l).

Definition visibleData (data : list Customer) (visibleRange : VisibleRange)
  : list Customer :=
  Array_slice data (rangeStart visibleRange) (rangeEnd visibleRange).

Definition totalHeight (rowHeight : Z) (data : list Customer) : Z :=
  Z.of_nat (List.length data) * rowHeight.

Definition offsetY (rowHeight : Z) (visibleRange : VisibleRange) : Z :=
  rangeStart visibleRange * rowHeight.

(** Row [i] of the list, drawn between [i * rowHeight] and
    [(i + 1) * rowHeight], meets the window of the container, from
    [scrollTop] to [scrollTop + clientHeight]. *)
Definition inViewport (rowHeight : Z) (current : Container) (i : Z) : Prop :=
  (inject_Z (i * rowHeight) < scrollTop current + clientHeight current)%Q /\
  (scrollTop current < inject_Z ((i + 1) * rowHeight))%Q.

(** A container [rows] rows high that shows a part of the list: the
    scroll position is not negative and the viewport ends inside the
    [totalHeight] of the list. *)
Definition scrolledWithin (rowHeight : Z) (data : list Customer) (rows : Z)
  (current : Container) : Prop :=
  (0 <= scrollTop current)%Q /\
  (scrollTop current + clientHeight current
   <= inject_Z (totalHeight rowHeight data))%Q /\
  Math_ceil (clientHeight current / inject_Z rowHeight) = rows.

(* ------------------------------------------------------------------ *)
(** ** useDebounce.js *)

(** The hook's state: the value of the last render, the debounced
    value, and the pending timeout with the instant it is due and the
    value its callback captured. *)
Record Debounce := mkDebounce {
  currentValue : string;
  debouncedValue : string;
  handler : option (Z * string)
}.

(** First render at the instant [now]: [useState(value)], then the
    effect sets the timeout. *)
Definition mountDebounce (delay now : Z) (value : string) : Debounce :=
  mkDebounce value value (Some (now + delay, value)).

(** A render with [value] at the instant [now].  When the value is the
    one of the previous render the effect is skipped; otherwise its
    clean-up clears the pending timeout and the effect sets a new one. *)
Definition renderDebounce (delay now : Z) (value : string) (s : Debounce)
  : Debounce :=
  if String.eqb value (currentValue s) then s
  else mkDebounce value (debouncedValue s) (Some (now + delay, value)).

(** The host runs the timeout callback, never before it is due. *)
Definition fireTimeout (now : Z) (s : Debounce) : Debounce :=
  match handler s with
  | Some (due, value) =>
      if due <=? now then mkDebounce (currentValue s) value None else s
  | None => s
  end.

Inductive DebounceEvent : Type :=
| Rendered (now : Z) (value : string)
| TimerTick (now : Z).

Definition stepDebounce (delay : Z) (s : Debounce) (e : DebounceEvent)
  : Debounce :=
  match e with
  | Rendered now value => renderDebounce delay now value s
  | TimerTick now => fireTimeout now s
  end.

Definition runDebounce (delay : Z) (s : Debounce) (events : list DebounceEvent)
  : Debounce :=
  fold_left (stepDebounce delay) events s.

(** The values passed to the hook by a sequence of events. *)
Fixpoint renderedValues (events : list DebounceEvent) : list string :=
  match events with
  | [] => []
  | Rendered _ value :: events' => value :: renderedValues events'
  | TimerTick _ :: events' => renderedValues events'
  end.

(* ------------------------------------------------------------------ *)
(** ** Concrete inputs used by the examples *)

Definition host0 : Host :=
  mkHost (fun k => Z.of_nat k * 1234567891234567) (fun _ => 1700000000000).

(** The random draws of [host0], read one minute later. *)
Definition host_later : Host :=
  mkHost (random_bits host0) (fun k => clock host0 k + 60000).

Definition db_ok : IDBDatabase :=
  mkDB (fun _ => TxComplete) (ReqSuccess 0) (ReqSuccess []).

(** A record whose phone is written with capital letters. *)
Definition flowers : Customer :=
  mkCustomer 1 "Mary Smith" "1-800-FLOWERS" "mary.smith1@gmail.com" 50
             1700000000000 "John Brown" (mkAvatar "MS" "#FF6B6B").

(** A private window: no IndexedDB, memory to spare. *)
Definition env_private : Browser :=
  mkBrowser host0 (ProbeAnswers false false) (OpenError None) (fun _ => None).

(** A store left fully populated by an earlier session. *)
Definition db_populated : IDBDatabase :=
  mkDB (fun _ => TxComplete) (ReqSuccess 1000000) (ReqSuccess [flowers]).

Definition env_populated : Browser :=
  mkBrowser host0 (ProbeAnswers true true) (OpenSuccess db_populated)
            (fun _ => None).

(** A store that another session keeps locked. *)
Definition env_locked : Browser :=
  mkBrowser host0 (ProbeAnswers true true) (OpenError (Some "locked"%string))
            (fun _ => None).

(** A store whose upgrade another tab blocks by keeping its connection
    open. *)
Definition env_blocked : Browser :=
  mkBrowser host0 (ProbeAnswers true true) OpenBlocked (fun _ => None).

(** A view with ties on every text column. *)
Definition sampleView : list Customer :=
  [ mkCustomer 3 "Mary Smith" "+1 (555) 123-4567" "mary.smith3@gmail.com" 70
               1700000000000 "John Brown" (mkAvatar "MS" "#FF6B6B");
    mkCustomer 1 "John Brown" "+1 (555) 123-4567" "john.brown1@yahoo.com" 70
               1690000000000 "Mary Smith" (mkAvatar "JB" "#4ECDC4");
    mkCustomer 2 "mary smith" "+1 (444) 123-4567" "mary.smith2@gmail.com" 15
               1700000000000 "John Brown" (mkAvatar "ms" "#45B7D1") ].

(** The filter predicate as the specification words it: the phone is
    matched as displayed, without case folding. *)
Definition matchesSearch_displayedPhone (query : string) (c : Customer)
  : bool :=
  includes (toLowerCase (name c)) (toLowerCase query) ||
  includes (toLowerCase (email c)) (toLowerCase query) ||
  includes (phone c) (toLowerCase query).

(** [t] occurs in [s]. *)
Definition isSubstringOf (t s : string) : Prop :=
  exists a b : string, s = (a ++ t ++ b)%string.

(** A store whose third write transaction is aborted. *)
Definition db_third_aborts : IDBDatabase :=
  mkDB (fun b => if b =? 2 then TxAbort else TxComplete)
       (ReqSuccess 0) (ReqSuccess []).

(** A store left partially populated by an interrupted session. *)
Definition db_partial : IDBDatabase :=
  mkDB (fun _ => TxComplete) (ReqSuccess 250000) (ReqSuccess [flowers]).

Definition env_partial : Browser :=
  mkBrowser host0 (ProbeAnswers true true) (OpenSuccess db_partial)
            (fun _ => None).

(** Thirty rows, and a hundred. *)
Definition thirtyRows : list Customer := repeat flowers 30.
Definition hundredRows : list Customer := repeat flowers 100.

(** The row height of the table in a window 1280 pixels wide. *)
Definition desktopRowHeight : Z :=
  ROW_HEIGHT (fst (checkResponsive 1280)) (snd (checkResponsive 1280)).

(* ================================================================== *)
(** * Properties *)

(* ------------------------------------------------------------------ *)
(** ** Strings *)

Lemma toLowerCase_unit_idempotent (c : ascii) :
  toLowerCase_unit (toLowerCase_unit c) = toLowerCase_unit c.
Proof.
  destruct c as [[] [] [] [] [] [] [] []]; reflexivity.
Qed.

Lemma toLowerCase_idempotent (s : string) :
  toLowerCase (toLowerCase s) = toLowerCase s.
Proof.
  induction s as [|c s IH]; simpl.
  - reflexivity.
  - now rewrite toLowerCase_unit_idempotent, IH.
Qed.

Lemma toLowerCase_nonempty (s : string) :
  s <> EmptyString -> toLowerCase s <> EmptyString.
Proof.
  destruct s; simpl; [congruence | discriminate].
Qed.

Lemma prefix_iff (t s : string) :
  prefix t s = true <-> exists b, s = (t ++ b)%string.
Proof.
  revert s; induction t as [|c t IH]; intros [|d s]; simpl.
  - split; [intros _; now exists EmptyString | reflexivity].
  - split; [intros _; now exists (String d s) | reflexivity].
  - split; [discriminate | intros [b Hb]; discriminate].
  - destruct (ascii_dec c d) as [->|Hne].
    + rewrite IH. split; intros [b Hb]; exists b; simpl in *; congruence.
    + split; [discriminate | intros [b Hb]; simpl in Hb; congruence].
Qed.

Lemma includes_iff (s t : string) :
  includes s t = true <-> isSubstringOf t s.
Proof.
  unfold isSubstringOf.
  induction s as [|c s IH].
  - change (includes EmptyString t) with (prefix t EmptyString || false).
    rewrite orb_false_r, prefix_iff. split.
    + intros [b Hb]. now exists EmptyString, b.
    + intros [a [b H]]. destruct a; simpl in H; [now exists b|discriminate].
  - change (includes (String c s) t)
      with (prefix t (String c s) || includes s t).
    rewrite orb_true_iff, prefix_iff, IH. split.
    + intros [[b Hb] | [a [b H]]].
      * now exists EmptyString, b.
      * exists (String c a), b. simpl. now rewrite H.
    + intros [a [b H]]. destruct a as [|c' a]; simpl in H.
      * left. now exists b.
      * right. exists a, b. congruence.
Qed.

(* ------------------------------------------------------------------ *)
(** ** The filter *)

Lemma filteredCustomers_nonempty (r : ArrayRef) (q : string) (m : Heap) :
  q <> EmptyString ->
  filteredCustomers r (Some q) m =
  alloc (filter (matchesSearch (toLowerCase q)) (deref m r)) m.
Proof.
  destruct q; [congruence | reflexivity].
Qed.

Lemma deref_alloc (a : list Customer) (m : Heap) :
  deref (snd (alloc a m)) (fst (alloc a m)) = a.
Proof.
  unfold alloc, deref; simpl.
  rewrite app_nth2 by lia. now rewrite Nat.sub_diag.
Qed.

Lemma deref_alloc_other (a : list Customer) (m : Heap) (r : ArrayRef) :
  (r < List.length m)%nat ->
  deref (snd (alloc a m)) r = deref m r /\ fst (alloc a m) <> r.
Proof.
  intros Hr. unfold alloc, deref; simpl. split.
  - now rewrite app_nth1.
  - lia.
Qed.

(** C4, as worded, fails: the query "flowers" selects the record whose
    phone is displayed as 1-800-FLOWERS, although "flowers" does not
    occur in the displayed phone. *)
Lemma filter_displayed_phone_counterexample :
  let m := [[flowers]] in
  let q := "flowers"%string in
  q <> EmptyString /\
  deref (snd (filteredCustomers 0%nat (Some q) m))
        (fst (filteredCustomers 0%nat (Some q) m))
  <> filter (matchesSearch_displayedPhone q) (deref m 0%nat).
Proof.
  split; [discriminate | vm_compute; discriminate].
Qed.

(** C4 (amended): for a non-empty query the filter returns the records
    of the working set, in their order, for which the case-folded query
    occurs in the case-folded name, the case-folded email or the
    case-folded phone. *)
Theorem filter_selects_case_folded_matches
  (m : Heap) (customers : ArrayRef) (q : string) :
  q <> EmptyString ->
  exists keep : Customer -> bool,
    deref (snd (filteredCustomers customers (Some q) m))
          (fst (filteredCustomers customers (Some q) m))
    = filter keep (deref m customers)
    /\ forall c, keep c = true <->
         isSubstringOf (toLowerCase q) (toLowerCase (name c)) \/
         isSubstringOf (toLowerCase q) (toLowerCase (email c)) \/
         isSubstringOf (toLowerCase q) (toLowerCase (phone c)).
Proof.
  intros Hq. exists (matchesSearch (toLowerCase q)). split.
  - rewrite filteredCustomers_nonempty by assumption. apply deref_alloc.
  - intros c. unfold matchesSearch.
    rewrite !orb_true_iff, !includes_iff. tauto.
Qed.

Lemma filter_selects_case_folded_matches_witness :
  ("smith"%string <> EmptyString) /\
  exists keep : Customer -> bool,
    deref (snd (filteredCustomers 0%nat (Some "smith"%string) [[flowers]]))
          (fst (filteredCustomers 0%nat (Some "smith"%string) [[flowers]]))
    = filter keep (deref [[flowers]] 0%nat)
    /\ forall c, keep c = true <->
         isSubstringOf (toLowerCase "smith") (toLowerCase (name c)) \/
         isSubstringOf (toLowerCase "smith") (toLowerCase (email c)) \/
         isSubstringOf (toLowerCase "smith") (toLowerCase (phone c)).
Proof.
  split.
  - discriminate.
  - apply (filter_selects_case_folded_matches [[flowers]] 0%nat "smith").
    discriminate.
Defined.

(** On records whose phone has no capital letter, as [generatePhone]
    writes them, the two readings of the phone test agree. *)
Lemma filter_displayed_phone_agrees (q : string) (W : list Customer) :
  (forall c, In c W -> toLowerCase (phone c) = phone c) ->
  filter (matchesSearch (toLowerCase q)) W
  = filter (matchesSearch_displayedPhone q) W.
Proof.
  intros H. apply filter_ext_in. intros c Hc.
  unfold matchesSearch, matchesSearch_displayedPhone.
  now rewrite (H c Hc).
Qed.

(** C9: with an empty or an absent query the filter returns the very
    array it was given, and allocates nothing. *)
Theorem filter_empty_query_is_identity (m : Heap) (customers : ArrayRef) :
  filteredCustomers customers (Some EmptyString) m = (customers, m) /\
  filteredCustomers customers None m = (customers, m).
Proof.
  split; reflexivity.
Qed.

(** C10: the filter depends on the query only through its case-folded
    form, in all three branches. *)
Theorem filter_query_case_insensitive
  (m : Heap) (customers : ArrayRef) (q : string) :
  filteredCustomers customers (Some q) m
  = filteredCustomers customers (Some (toLowerCase q)) m.
Proof.
  destruct q as [|c q].
  - reflexivity.
  - change (filteredCustomers customers (Some (toLowerCase (String c q))) m)
      with (alloc (filter (matchesSearch
                     (toLowerCase (toLowerCase (String c q))))
                     (deref m customers)) m).
    now rewrite toLowerCase_idempotent.
Qed.

(* ------------------------------------------------------------------ *)
(** ** The built-in sort *)

Section ArraySort.
Context {A : Type} (comparefn : A -> A -> Z).

Lemma insertSorted_perm (x : A) (l : list A) :
  Permutation (x :: l) (insertSorted comparefn x l).
Proof.
  induction l as [|y l IH]; simpl.
  - apply Permutation_refl.
  - destruct (comparefn x y <=? 0).
    + apply Permutation_refl.
    + eapply perm_trans; [apply perm_swap|]. now apply perm_skip.
Qed.

Lemma Array_sort_perm (l : list A) :
  Permutation l (Array_sort comparefn l).
Proof.
  induction l as [|x l IH]; simpl.
  - apply perm_nil.
  - eapply perm_trans; [|apply insertSorted_perm]. now apply perm_skip.
Qed.

Lemma Array_sort_In (x : A) (l : list A) :
  In x (Array_sort comparefn l) <-> In x l.
Proof.
  split; apply Permutation_in;
    [apply Permutation_sym|]; apply Array_sort_perm.
Qed.

(** A class of elements that the comparator never puts after one
    another keeps its order. *)
Lemma insertSorted_filter (p : A -> bool) (x : A) (l : list A) :
  (p x = true -> forall y, In y l -> p y = true -> comparefn x y <= 0) ->
  filter p (insertSorted comparefn x l) = filter p (x :: l).
Proof.
  induction l as [|y l IH]; intros H.
  - reflexivity.
  - simpl insertSorted. destruct (comparefn x y <=? 0) eqn:E.
    + reflexivity.
    + apply Z.leb_gt in E.
      assert (IH' : filter p (insertSorted comparefn x l) = filter p (x :: l)).
      { apply IH. intros Hx z Hz. apply H; [assumption | now right]. }
      simpl in *. rewrite IH'.
      destruct (p x) eqn:Px; [|reflexivity].
      destruct (p y) eqn:Py; [|reflexivity].
      specialize (H eq_refl y (or_introl eq_refl) Py). lia.
Qed.

Lemma Array_sort_filter (p : A -> bool) (l : list A) :
  (forall x y, In x l -> In y l -> p x = true -> p y = true ->
               comparefn x y <= 0) ->
  filter p (Array_sort comparefn l) = filter p l.
Proof.
  induction l as [|x l IH]; intros H.
  - reflexivity.
  - simpl Array_sort. rewrite insertSorted_filter.
    + simpl. rewrite IH; [reflexivity|].
      intros a b Ha Hb. apply H; now right.
    + intros Px y Hy Py. apply (proj1 (Array_sort_In y l)) in Hy.
      apply H; [now left | now right | assumption | assumption].
Qed.

(** An array that is already in order is left as it is. *)
Lemma Array_sort_sorted (l : list A) :
  StronglySorted (fun x y => comparefn x y <= 0) l ->
  Array_sort comparefn l = l.
Proof.
  induction 1 as [|x l Hl IH Hx]; simpl.
  - reflexivity.
  - rewrite IH. destruct l as [|y l]; [reflexivity|].
    simpl. inversion Hx as [|? ? Hxy _]; subst.
    apply Z.leb_le in Hxy. now rewrite Hxy.
Qed.

(** On a domain where the comparator is total and transitive the
    result is in order. *)
Section Consistent.
Variable D : A -> Prop.
Hypothesis total :
  forall x y, D x -> D y -> comparefn x y <= 0 \/ comparefn y x <= 0.
Hypothesis trans :
  forall x y z, D x -> D y -> D z ->
    comparefn x y <= 0 -> comparefn y z <= 0 -> comparefn x z <= 0.

Lemma insertSorted_StronglySorted (x : A) (l : list A) :
  D x -> Forall D l ->
  StronglySorted (fun x y => comparefn x y <= 0) l ->
  StronglySorted (fun x y => comparefn x y <= 0)
                 (insertSorted comparefn x l).
Proof.
  intros Dx Dl Hs. induction Hs as [|y l Hl IH Hy]; simpl.
  - constructor; constructor.
  - inversion Dl as [|? ? Dy Dl']; subst.
    destruct (comparefn x y <=? 0) eqn:E.
    + apply Z.leb_le in E. constructor.
      * now constructor.
      * constructor; [assumption|].
        rewrite Forall_forall in *. intros z Hz.
        apply (trans x y z); auto.
    + apply Z.leb_gt in E. constructor.
      * now apply IH.
      * rewrite Forall_forall in *. intros z Hz.
        apply (Permutation_in _ (Permutation_sym (insertSorted_perm x l)))
          in Hz.
        destruct Hz as [<-|Hz]; [|now apply Hy].
        destruct (total x y Dx Dy); [lia | assumption].
Qed.

Lemma Array_sort_StronglySorted (l : list A) :
  Forall D l ->
  StronglySorted (fun x y => comparefn x y <= 0) (Array_sort comparefn l).
Proof.
  induction 1 as [|x l Dx Dl IH]; simpl.
  - constructor.
  - apply insertSorted_StronglySorted; auto.
    rewrite Forall_forall in *. intros y Hy.
    apply Dl. now apply (proj1 (Array_sort_In y l)).
Qed.
End Consistent.

(** Two arrangements that are both in order and both keep every class
    of ties in the same sequence are the same arrangement. *)
Section Unique.
Variable D : A -> Prop.
Hypothesis refl : forall x, D x -> comparefn x x = 0.
Hypothesis sym : forall x y, D x -> D y ->
  comparefn x y = 0 -> comparefn y x = 0.
Hypothesis antisym : forall x y, D x -> D y ->
  comparefn x y <= 0 -> comparefn y x <= 0 -> comparefn x y = 0.

Lemma tie_refl (x : A) : D x -> tiedBy comparefn x x = true.
Proof. intros Dx. unfold tiedBy. now rewrite (refl x Dx). Qed.

Lemma tie_sym (x y : A) : D x -> D y -> tiedBy comparefn x y = tiedBy comparefn y x.
Proof.
  intros Dx Dy. unfold tiedBy.
  destruct (comparefn x y =? 0) eqn:E1, (comparefn y x =? 0) eqn:E2;
    try reflexivity.
  - apply Z.eqb_eq in E1. apply (sym x y Dx Dy) in E1.
    apply Z.eqb_neq in E2. lia.
  - apply Z.eqb_eq in E2. apply (sym y x Dy Dx) in E2.
    apply Z.eqb_neq in E1. lia.
Qed.

Lemma sorted_stable_unique (l1 l2 : list A) :
  Forall D l1 -> Forall D l2 ->
  StronglySorted (fun x y => comparefn x y <= 0) l1 ->
  StronglySorted (fun x y => comparefn x y <= 0) l2 ->
  (forall x, D x -> filter (tiedBy comparefn x) l1 = filter (tiedBy comparefn x) l2) ->
  l1 = l2.
Proof.
  revert l2. induction l1 as [|x t1 IH]; intros l2 D1 D2 S1 S2 H.
  - destruct l2 as [|y t2]; [reflexivity|].
    inversion D2 as [|? ? Dy _]; subst.
    specialize (H y Dy). simpl in H.
    rewrite (tie_refl y Dy) in H. discriminate.
  - inversion D1 as [|? ? Dx D1']; subst.
    destruct l2 as [|y t2].
    + specialize (H x Dx). simpl in H.
      rewrite (tie_refl x Dx) in H. discriminate.
    + inversion D2 as [|? ? Dy D2']; subst.
      inversion S1 as [|? ? S1' Hx]; subst.
      inversion S2 as [|? ? S2' Hy]; subst.
      assert (Txy : tiedBy comparefn x y = true).
      { destruct (tiedBy comparefn x y) eqn:Txy; [reflexivity|exfalso].
        assert (Tyx : tiedBy comparefn y x = false)
          by (now rewrite <- (tie_sym x y Dx Dy)).
        pose proof (H x Dx) as Hxx. pose proof (H y Dy) as Hyy.
        simpl in Hxx, Hyy.
        rewrite Txy, (tie_refl x Dx) in Hxx.
        rewrite Tyx, (tie_refl y Dy) in Hyy.
        assert (Ix : In x t2).
        { apply (proj1 (filter_In (tiedBy comparefn x) x t2)).
          rewrite <- Hxx. now left. }
        assert (Iy : In y t1).
        { apply (proj1 (filter_In (tiedBy comparefn y) y t1)).
          rewrite Hyy. now left. }
        rewrite Forall_forall in Hx, Hy.
        pose proof (antisym x y Dx Dy (Hx y Iy) (Hy x Ix)) as E.
        unfold tiedBy in Txy. apply Z.eqb_neq in Txy. lia. }
      assert (x = y).
      { pose proof (H x Dx) as Hxx. simpl in Hxx.
        rewrite Txy, (tie_refl x Dx) in Hxx. congruence. }
      subst y. f_equal. apply IH; auto.
      intros z Dz. specialize (H z Dz). simpl in H.
      destruct (tiedBy comparefn z x); congruence.
Qed.
End Unique.
End ArraySort.

(* ------------------------------------------------------------------ *)
(** ** The comparator of the sort engine *)

Lemma string_ltb_irrefl (s : string) : String.ltb s s = false.
Proof.
  unfold String.ltb. pose proof (String.compare_antisym s s) as H.
  destruct (String.compare s s); simpl in H; congruence.
Qed.

Lemma string_ltb_asym (s t : string) :
  String.ltb s t = true -> String.ltb t s = false.
Proof.
  unfold String.ltb. rewrite (String.compare_antisym s t).
  destruct (String.compare t s); simpl; congruence.
Qed.

Lemma string_ltb_trans (a b c : string) :
  String.ltb a b = true -> String.ltb b c = true -> String.ltb a c = true.
Proof.
  unfold String.ltb. intros H1 H2.
  assert (L1 : String.compare a b = Lt)
    by (destruct (String.compare a b); congruence).
  assert (L2 : String.compare b c = Lt)
    by (destruct (String.compare b c); congruence).
  apply OrderedTypeEx.String_as_OT.cmp_lt in L1, L2.
  pose proof (OrderedTypeEx.String_as_OT.lt_trans _ _ _ L1 L2) as L.
  apply OrderedTypeEx.String_as_OT.cmp_lt in L.
  unfold OrderedTypeEx.String_as_OT.cmp in L. now rewrite L.
Qed.

(** Not-greater is transitive on strings. *)
Lemma string_nlt_trans (a b c : string) :
  String.ltb b a = false -> String.ltb c b = false -> String.ltb c a = false.
Proof.
  intros H1 H2. destruct (String.ltb c a) eqn:Hca; [exfalso|reflexivity].
  destruct (String.compare a b) eqn:Eab.
  - apply String.compare_eq_iff in Eab. subst. congruence.
  - assert (Lab : String.ltb a b = true) by (unfold String.ltb; now rewrite Eab).
    rewrite (string_ltb_trans c a b Hca Lab) in H2. discriminate.
  - unfold String.ltb in H1. rewrite (String.compare_antisym b a), Eab in H1.
    discriminate.
Qed.

Lemma js_lt_irrefl (v : Value) : js_lt v v = false.
Proof.
  destruct v; simpl; [apply Z.ltb_irrefl | apply string_ltb_irrefl].
Qed.

Lemma js_lt_asym (v w : Value) : js_lt v w = true -> js_lt w v = false.
Proof.
  destruct v, w; simpl; try congruence.
  - intros H. apply Z.ltb_lt in H. apply Z.ltb_ge. lia.
  - apply string_ltb_asym.
Qed.

Lemma js_nlt_trans (a b c : Value) :
  isNum a = isNum b -> isNum b = isNum c ->
  js_lt b a = false -> js_lt c b = false -> js_lt c a = false.
Proof.
  destruct a, b, c; simpl; try congruence; intros _ _.
  - rewrite !Z.ltb_ge. lia.
  - apply string_nlt_trans.
Qed.

Lemma Value_eqb_eq (a b : Value) : Value_eqb a b = true <-> a = b.
Proof.
  destruct a, b; simpl; try (split; congruence).
  - rewrite Z.eqb_eq. split; congruence.
  - rewrite String.eqb_eq. split; congruence.
Qed.

(** The comparator answers "not after" exactly when the second value is
    not on the wrong side of the first. *)
Lemma compareFn_le (d : Direction) (a b : Decorated) :
  compareFn d a b <= 0 <->
  match d with
  | asc => js_lt (compareValue b) (compareValue a) = false
  | desc => js_lt (compareValue a) (compareValue b) = false
  end.
Proof.
  unfold compareFn, js_gt.
  destruct (js_lt (compareValue a) (compareValue b)) eqn:Hab.
  - apply js_lt_asym in Hab. rewrite Hab. destruct d; split; (lia || congruence).
  - destruct (js_lt (compareValue b) (compareValue a)), d;
      split; (lia || congruence).
Qed.

Lemma compareFn_zero (d : Direction) (a b : Decorated) :
  compareFn d a b = 0 <->
  js_lt (compareValue a) (compareValue b) = false /\
  js_lt (compareValue b) (compareValue a) = false.
Proof.
  unfold compareFn, js_gt.
  destruct (js_lt (compareValue a) (compareValue b)),
           (js_lt (compareValue b) (compareValue a)), d;
    split; (lia || (intros [? ?]; congruence) || (split; congruence)).
Qed.

Lemma compareFn_ties (d : Direction) (a b : Decorated) :
  compareValue a = compareValue b -> compareFn d a b = 0.
Proof.
  intros H. apply compareFn_zero. rewrite H. split; apply js_lt_irrefl.
Qed.

Lemma decorate_ofColumn (c : Column) (records : list Customer) :
  Forall (ofColumn c) (map (decorate c) records).
Proof.
  apply Forall_forall. intros d Hd. apply in_map_iff in Hd.
  destruct Hd as [x [<- _]]. now destruct c.
Qed.

Lemma compareFn_total (d : Direction) (a b : Decorated) :
  compareFn d a b <= 0 \/ compareFn d b a <= 0.
Proof.
  rewrite !compareFn_le.
  destruct (js_lt (compareValue a) (compareValue b)) eqn:Hab.
  - apply js_lt_asym in Hab. destruct d; auto.
  - destruct d; auto.
Qed.

Lemma compareFn_trans (c : Column) (d : Direction) (x y z : Decorated) :
  ofColumn c x -> ofColumn c y -> ofColumn c z ->
  compareFn d x y <= 0 -> compareFn d y z <= 0 -> compareFn d x z <= 0.
Proof.
  unfold ofColumn. intros Hx Hy Hz. rewrite !compareFn_le. destruct d.
  - intros H1 H2.
    apply (js_nlt_trans (compareValue x) (compareValue y) (compareValue z));
      congruence.
  - intros H1 H2.
    apply (js_nlt_trans (compareValue z) (compareValue y) (compareValue x));
      congruence.
Qed.

(** The model of the built-in sort is forced: on the decorated array
    of one column, every arrangement that is in comparator order and
    keeps the ties in their original sequence is the one [Array_sort]
    computes. *)
Lemma Array_sort_unique (c : Column) (d : Direction)
  (records : list Customer) (arranged : list Decorated) :
  let decorated := map (decorate c) records in
  Forall (ofColumn c) arranged ->
  StronglySorted (fun x y => compareFn d x y <= 0) arranged ->
  (forall x, ofColumn c x ->
             filter (tiedBy (compareFn d) x) arranged
             = filter (tiedBy (compareFn d) x) decorated) ->
  arranged = Array_sort (compareFn d) decorated.
Proof.
  intros decorated Hdom Hsorted Hstable.
  pose proof (decorate_ofColumn c records) as Hdec.
  apply (sorted_stable_unique (compareFn d) (ofColumn c)).
  - intros x _. apply compareFn_ties. reflexivity.
  - intros x y _ _ H. apply compareFn_zero in H. apply compareFn_zero. tauto.
  - intros x y _ _ H1 H2. apply compareFn_le in H1, H2.
    apply compareFn_zero. destruct d; tauto.
  - assumption.
  - rewrite Forall_forall in *. intros y Hy. apply Hdec.
    now apply (proj1 (Array_sort_In (compareFn d) y decorated)).
  - assumption.
  - apply (Array_sort_StronglySorted (compareFn d) (ofColumn c)).
    + intros x y _ _. apply compareFn_total.
    + apply compareFn_trans.
    + assumption.
  - intros x Dx. rewrite (Hstable x Dx). symmetry. apply Array_sort_filter.
    intros a b Ia Ib Ha Hb. unfold tiedBy in Ha, Hb.
    apply Z.eqb_eq in Ha, Hb. apply compareFn_zero in Ha, Hb.
    rewrite Forall_forall in Hdec.
    pose proof (Hdec a Ia) as Da. pose proof (Hdec b Ib) as Db.
    unfold ofColumn in *. apply compareFn_le. destruct d.
    + apply (js_nlt_trans (compareValue a) (compareValue x) (compareValue b));
        (congruence || tauto).
    + apply (js_nlt_trans (compareValue b) (compareValue x) (compareValue a));
        (congruence || tauto).
Qed.

(* ------------------------------------------------------------------ *)
(** ** The sort engine *)

Lemma undecorate_decorate (c : Column) (records : list Customer) :
  map customer (map (decorate c) records) = records.
Proof.
  rewrite map_map. simpl. apply map_id.
Qed.

Lemma sortRecords_perm (cfg : SortConfig) (records : list Customer) :
  Permutation records (sortRecords cfg records).
Proof.
  unfold sortRecords.
  rewrite <- (undecorate_decorate (column cfg) records) at 1.
  apply Permutation_map, Array_sort_perm.
Qed.

Lemma sortRecords_stable (cfg : SortConfig) (records : list Customer)
  (k : Value) :
  filter (fun c => Value_eqb (sortKey (column cfg) c) k)
         (sortRecords cfg records)
  = filter (fun c => Value_eqb (sortKey (column cfg) c) k) records.
Proof.
  unfold sortRecords.
  rewrite filter_map_swap, Array_sort_filter.
  - rewrite <- (filter_map_swap
                   (fun c => Value_eqb (sortKey (column cfg) c) k) customer).
    now rewrite undecorate_decorate.
  - intros a b Ia Ib Ha Hb.
    apply in_map_iff in Ia, Ib.
    destruct Ia as [x [<- _]], Ib as [y [<- _]].
    apply Value_eqb_eq in Ha, Hb. simpl in Ha, Hb.
    unfold sortKey in Ha, Hb.
    rewrite compareFn_ties; [lia | congruence].
Qed.

(** C5: the sort engine allocates a new array and leaves the view as it
    was; the new array is a permutation of the view; and for every
    comparison value, the records carrying that value on the active
    column appear in the output in the order they had in the view. *)
Theorem sort_is_a_stable_permutation
  (m : Heap) (view : ArrayRef) (cfg : SortConfig) :
  (view < List.length m)%nat ->
  let out := sortedCustomers view cfg m in
  fst out <> view /\
  deref (snd out) view = deref m view /\
  Permutation (deref m view) (deref (snd out) (fst out)) /\
  forall k : Value,
    filter (fun c => Value_eqb (sortKey (column cfg) c) k)
           (deref (snd out) (fst out))
    = filter (fun c => Value_eqb (sortKey (column cfg) c) k) (deref m view).
Proof.
  intros Hview out. subst out. unfold sortedCustomers.
  destruct (deref_alloc_other (sortRecords cfg (deref m view)) m view Hview)
    as [Hsame Hfresh].
  rewrite deref_alloc.
  repeat split.
  - assumption.
  - assumption.
  - apply sortRecords_perm.
  - intros k. apply sortRecords_stable.
Qed.

Lemma sort_is_a_stable_permutation_witness :
  (0 < List.length [sampleView])%nat /\
  (let out := sortedCustomers 0%nat (mkSortConfig col_name desc)
                [sampleView] in
   fst out <> 0%nat /\
   deref (snd out) 0%nat = deref [sampleView] 0%nat /\
   Permutation (deref [sampleView] 0%nat) (deref (snd out) (fst out)) /\
   forall k : Value,
     filter (fun c => Value_eqb (sortKey col_name c) k)
            (deref (snd out) (fst out))
     = filter (fun c => Value_eqb (sortKey col_name c) k)
              (deref [sampleView] 0%nat)).
Proof.
  assert (H : (0 < List.length [sampleView])%nat) by (simpl; lia).
  split; [exact H|].
  exact (sort_is_a_stable_permutation [sampleView] 0%nat
           (mkSortConfig col_name desc) H).
Defined.

(* ------------------------------------------------------------------ *)
(** ** Ranges *)

Lemma iota_length (lo : Z) (n : nat) : List.length (iota lo n) = n.
Proof.
  revert lo; induction n; intros; simpl; [reflexivity | now rewrite IHn].
Qed.

Lemma iota_app (lo : Z) (n k : nat) :
  iota lo (n + k) = iota lo n ++ iota (lo + Z.of_nat n) k.
Proof.
  revert lo; induction n as [|n IH]; intros lo.
  - simpl. now rewrite Z.add_0_r.
  - cbn [Nat.add iota app]. rewrite IH.
    now replace (lo + Z.of_nat (S n)) with (lo + 1 + Z.of_nat n) by lia.
Qed.

Lemma iota_In (x lo : Z) (n : nat) :
  In x (iota lo n) <-> lo <= x < lo + Z.of_nat n.
Proof.
  revert lo; induction n as [|n IH]; intros lo.
  - simpl. lia.
  - cbn [iota In]. rewrite IH. lia.
Qed.

Lemma iota_sorted (lo : Z) (n : nat) : StronglySorted Z.lt (iota lo n).
Proof.
  revert lo; induction n as [|n IH]; intros lo; simpl; constructor.
  - apply IH.
  - apply Forall_forall. intros x Hx. apply iota_In in Hx. lia.
Qed.

Lemma iota_NoDup (lo : Z) (n : nat) : NoDup (iota lo n).
Proof.
  revert lo; induction n as [|n IH]; intros lo; simpl; constructor.
  - rewrite iota_In. lia.
  - apply IH.
Qed.

Lemma upto_empty (a b : Z) : b < a -> upto a b = [].
Proof.
  intros H. unfold upto. now replace (Z.to_nat (b - a + 1)) with O by lia.
Qed.

Lemma upto_length (a b : Z) :
  a <= b + 1 -> Z.of_nat (List.length (upto a b)) = b - a + 1.
Proof.
  intros H. unfold upto. rewrite iota_length. lia.
Qed.

Lemma upto_app (a b c : Z) :
  a <= b + 1 -> b <= c -> upto a b ++ upto (b + 1) c = upto a c.
Proof.
  intros H1 H2. unfold upto.
  replace (Z.to_nat (c - a + 1))
    with (Z.to_nat (b - a + 1) + Z.to_nat (c - (b + 1) + 1))%nat by lia.
  rewrite iota_app. do 2 f_equal. lia.
Qed.

Lemma upto_snoc (a b : Z) : a <= b -> upto a b = upto a (b - 1) ++ [b].
Proof.
  intros H. rewrite <- (upto_app a (b - 1) b) by lia. f_equal.
  unfold upto. replace (Z.to_nat (b - (b - 1 + 1) + 1)) with 1%nat by lia.
  simpl. f_equal. lia.
Qed.

Lemma upto_last (a b : Z) : a <= b -> last (upto a b) 0 = b.
Proof.
  intros H. rewrite upto_snoc by assumption. apply last_last.
Qed.

Lemma upto_In (x a b : Z) : In x (upto a b) <-> a <= x <= b.
Proof.
  unfold upto. rewrite iota_In. lia.
Qed.

Lemma map_shift_upto (d a b : Z) :
  map (fun i => d + i + 1) (upto a b) = upto (d + a + 1) (d + b + 1).
Proof.
  unfold upto. replace (d + b + 1 - (d + a + 1) + 1) with (b - a + 1) by lia.
  generalize (Z.to_nat (b - a + 1)) as n. intros n. revert a.
  induction n as [|n IH]; intros a; simpl; [reflexivity|].
  rewrite IH. do 2 f_equal. lia.
Qed.

(* ------------------------------------------------------------------ *)
(** ** The record generator and the batch loops *)

Lemma generateCustomer_id (h : Host) (i : Z) (k : nat) :
  id (fst (generateCustomer h i k)) = i.
Proof. reflexivity. Qed.

Lemma forEach_cons {C A : Type} (i : Z) (xs : list Z)
  (body : Z -> A -> Run C A) (acc : A) (s : C * nat) :
  forEach (i :: xs) body acc s
  = forEach xs body (fst (body i acc s)) (snd (body i acc s)).
Proof. reflexivity. Qed.

Lemma forEach_app {C A : Type} (xs ys : list Z)
  (body : Z -> A -> Run C A) (acc : A) (s : C * nat) :
  forEach (xs ++ ys) body acc s
  = forEach ys body (fst (forEach xs body acc s))
                    (snd (forEach xs body acc s)).
Proof.
  revert acc s; induction xs as [|i xs IH]; intros acc s.
  - reflexivity.
  - simpl app. rewrite !forEach_cons. apply IH.
Qed.

(** A batch carries the identifiers it was asked for and does not touch
    the consumer. *)
Lemma generateBatch_acc {C : Type} (h : Host) (ids : list Z)
  (acc : list Customer) (s : C * nat) :
  let r := forEach ids
             (fun i (batchCustomers : list Customer) =>
                customer <- liftGen (generateCustomer h i) ;;
                ret (batchCustomers ++ [customer])) acc s in
  map id (fst r) = map id acc ++ ids /\ fst (snd r) = fst s.
Proof.
  revert acc s; induction ids as [|i ids IH]; intros acc s.
  - simpl. now rewrite app_nil_r.
  - rewrite forEach_cons. cbv zeta in IH |- *.
    match goal with
    | |- context [forEach ids ?b ?a ?t] => destruct (IH a t) as [H1 H2]
    end.
    rewrite H1, H2. split.
    + cbn. rewrite map_app, <- app_assoc. reflexivity.
    + reflexivity.
Qed.

Lemma generateBatch_spec {C : Type} (h : Host) (ids : list Z) (s : C * nat) :
  map id (fst (V2.generateBatch h ids s)) = ids /\
  fst (snd (V2.generateBatch h ids s)) = fst s.
Proof.
  exact (generateBatch_acc h ids [] s).
Qed.

Lemma windowSizes_zero (B : Z) : windowSizes B 0 = [].
Proof.
  unfold windowSizes. rewrite Zdiv_0_l, Zmod_0_l. reflexivity.
Qed.

Lemma windowSizes_step (B n : Z) :
  0 < B -> 1 <= n ->
  windowSizes B n = Z.min B n :: windowSizes B (Z.max 0 (n - B)).
Proof.
  intros HB Hn. destruct (Z_lt_le_dec n B) as [Hlt|Hge].
  - rewrite Z.min_r, Z.max_l, windowSizes_zero by lia.
    unfold windowSizes. rewrite Z.div_small, Z.mod_small by lia.
    simpl. destruct (n =? 0) eqn:E; [apply Z.eqb_eq in E; lia | reflexivity].
  - rewrite Z.min_l, Z.max_r by lia. unfold windowSizes.
    assert (Hq : n / B = (n - B) / B + 1).
    { replace n with ((n - B) + 1 * B) at 1 by lia. apply Z.div_add. lia. }
    assert (Hr : n mod B = (n - B) mod B).
    { replace n with ((n - B) + 1 * B) at 1 by lia. apply Z.mod_add. lia. }
    rewrite Hq, Hr.
    replace (Z.to_nat ((n - B) / B + 1)) with (S (Z.to_nat ((n - B) / B))).
    + reflexivity.
    + assert (0 <= (n - B) / B) by (apply Z.div_pos; lia). lia.
Qed.

Lemma V2_generateLoop_exit {C : Type} (fuel : nat) (h : Host) (B count : Z)
  (oP : option (Z -> Z -> C -> C)) (oB : option (list Customer -> C -> C))
  (start : Z) (all : list Customer) (s : C * nat) :
  count < start ->
  V2.generateLoop fuel h B count oP oB start all s = (Some all, s).
Proof.
  intros H. apply Z.leb_gt in H.
  destruct fuel; cbn [V2.generateLoop]; rewrite H; reflexivity.
Qed.

Lemma V2_generateLoop_step {C : Type} (fuel : nat) (h : Host) (B count : Z)
  (oP : option (Z -> Z -> C -> C)) (oB : option (list Customer -> C -> C))
  (start : Z) (all : list Customer) (s : C * nat) :
  start <= count ->
  V2.generateLoop (S fuel) h B count oP oB start all s =
  let batchEnd := Z.min (start + B - 1) count in
  let r := V2.generateBatch h (upto start batchEnd) s in
  V2.generateLoop fuel h B count oP oB (start + B) (all ++ fst r)
    (snd (callBatch oB (fst r) (snd (callProgress oP batchEnd count (snd r))))).
Proof.
  intros H. apply Z.leb_le in H.
  cbn [V2.generateLoop]. rewrite H. reflexivity.
Qed.

(** What the in-memory loop does from [start] on, seen through the
    recording callbacks. *)
Lemma V2_generateLoop_spec (h : Host) (B count : Z) :
  0 < B ->
  forall (fuel : nat) (start : Z) (all : list Customer)
         (s : list Event * nat),
    Z.max 0 (count - start + 1) <= Z.of_nat fuel ->
    exists batches : list (list Customer),
      fst (V2.generateLoop fuel h B count recordProgress recordBatch
             start all s) = Some (all ++ List.concat batches) /\
      fst (snd (V2.generateLoop fuel h B count recordProgress recordBatch
                  start all s)) = fst s ++ batchEvents count batches /\
      List.concat (map (map id) batches) = upto start count /\
      map (fun b => Z.of_nat (List.length b)) batches
      = windowSizes B (Z.max 0 (count - start + 1)) /\
      Forall (fun e => start <= e <= count)
             (map (fun b => last (map id b) 0) batches) /\
      StronglySorted Z.lt (map (fun b => last (map id b) 0) batches) /\
      (start <= count ->
       last (map (fun b => last (map id b) 0) batches) 0 = count).
Proof.
  intros HB. induction fuel as [|fuel IH]; intros start all s Hfuel.
  - assert (count < start) by lia.
    rewrite V2_generateLoop_exit by assumption.
    exists []. simpl. rewrite !app_nil_r, upto_empty by lia.
    rewrite Z.max_l, windowSizes_zero by lia.
    repeat split; (constructor || lia || auto).
  - destruct (Z_lt_le_dec count start) as [Hout|Hin].
    + rewrite V2_generateLoop_exit by assumption.
      exists []. simpl. rewrite !app_nil_r, upto_empty by lia.
      rewrite Z.max_l, windowSizes_zero by lia.
      repeat split; (constructor || lia || auto).
    + rewrite V2_generateLoop_step by assumption. cbv zeta.
      set (batchEnd := Z.min (start + B - 1) count).
      destruct (generateBatch_spec h (upto start batchEnd) s) as [Hids Hcons].
      set (r := V2.generateBatch h (upto start batchEnd) s) in *.
      set (s' := snd (callBatch recordBatch (fst r)
                   (snd (callProgress recordProgress batchEnd count (snd r))))).
      destruct (IH (start + B) (all ++ fst r) s')
        as [bs [H1 [H2 [H3 [H4 [H5 [H6 H7]]]]]]].
      { lia. }
      assert (Hend : last (map id (fst r)) 0 = batchEnd)
        by (rewrite Hids; apply upto_last; subst batchEnd; lia).
      exists (fst r :: bs). rewrite H1, H2.
      split; [|split; [|split; [|split; [|split; [|split]]]]].
      * simpl. now rewrite <- app_assoc.
      * subst s'. cbn. rewrite Hcons. unfold batchEvents. cbn [flat_map].
        rewrite Hend. rewrite <- !app_assoc. reflexivity.
      * cbn [map List.concat]. rewrite Hids, H3.
        subst batchEnd. destruct (Z_lt_le_dec count (start + B - 1)).
        -- rewrite Z.min_r by lia. rewrite (upto_empty (start + B)) by lia.
           apply app_nil_r.
        -- rewrite Z.min_l by lia.
           rewrite <- (upto_app start (start + B - 1) count) by lia.
           now replace (start + B - 1 + 1) with (start + B) by lia.
      * cbn [map]. rewrite H4.
        rewrite (Z.max_r 0 (count - start + 1)) by lia.
        rewrite (windowSizes_step B (count - start + 1)) by lia.
        f_equal.
        -- rewrite <- (length_map id), Hids, upto_length by (subst batchEnd; lia).
           subst batchEnd. lia.
        -- f_equal. lia.
      * cbn [map]. rewrite Hend. constructor; [subst batchEnd; lia|].
        eapply Forall_impl; [|exact H5]. simpl. lia.
      * cbn [map]. rewrite Hend. constructor; [assumption|].
        eapply Forall_impl; [|exact H5]. simpl. subst batchEnd. lia.
      * intros _. cbn [map]. rewrite Hend.
        destruct (Z_lt_le_dec count (start + B)) as [Hlast|Hmore].
        -- assert (bs = []).
           { destruct bs as [|b bs]; [reflexivity|].
             inversion H5; subst. lia. }
           subst bs. simpl. subst batchEnd. lia.
        -- specialize (H7 Hmore).
           destruct (map (fun b => last (map id b) 0) bs) eqn:E.
           ++ destruct bs; [|discriminate]. simpl in H3.
              symmetry in H3. apply (f_equal (@List.length Z)) in H3.
              apply (f_equal Z.of_nat) in H3.
              rewrite upto_length in H3 by lia. simpl in H3. lia.
           ++ exact H7.
Qed.

(* ------------------------------------------------------------------ *)
(** ** The population loop (second revision) *)

Lemma lt_quotient_pos (batch total size : Z) :
  0 < size -> lt_quotient batch total size = (batch * size <? total).
Proof.
  intros H. unfold lt_quotient. apply Z.ltb_lt in H. now rewrite H.
Qed.

(** The number of windows of [size] needed to cover [total]. *)
Lemma lt_quotient_ceiling (batch total size : Z) :
  0 < size ->
  (batch * size < total <-> batch < (total + size - 1) / size).
Proof.
  intros H.
  pose proof (Z.div_mod (total + size - 1) size ltac:(lia)) as E.
  pose proof (Z.mod_pos_bound (total + size - 1) size H) as R.
  split; intros L; nia.
Qed.

Lemma ceiling_le_total (total size : Z) :
  0 < size -> (total + size - 1) / size <= Z.max 0 total.
Proof.
  intros H.
  pose proof (Z.div_mod (total + size - 1) size ltac:(lia)) as E.
  pose proof (Z.mod_pos_bound (total + size - 1) size H) as R.
  nia.
Qed.

Lemma V2_populateLoop_exit {C : Type} (fuel : nat) (h : Host)
  (db : IDBDatabase) (N B : Z)
  (oP : option (Z -> Z -> C -> C)) (oB : option (list Customer -> C -> C))
  (batch processed : Z) (s : C * nat) :
  lt_quotient batch N B = false ->
  V2.populateLoop fuel h db N B oP oB batch processed s
  = (Some (Resolved tt), s).
Proof.
  intros H. destruct fuel; cbn [V2.populateLoop]; rewrite H; reflexivity.
Qed.

Lemma V2_populateLoop_commit {C : Type} (fuel : nat) (h : Host)
  (db : IDBDatabase) (N B : Z)
  (oP : option (Z -> Z -> C -> C)) (oB : option (list Customer -> C -> C))
  (batch processed : Z) (s : C * nat) :
  lt_quotient batch N B = true ->
  writeTx db batch = TxComplete ->
  V2.populateLoop (S fuel) h db N B oP oB batch processed s =
  let r := V2.generateBatch h
             (map (fun i => batch * B + i + 1) (upto 0 (B - 1))) s in
  V2.populateLoop fuel h db N B oP oB (batch + 1) (processed + B)
    (snd (callBatch oB (fst r)
            (snd (callProgress oP (processed + B) N (snd r))))).
Proof.
  intros H Htx. cbn [V2.populateLoop]. rewrite H.
  unfold bind at 1. cbv zeta. rewrite Htx. reflexivity.
Qed.

Lemma V2_populateLoop_spec (h : Host) (db : IDBDatabase) (N B : Z) :
  0 < B ->
  (forall b, writeTx db b = TxComplete) ->
  forall (fuel : nat) (batch : Z) (s : list Event * nat),
    Z.max 0 ((N + B - 1) / B - batch) <= Z.of_nat fuel ->
    exists batches : list (list Customer),
      fst (V2.populateLoop fuel h db N B recordProgress recordBatch
             batch (batch * B) s) = Some (Resolved tt) /\
      fst (snd (V2.populateLoop fuel h db N B recordProgress recordBatch
                  batch (batch * B) s)) = fst s ++ batchEvents N batches /\
      List.concat (map (map id) batches)
      = upto (batch * B + 1) ((N + B - 1) / B * B) /\
      map (fun b => Z.of_nat (List.length b)) batches
      = repeat B (Z.to_nat ((N + B - 1) / B - batch)) /\
      map (fun b => last (map id b) 0) batches
      = map (fun j => j * B) (upto (batch + 1) ((N + B - 1) / B)).
Proof.
  intros HB Hdb. set (c := (N + B - 1) / B).
  assert (Hexit : forall fuel batch s, c <= batch ->
    exists batches : list (list Customer),
      fst (V2.populateLoop fuel h db N B recordProgress recordBatch
             batch (batch * B) s) = Some (Resolved tt) /\
      fst (snd (V2.populateLoop fuel h db N B recordProgress recordBatch
                  batch (batch * B) s)) = fst s ++ batchEvents N batches /\
      List.concat (map (map id) batches) = upto (batch * B + 1) (c * B) /\
      map (fun b => Z.of_nat (List.length b)) batches
      = repeat B (Z.to_nat (c - batch)) /\
      map (fun b => last (map id b) 0) batches
      = map (fun j => j * B) (upto (batch + 1) c)).
  { intros fuel batch s Hc.
    rewrite V2_populateLoop_exit.
    - exists []. simpl. rewrite app_nil_r, !upto_empty by nia.
      replace (Z.to_nat (c - batch)) with O by lia. auto.
    - rewrite lt_quotient_pos by assumption. apply Z.ltb_ge.
      pose proof (lt_quotient_ceiling batch N B HB). fold c in H. lia. }
  induction fuel as [|fuel IH]; intros batch s Hfuel.
  - apply Hexit. lia.
  - destruct (Z_le_gt_dec c batch) as [Hout|Hin].
    + now apply Hexit.
    + rewrite V2_populateLoop_commit; [|
        rewrite lt_quotient_pos by assumption; apply Z.ltb_lt;
        apply lt_quotient_ceiling; [assumption | fold c; lia] | apply Hdb ].
      cbv zeta.
      set (ids := map (fun i => batch * B + i + 1) (upto 0 (B - 1))).
      assert (Hids' : ids = upto (batch * B + 1) (batch * B + B)).
      { subst ids. rewrite map_shift_upto. f_equal; lia. }
      destruct (generateBatch_spec h ids s) as [Hids Hcons].
      set (r := V2.generateBatch h ids s) in *.
      set (s' := snd (callBatch recordBatch (fst r)
                   (snd (callProgress recordProgress (batch * B + B) N
                           (snd r))))).
      replace (batch * B + B) with ((batch + 1) * B) by lia.
      destruct (IH (batch + 1) s') as [bs [H1 [H2 [H3 [H4 H5]]]]].
      { lia. }
      assert (Hend : last (map id (fst r)) 0 = (batch + 1) * B)
        by (rewrite Hids, Hids', upto_last; lia).
      exists (fst r :: bs). rewrite H1, H2.
      split; [|split; [|split; [|split]]].
      * reflexivity.
      * subst s'. cbn. rewrite Hcons. unfold batchEvents. cbn [flat_map].
        rewrite Hend. replace (batch * B + B) with ((batch + 1) * B) by lia.
        rewrite <- !app_assoc. reflexivity.
      * cbn [map List.concat]. rewrite Hids, H3, Hids'.
        replace ((batch + 1) * B + 1) with (batch * B + B + 1) by lia.
        apply upto_app; nia.
      * cbn [map]. rewrite H4.
        replace (Z.to_nat (c - batch)) with (S (Z.to_nat (c - (batch + 1))))
          by lia.
        cbn [repeat]. f_equal.
        rewrite <- (length_map id), Hids, Hids', upto_length by lia. lia.
      * cbn [map]. rewrite Hend, H5.
        rewrite <- (upto_app (batch + 1) (batch + 1) c) by lia.
        rewrite map_app. f_equal.
        unfold upto. replace (Z.to_nat (batch + 1 - (batch + 1) + 1))
          with 1%nat by lia. reflexivity.
Qed.

(* ------------------------------------------------------------------ *)
(** ** What the callbacks receive *)

Lemma batchesOf_app (l1 l2 : list Event) :
  batchesOf (l1 ++ l2) = batchesOf l1 ++ batchesOf l2.
Proof.
  induction l1 as [|[p t|b] l1 IH]; simpl; [reflexivity | assumption |].
  now rewrite IH.
Qed.

Lemma progressOf_app (l1 l2 : list Event) :
  progressOf (l1 ++ l2) = progressOf l1 ++ progressOf l2.
Proof.
  induction l1 as [|[p t|b] l1 IH]; simpl; [reflexivity | | assumption].
  now rewrite IH.
Qed.

Lemma batchesOf_batchEvents (total : Z) (batches : list (list Customer)) :
  batchesOf (batchEvents total batches) = batches.
Proof.
  induction batches as [|b bs IH]; simpl; [reflexivity | now rewrite IH].
Qed.

Lemma progressOf_batchEvents (total : Z) (batches : list (list Customer)) :
  progressOf (batchEvents total batches)
  = map (fun b => (last (map id b) 0, total)) batches.
Proof.
  induction batches as [|b bs IH]; simpl; [reflexivity | now rewrite IH].
Qed.

Lemma sum_lengths_concat (batches : list (list Customer)) :
  fold_right Z.add 0 (map (fun b => Z.of_nat (List.length b)) batches)
  = Z.of_nat (List.length (List.concat (map (map id) batches))).
Proof.
  induction batches as [|b bs IH]; simpl; [reflexivity|].
  rewrite IH, length_app, length_map. lia.
Qed.

Lemma windowSizes_divides (B N : Z) :
  0 < B -> (B | N) -> windowSizes B N = repeat B (Z.to_nat (N / B)).
Proof.
  intros HB Hd. unfold windowSizes.
  apply Z.mod_divide in Hd; [|lia]. rewrite Hd. simpl. apply app_nil_r.
Qed.

(** Identifiers 1..N in order with the window sizes of [B] is all that
    C1 asks. *)
Lemma deliversExactlyOnce_intro (N B : Z) (batches : list (list Customer)) :
  0 <= N ->
  List.concat (map (map id) batches) = upto 1 N ->
  map (fun b => Z.of_nat (List.length b)) batches = windowSizes B N ->
  deliversExactlyOnce N B batches.
Proof.
  intros HN Hids Hsizes. unfold deliversExactlyOnce. repeat split.
  - assumption.
  - rewrite Hids. apply iota_NoDup.
  - rewrite sum_lengths_concat, Hids, upto_length; lia.
  - assumption.
Qed.

(** The in-memory generation of the second revision cuts 1..N into
    windows of [B], the last one shorter when [B] does not divide [N]. *)
Lemma V2_generate_delivers (h : Host) (N B : Z) (k : nat) :
  0 < B -> 0 <= N ->
  exists all : list Customer,
    fst (V2.generateCustomersInMemoryWith B h N recordProgress recordBatch
           ([], k)) = Some all /\
    map id all = upto 1 N /\
    deliversExactlyOnce N B
      (batchesOf (fst (snd (V2.generateCustomersInMemoryWith B h N
                              recordProgress recordBatch ([], k))))).
Proof.
  intros HB HN. unfold V2.generateCustomersInMemoryWith.
  destruct (V2_generateLoop_spec h B N HB (Z.to_nat N) 1 [] ([], k))
    as [bs [H1 [H2 [H3 [H4 _]]]]]; [lia|].
  exists (List.concat bs). rewrite H1, H2. cbn [fst].
  rewrite !app_nil_l, batchesOf_batchEvents.
  replace (Z.max 0 (N - 1 + 1)) with N in H4 by lia.
  split; [reflexivity | split].
  - rewrite <- H3. rewrite concat_map. reflexivity.
  - now apply deliversExactlyOnce_intro.
Qed.

(** The population of the store does the same when [B] divides [N] and
    every transaction completes. *)
Lemma V2_populate_delivers (h : Host) (db : IDBDatabase) (N B : Z)
  (k : nat) :
  0 < B -> 0 <= N -> (B | N) ->
  (forall b, writeTx db b = TxComplete) ->
  fst (V2.populateDatabaseWith N B h db recordProgress recordBatch
         ([], k)) = Some (Resolved tt) /\
  deliversExactlyOnce N B
    (batchesOf (fst (snd (V2.populateDatabaseWith N B h db
                            recordProgress recordBatch ([], k))))).
Proof.
  intros HB HN Hdiv Hdb. unfold V2.populateDatabaseWith.
  assert (Hc : (N + B - 1) / B = N / B).
  { destruct Hdiv as [q ->].
    replace (q * B + B - 1) with ((B - 1) + q * B) by lia.
    rewrite Z.div_add, Z.div_small, Z.div_mul by lia. lia. }
  assert (HNB : N / B * B = N).
  { destruct Hdiv as [q ->]. now rewrite Z.div_mul by lia. }
  destruct (V2_populateLoop_spec h db N B HB Hdb (Z.to_nat N) 0 ([], k))
    as [bs [H1 [H2 [H3 [H4 _]]]]].
  { pose proof (ceiling_le_total N B HB). lia. }
  change (0 * B) with 0 in *. rewrite H1, H2. cbn [fst].
  rewrite !app_nil_l, batchesOf_batchEvents. split; [reflexivity|].
  rewrite Hc, HNB in H3. rewrite Hc, Z.sub_0_r in H4.
  apply deliversExactlyOnce_intro; [assumption | assumption |].
  now rewrite windowSizes_divides.
Qed.

(** With the constants of the source, a million records in batches of
    5000, the population hands over 200 full batches that cover
    1..1000000. *)
Lemma V2_populateDatabase_delivers (h : Host) (db : IDBDatabase) (k : nat) :
  (forall b, writeTx db b = TxComplete) ->
  fst (V2.populateDatabase h db recordProgress recordBatch ([], k))
  = Some (Resolved tt) /\
  deliversExactlyOnce 1000000 5000
    (batchesOf (fst (snd (V2.populateDatabase h db recordProgress
                            recordBatch ([], k))))).
Proof.
  intros Hdb.
  apply (V2_populate_delivers h db V2.TOTAL_RECORDS V2.BATCH_SIZE k);
    try assumption.
  - reflexivity.
  - discriminate.
  - exists 200. reflexivity.
Qed.

(** C1: for every total [N >= 0] and batch size [B >= 1] the in-memory
    generation returns and hands every identifier of 1..N to the
    batch-ready callback exactly once, without gaps, in consecutive
    windows of [B] whose sizes add up to [N], the last window shorter
    when [B] does not divide [N].  The population of the store takes
    neither a total nor a batch size: with the constants of the source,
    1,000,000 and 5,000, and its transactions completing, it resolves
    having handed every identifier of 1..1000000 to the batch-ready
    callback exactly once, in windows of 5000. *)
Theorem batches_deliver_every_identifier_once
  (h : Host) (db : IDBDatabase) (N B : Z) (k : nat) :
  0 < B -> 0 <= N ->
  (exists all : list Customer,
     fst (V2.generateCustomersInMemoryWith B h N recordProgress recordBatch
            ([], k)) = Some all /\
     map id all = upto 1 N /\
     deliversExactlyOnce N B
       (batchesOf (fst (snd (V2.generateCustomersInMemoryWith B h N
                               recordProgress recordBatch ([], k))))))
  /\
  ((forall b, writeTx db b = TxComplete) ->
     fst (V2.populateDatabase h db recordProgress recordBatch ([], k))
     = Some (Resolved tt) /\
     deliversExactlyOnce V2.TOTAL_RECORDS V2.BATCH_SIZE
       (batchesOf (fst (snd (V2.populateDatabase h db recordProgress
                               recordBatch ([], k)))))).
Proof.
  intros HB HN. split.
  - now apply V2_generate_delivers.
  - intros Hdb. now apply V2_populateDatabase_delivers.
Qed.

Lemma batches_deliver_every_identifier_once_witness :
  0 < 3 /\ 0 <= 10 /\
  (exists all : list Customer,
     fst (V2.generateCustomersInMemoryWith 3 host0 10 recordProgress
            recordBatch ([], O)) = Some all /\
     map id all = upto 1 10 /\
     deliversExactlyOnce 10 3
       (batchesOf (fst (snd (V2.generateCustomersInMemoryWith 3 host0 10
                               recordProgress recordBatch ([], O)))))) /\
  fst (V2.populateDatabase host0 db_ok recordProgress recordBatch ([], O))
  = Some (Resolved tt) /\
  deliversExactlyOnce V2.TOTAL_RECORDS V2.BATCH_SIZE
    (batchesOf (fst (snd (V2.populateDatabase host0 db_ok recordProgress
                            recordBatch ([], O))))).
Proof.
  assert (H3 : 0 < 3) by lia. assert (H10 : 0 <= 10) by lia.
  destruct (batches_deliver_every_identifier_once host0 db_ok 10 3 O H3 H10)
    as [Hmem Hpop].
  split; [exact H3 | split; [exact H10 | split; [exact Hmem|]]].
  apply Hpop. intros b. reflexivity.
Defined.

(* ------------------------------------------------------------------ *)
(** ** The first revision's in-memory generation *)

Lemma V1_generateStep_spec {C : Type} (h : Host) (count : Z)
  (oP : option (Z -> Z -> C -> C)) (i : Z) (acc : list Customer)
  (s : C * nat) :
  map id (fst (V1.generateStep h count oP i acc s)) = map id acc ++ [i] /\
  fst (snd (V1.generateStep h count oP i acc s))
  = if reportedAt i then applyProgress oP count (fst s) i else fst s.
Proof.
  unfold V1.generateStep, reportedAt, applyProgress, bind, callProgress.
  cbv zeta. split.
  - destruct (Z.rem i V1.BATCH_SIZE =? 0); cbn; now rewrite map_app.
  - destruct (Z.rem i V1.BATCH_SIZE =? 0); [destruct oP|]; reflexivity.
Qed.

Lemma V1_generateLoop_spec {C : Type} (h : Host) (count : Z)
  (oP : option (Z -> Z -> C -> C)) (xs : list Z) (acc : list Customer)
  (s : C * nat) :
  map id (fst (forEach xs (V1.generateStep h count oP) acc s))
  = map id acc ++ xs /\
  fst (snd (forEach xs (V1.generateStep h count oP) acc s))
  = fold_left (applyProgress oP count) (filter reportedAt xs) (fst s).
Proof.
  revert acc s; induction xs as [|i xs IH]; intros acc s.
  - simpl. now rewrite app_nil_r.
  - rewrite forEach_cons.
    destruct (V1_generateStep_spec h count oP i acc s) as [H1 H2].
    destruct (IH (fst (V1.generateStep h count oP i acc s))
                 (snd (V1.generateStep h count oP i acc s))) as [H3 H4].
    rewrite H3, H4, H1, H2. split.
    + now rewrite <- app_assoc.
    + simpl. destruct (reportedAt i); reflexivity.
Qed.

(** The first revision returns the records 1..count in order. *)
Lemma V1_generate_ids {C : Type} (h : Host) (count : Z)
  (oP : option (Z -> Z -> C -> C)) (s : C * nat) :
  map id (fst (V1.generateCustomersInMemory h count oP s)) = upto 1 count.
Proof.
  unfold V1.generateCustomersInMemory.
  now destruct (V1_generateLoop_spec h count oP (upto 1 count) [] s) as [-> _].
Qed.

Lemma V1_generate_length {C : Type} (h : Host) (count : Z)
  (oP : option (Z -> Z -> C -> C)) (s : C * nat) :
  0 <= count ->
  Z.of_nat (List.length (fst (V1.generateCustomersInMemory h count oP s)))
  = count.
Proof.
  intros H. rewrite <- (length_map id), V1_generate_ids, upto_length; lia.
Qed.

Lemma fold_record_progress (total : Z) (xs : list Z) (log : list Event) :
  fold_left (applyProgress recordProgress total) xs log
  = log ++ map (fun i => Progress i total) xs.
Proof.
  revert log; induction xs as [|i xs IH]; intros log; simpl.
  - now rewrite app_nil_r.
  - rewrite IH, <- app_assoc. reflexivity.
Qed.

Lemma progressOf_progress (total : Z) (xs : list Z) :
  progressOf (map (fun i => Progress i total) xs)
  = map (fun i => (i, total)) xs.
Proof.
  induction xs as [|i xs IH]; simpl; [reflexivity | now rewrite IH].
Qed.

(** The first revision reports progress at the multiples of its batch
    size that lie in 1..count, and nowhere else. *)
Lemma V1_generate_progress (h : Host) (count : Z) (k : nat) :
  progressOf (fst (snd (V1.generateCustomersInMemory h count recordProgress
                          ([], k))))
  = map (fun i => (i, count)) (filter reportedAt (upto 1 count)).
Proof.
  unfold V1.generateCustomersInMemory.
  destruct (V1_generateLoop_spec h count recordProgress (upto 1 count) []
              ([], k)) as [_ ->].
  rewrite fold_record_progress. simpl fst. rewrite app_nil_l.
  apply progressOf_progress.
Qed.

Lemma filter_StronglySorted {A : Type} (R : A -> A -> Prop) (p : A -> bool)
  (l : list A) :
  StronglySorted R l -> StronglySorted R (filter p l).
Proof.
  induction 1 as [|x l Hl IH Hx]; simpl; [constructor|].
  destruct (p x); [|assumption]. constructor; [assumption|].
  rewrite Forall_forall in *. intros y Hy. apply filter_In in Hy.
  now apply Hx.
Qed.

(** Its reports are strictly increasing. *)
Lemma V1_generate_progress_increasing (h : Host) (count : Z) (k : nat) :
  StronglySorted Z.lt
    (map fst (progressOf (fst (snd (V1.generateCustomersInMemory h count
                                      recordProgress ([], k)))))).
Proof.
  rewrite V1_generate_progress, map_map. simpl. rewrite map_id.
  apply filter_StronglySorted, iota_sorted.
Qed.

(** When the batch size divides a positive count the last report is the
    count itself. *)
Lemma V1_generate_progress_last (h : Host) (count : Z) (k : nat) :
  0 < count -> Z.rem count V1.BATCH_SIZE = 0 ->
  last (progressOf (fst (snd (V1.generateCustomersInMemory h count
                                recordProgress ([], k))))) (0, 0)
  = (count, count).
Proof.
  intros Hpos Hrem. rewrite V1_generate_progress.
  rewrite (upto_snoc 1 count) by lia. rewrite filter_app. simpl.
  unfold reportedAt at 2. rewrite Hrem. simpl.
  rewrite map_app. simpl. apply last_last.
Qed.

(** C2 fails on the first revision: asked for 15000 records it reports
    progress once, at 10000, and the percentage derived from its last
    report is 66, not 100. *)
Theorem legacy_generation_progress_stops_short (h : Host) (k : nat) :
  progressOf (fst (snd (V1.generateCustomersInMemory h 15000 recordProgress
                          ([], k))))
  = [(10000, 15000)]
  /\ percent 10000 15000 = 66.
Proof.
  split.
  - rewrite V1_generate_progress. vm_compute. reflexivity.
  - vm_compute. reflexivity.
Qed.

(* ------------------------------------------------------------------ *)
(** ** Progress of the second revision *)

Lemma percent_complete : percent 1000000 1000000 = 100.
Proof. vm_compute. reflexivity. Qed.

Lemma last_map_nonempty {A B : Type} (f : A -> B) (l : list A)
  (d : A) (d' : B) :
  l <> [] -> last (map f l) d' = f (last l d).
Proof.
  induction l as [|x l IH]; [congruence|]. intros _.
  destruct l as [|y l]; [reflexivity|].
  change (last (map f (y :: l)) d' = f (last (y :: l) d)).
  apply IH. discriminate.
Qed.

(** The second revision's in-memory generation reports strictly
    increasing counts and ends at the requested total. *)
Lemma V2_generate_progress (h : Host) (N B : Z) (k : nat) :
  0 < B -> 0 < N ->
  let log := fst (snd (V2.generateCustomersInMemoryWith B h N
                         recordProgress recordBatch ([], k))) in
  StronglySorted Z.lt (map fst (progressOf log)) /\
  last (progressOf log) (0, 0) = (N, N).
Proof.
  intros HB HN log. subst log. unfold V2.generateCustomersInMemoryWith.
  destruct (V2_generateLoop_spec h B N HB (Z.to_nat N) 1 [] ([], k))
    as [bs [_ [H2 [_ [_ [_ [H6 H7]]]]]]]; [lia|].
  rewrite H2. cbn [fst]. rewrite app_nil_l, progressOf_batchEvents.
  split.
  - now rewrite map_map.
  - specialize (H7 ltac:(lia)).
    destruct bs as [|b bs]; [simpl in H7; lia|].
    rewrite (last_map_nonempty _ (b :: bs) []) in H7 by discriminate.
    rewrite (last_map_nonempty _ (b :: bs) []) by discriminate.
    now rewrite H7.
Qed.

(** The population of the store, when every transaction completes,
    reports the multiples of the batch size up to the first one that
    reaches the total. *)
Lemma V2_populate_progress (h : Host) (db : IDBDatabase) (N B : Z) (k : nat) :
  0 < B -> (forall b, writeTx db b = TxComplete) ->
  progressOf (fst (snd (V2.populateDatabaseWith N B h db recordProgress
                          recordBatch ([], k))))
  = map (fun j => (j * B, N)) (upto 1 ((N + B - 1) / B)).
Proof.
  intros HB Hdb. unfold V2.populateDatabaseWith.
  destruct (V2_populateLoop_spec h db N B HB Hdb (Z.to_nat N) 0 ([], k))
    as [bs [_ [H2 [_ [_ H5]]]]].
  { pose proof (ceiling_le_total N B HB). lia. }
  change (0 * B) with 0 in *. rewrite H2. cbn [fst].
  rewrite app_nil_l, progressOf_batchEvents.
  rewrite <- (map_map (fun b => last (map id b) 0) (fun e => (e, N))), H5.
  now rewrite map_map.
Qed.

(** With the constants of the source (a million records in batches of
    5000) the reports are 5000, 10000, ..., 1000000: strictly
    increasing, ending at the total, that is at 100 percent. *)
Lemma V2_populateDatabase_progress (h : Host) (db : IDBDatabase) (k : nat) :
  (forall b, writeTx db b = TxComplete) ->
  let log := fst (snd (V2.populateDatabase h db recordProgress recordBatch
                         ([], k))) in
  progressOf log = map (fun j => (j * 5000, 1000000)) (upto 1 200) /\
  StronglySorted Z.lt (map fst (progressOf log)) /\
  last (progressOf log) (0, 0) = (1000000, 1000000) /\
  percent 1000000 1000000 = 100.
Proof.
  intros Hdb log. subst log. unfold V2.populateDatabase.
  rewrite (V2_populate_progress h db V2.TOTAL_RECORDS V2.BATCH_SIZE k)
    by (reflexivity || assumption).
  change ((V2.TOTAL_RECORDS + V2.BATCH_SIZE - 1) / V2.BATCH_SIZE) with 200.
  change V2.BATCH_SIZE with 5000. change V2.TOTAL_RECORDS with 1000000.
  split; [reflexivity | split; [|split]].
  - rewrite map_map. simpl fst.
    generalize (iota_sorted 1 (Z.to_nat (200 - 1 + 1))). fold (upto 1 200).
    generalize (upto 1 200). induction 1 as [|x l Hl IH Hx]; simpl.
    + constructor.
    + constructor; [assumption|].
      rewrite Forall_forall in *. intros y Hy. apply in_map_iff in Hy.
      destruct Hy as [z [<- Hz]]. specialize (Hx z Hz). lia.
  - rewrite (upto_snoc 1 200) by lia. rewrite map_app. apply last_last.
  - apply percent_complete.
Qed.

(* ------------------------------------------------------------------ *)
(** ** The data layer as [initData] sees it *)

Lemma sameButProgress_refl (w : World) : sameButProgress w w.
Proof. unfold sameButProgress. tauto. Qed.

Lemma sameButProgress_trans (w1 w2 w3 : World) :
  sameButProgress w1 w2 -> sameButProgress w2 w3 -> sameButProgress w1 w3.
Proof.
  unfold sameButProgress. intuition congruence.
Qed.

Lemma reportProgress_frame (count : Z) (xs : list Z) (w : World) :
  sameButProgress w (fold_left (applyProgress reportProgress count) xs w).
Proof.
  revert w; induction xs as [|i xs IH]; intros w; simpl.
  - apply sameButProgress_refl.
  - eapply sameButProgress_trans; [|apply IH].
    unfold sameButProgress. simpl. tauto.
Qed.

Lemma forEach_frame {C A : Type} (body : Z -> A -> Run C A) :
  (forall i a s, fst (snd (body i a s)) = fst s) ->
  forall xs a s, fst (snd (forEach xs body a s)) = fst s.
Proof.
  intros Hbody. induction xs as [|i xs IH]; intros a s.
  - reflexivity.
  - rewrite forEach_cons, IH. apply Hbody.
Qed.

Lemma V1_generateLoop_frame (h : Host) (count : Z) (xs : list Z)
  (s : World * nat) :
  sameButProgress (fst s)
    (fst (snd (forEach xs (V1.generateStep h count reportProgress) [] s))).
Proof.
  destruct (V1_generateLoop_spec h count reportProgress xs [] s) as [_ ->].
  apply reportProgress_frame.
Qed.

(** A call of the in-memory generation is logged once, changes nothing
    but the progress shown, and returns the records 1..count exactly
    when they fit in the heap. *)
Lemma callGenerate_spec (env : Browser) (count : Z) (s : World * nat) :
  let r := callGenerateCustomersInMemory env count reportProgress s in
  let attempt := List.length (filter isGenerate (calls (fst s))) in
  calls (fst (snd r)) = calls (fst s) ++ [CallGenerate] /\
  customers (app (fst (snd r))) = customers (app (fst s)) /\
  loading (app (fst (snd r))) = loading (app (fst s)) /\
  error (app (fst (snd r))) = error (app (fst s)) /\
  useMemoryStorage (app (fst (snd r))) = useMemoryStorage (app (fst s)) /\
  db (app (fst (snd r))) = db (app (fst s)) /\
  (fitsHeap env attempt count = true ->
   exists cs, fst r = Some (Resolved cs) /\ map id cs = upto 1 count) /\
  (fitsHeap env attempt count = false ->
   exists m, fst r = Some (Rejected m)).
Proof.
  intros r attempt. subst r. unfold callGenerateCustomersInMemory, fitsHeap.
  fold attempt. cbv zeta.
  set (s1 := (mkWorld (app (fst s)) (calls (fst s) ++ [CallGenerate]), snd s)).
  pose proof (V1_generateLoop_frame (host env) count (upto 1 count) s1) as F.
  fold (V1.generateCustomersInMemory (host env) count reportProgress s1) in F.
  destruct (heapLimit env attempt) as [[fits m]|].
  - destruct (fits <? count) eqn:E; simpl negb; cbn [fst snd].
    + pose proof (V1_generateLoop_frame (host env) count (upto 1 fits) s1)
        as F'.
      unfold sameButProgress in F'. simpl in F'.
      intuition (try congruence). now exists m.
    + unfold sameButProgress in F. simpl in F.
      intuition (try congruence).
      eexists; split; [reflexivity | apply V1_generate_ids].
  - cbn [fst snd]. unfold sameButProgress in F. simpl in F.
    intuition (try congruence).
    eexists; split; [reflexivity | apply V1_generate_ids].
Qed.

(** The first revision's population of the store, with the progress
    callback of [initData]: it always ends; it changes nothing but the
    progress shown; it resolves when every transaction of its batches
    completes and rejects as soon as one does not. *)
Lemma V1_populateLoop_spec (h : Host) (db : IDBDatabase) (N B : Z) :
  0 < B ->
  forall (fuel : nat) (batch processed : Z) (s : World * nat),
    Z.max 0 ((N + B - 1) / B - batch) <= Z.of_nat fuel ->
    let r := V1.populateLoop fuel h db N B reportProgress batch processed s in
    sameButProgress (fst s) (fst (snd r)) /\
    ((forall b, batch <= b < (N + B - 1) / B -> writeTx db b = TxComplete) ->
     fst r = Some (Resolved tt)) /\
    ((exists b, batch <= b < (N + B - 1) / B /\ writeTx db b <> TxComplete) ->
     exists m, fst r = Some (Rejected m)).
Proof.
  intros HB. set (c := (N + B - 1) / B).
  assert (Hcond : forall batch,
            lt_quotient batch N B = true <-> batch < c).
  { intros batch. rewrite lt_quotient_pos by assumption.
    rewrite Z.ltb_lt. apply lt_quotient_ceiling. assumption. }
  assert (Hexit : forall fuel batch processed s, c <= batch ->
    let r := V1.populateLoop fuel h db N B reportProgress batch processed s in
    sameButProgress (fst s) (fst (snd r)) /\
    ((forall b, batch <= b < c -> writeTx db b = TxComplete) ->
     fst r = Some (Resolved tt)) /\
    ((exists b, batch <= b < c /\ writeTx db b <> TxComplete) ->
     exists m, fst r = Some (Rejected m))).
  { intros fuel batch processed s Hc r.
    assert (E : lt_quotient batch N B = false).
    { destruct (lt_quotient batch N B) eqn:E; [|reflexivity].
      apply Hcond in E. lia. }
    assert (Hr : r = (Some (Resolved tt), s)).
    { subst r. destruct fuel; cbn [V1.populateLoop]; rewrite E; reflexivity. }
    rewrite Hr. cbn [fst snd]. split; [apply sameButProgress_refl|].
    split; [reflexivity|]. intros [b [Hb _]]. lia. }
  induction fuel as [|fuel IH]; intros batch processed s Hfuel.
  - apply Hexit. lia.
  - destruct (Z_le_gt_dec c batch) as [Hout|Hin]; [now apply Hexit|].
    assert (E : lt_quotient batch N B = true) by (apply Hcond; lia).
    cbn [V1.populateLoop]. rewrite E.
    set (gen := V1.addBatch h B batch s).
    assert (Hgen : fst (snd gen) = fst s).
    { subst gen. unfold V1.addBatch. apply forEach_frame. reflexivity. }
    destruct (writeTx db batch) eqn:Htx.
    + cbn [ret fst snd]. split; [apply sameButProgress_refl|].
      split.
      * intros Hall. rewrite (Hall batch) in Htx by lia. discriminate.
      * intros _. now exists message.
    + unfold bind at 1. cbv zeta. fold gen.
      unfold bind at 1. cbv zeta.
      set (s' := snd (callProgress reportProgress (processed + B) N (snd gen))).
      assert (Hs' : sameButProgress (fst s) (fst s')).
      { subst s'. cbn. rewrite Hgen. unfold sameButProgress. simpl. tauto. }
      destruct (IH (batch + 1) (processed + B) s') as [F [Hok Hfail]];
        [lia|].
      split; [eapply sameButProgress_trans; eassumption|]. split.
      * intros Hall. apply Hok. intros b Hb. apply Hall. lia.
      * intros [b [Hb Hne]]. apply Hfail. exists b. split; [|assumption].
        destruct (Z.eq_dec b batch) as [->|]; [congruence | lia].
    + unfold bind at 1. cbv zeta. fold gen. cbn [ret fst snd].
      split; [rewrite Hgen; apply sameButProgress_refl|]. split.
      * intros Hall. rewrite (Hall batch) in Htx by lia. discriminate.
      * intros _. eexists. reflexivity.
    + unfold bind at 1. cbv zeta. fold gen. cbn [ret fst snd].
      split; [rewrite Hgen; apply sameButProgress_refl|]. split.
      * intros Hall. rewrite (Hall batch) in Htx by lia. discriminate.
      * intros _. eexists. reflexivity.
Qed.

(** With the constants of the first revision the store is written in
    the hundred batches 0..99. *)
Lemma V1_populateDatabase_spec (h : Host) (db : IDBDatabase)
  (s : World * nat) :
  let r := V1.populateDatabase h db reportProgress s in
  sameButProgress (fst s) (fst (snd r)) /\
  ((forall b, 0 <= b < 100 -> writeTx db b = TxComplete) ->
   fst r = Some (Resolved tt)) /\
  ((exists b, 0 <= b < 100 /\ writeTx db b <> TxComplete) ->
   exists m, fst r = Some (Rejected m)).
Proof.
  unfold V1.populateDatabase.
  apply (V1_populateLoop_spec h db V1.TOTAL_RECORDS V1.BATCH_SIZE
           ltac:(reflexivity) (Z.to_nat V1.TOTAL_RECORDS) 0 0 s).
  pose proof (ceiling_le_total V1.TOTAL_RECORDS V1.BATCH_SIZE
                ltac:(reflexivity)).
  unfold V1.TOTAL_RECORDS in *. lia.
Qed.

(* ------------------------------------------------------------------ *)
(** ** Data initialisation *)

Arguments callGenerateCustomersInMemory : simpl never.
Arguments callPopulateDatabase : simpl never.

Ltac run_task :=
  unfold tryCatch, andThen, bind, update, logCall, done, settle, await,
    throw, ret;
  cbv zeta; cbn [fst snd app calls].

Ltac run_state :=
  cbn [fst snd app calls customers loading progress error useMemoryStorage db
       setCustomers setLoading setProgress setError setUseMemoryStorage setDb].

(** The [catch] block: one more in-memory generation is attempted; the
    error is cleared when it succeeds and replaced by the terminal
    message when it fails. *)
Lemma recover_spec (env : Browser) (err : string) (s : World * nat) :
  let r := recover env err s in
  let attempt := List.length (filter isGenerate (calls (fst s))) in
  fst r = Some (Resolved tt) /\
  calls (fst (snd r)) = calls (fst s) ++ [CallGenerate] /\
  useMemoryStorage (app (fst (snd r))) = true /\
  loading (app (fst (snd r))) = false /\
  db (app (fst (snd r))) = db (app (fst s)) /\
  (fitsHeap env attempt 1000000 = true ->
   error (app (fst (snd r))) = None /\
   map id (customers (app (fst (snd r)))) = upto 1 1000000) /\
  (fitsHeap env attempt 1000000 = false ->
   error (app (fst (snd r)))
   = Some "Failed to generate customer data"%string /\
   customers (app (fst (snd r))) = customers (app (fst s))).
Proof.
  intros r attempt. subst r. unfold recover. run_task.
  set (s1 := (mkWorld (setUseMemoryStorage true
                         (setError (Some (messageOrDefault err))
                            (app (fst s)))) (calls (fst s)), snd s)).
  pose proof (callGenerate_spec env 1000000 s1) as G. cbv zeta in G.
  change (calls (fst s1)) with (calls (fst s)) in G. fold attempt in G.
  destruct G as [Gc [Gcust [Gl [Ge [Gu [Gd [Gok Gfail]]]]]]].
  destruct (fitsHeap env attempt 1000000) eqn:Hfit.
  - destruct (Gok eq_refl) as [cs [Hr Hids]].
    rewrite Hr. run_state. rewrite Gc, Gd, Gu.
    repeat split; try reflexivity; try congruence.
  - destruct (Gfail eq_refl) as [m Hr].
    rewrite Hr. run_state. rewrite Gc, Gd, Gcust, Gu.
    repeat split; try reflexivity; try congruence.
Qed.

Lemma ids_length (cs : list Customer) (N : Z) :
  0 <= N -> map id cs = upto 1 N -> Z.of_nat (List.length cs) = N.
Proof.
  intros HN H. rewrite <- (length_map id), H, upto_length; lia.
Qed.

(** The path taken when IndexedDB is not available. *)
Lemma initData_without_store (env : Browser) :
  isIndexedDBAvailable env = false ->
  let r := start env in
  fst r = Some (Resolved tt) /\
  filter isOpen (calls (snd r)) = [] /\
  useMemoryStorage (app (snd r)) = true /\
  loading (app (snd r)) = false /\
  (error (app (snd r)) = None <->
   fitsHeap env 0 1000000 = true \/ fitsHeap env 1 1000000 = true) /\
  (error (app (snd r)) = None ->
   map id (customers (app (snd r))) = upto 1 1000000 /\
   Z.of_nat (List.length (customers (app (snd r)))) = 1000000).
Proof.
  intros Hp r. subst r. unfold start, initData. run_task.
  rewrite Hp. cbn [negb]. run_task.
  unfold initialWorld. cbn [app calls List.app].
  set (s1 := (mkWorld (setUseMemoryStorage true (setError None initialState))
                [CallProbe], O)).
  pose proof (callGenerate_spec env 1000000 s1) as G. cbv zeta in G.
  change (List.length (filter isGenerate (calls (fst s1)))) with O in G.
  destruct G as [Gc [Gcust [Gl [Ge [Gu [Gd [Gok Gfail]]]]]]].
  destruct (fitsHeap env 0 1000000) eqn:Hfit.
  - destruct (Gok eq_refl) as [cs [Hr Hids]].
    rewrite Hr. run_state. rewrite Gc, Gu, Ge.
    split; [reflexivity|]. split; [reflexivity|]. split; [reflexivity|].
    split; [reflexivity|]. split; [split; auto|].
    intros _. split; [assumption | now apply ids_length].
  - destruct (Gfail eq_refl) as [m Hr].
    rewrite Hr. run_state.
    set (s2 := snd (callGenerateCustomersInMemory env 1000000 reportProgress
                      s1)) in *.
    pose proof (recover_spec env m s2) as R. cbv zeta in R.
    rewrite Gc in R.
    change (List.length (filter isGenerate (calls (fst s1) ++ [CallGenerate])))
      with 1%nat in R.
    destruct R as [Rr [Rc [Ru [Rl [Rd [Rok Rfail]]]]]].
    rewrite Rr, Rc, Ru, Rl.
    split; [reflexivity|]. split; [reflexivity|]. split; [reflexivity|].
    split; [reflexivity|].
    destruct (fitsHeap env 1 1000000) eqn:Hfit'.
    + destruct (Rok eq_refl) as [He Hids]. rewrite He, Hids. split.
      * split; auto.
      * intros _. split; [reflexivity|]. now apply ids_length.
    + destruct (Rfail eq_refl) as [He _]. rewrite He. split.
      * split; [discriminate | intros [?|?]; discriminate].
      * discriminate.
Qed.

(** C3: when the capability probe answers no, [initData] ends without
    ever opening the store, in memory mode and no longer loading; it
    ends without error exactly when the generation (or its retry by the
    catch block) fits in memory, and then the working set holds the
    1,000,000 records 1..1000000. *)
Theorem probe_failure_takes_memory_path (env : Browser) :
  isIndexedDBAvailable env = false ->
  let r := start env in
  fst r = Some (Resolved tt) /\
  filter isOpen (calls (snd r)) = [] /\
  useMemoryStorage (app (snd r)) = true /\
  loading (app (snd r)) = false /\
  (error (app (snd r)) = None <->
   fitsHeap env 0 1000000 = true \/ fitsHeap env 1 1000000 = true) /\
  (error (app (snd r)) = None ->
   map id (customers (app (snd r))) = upto 1 1000000 /\
   Z.of_nat (List.length (customers (app (snd r)))) = 1000000).
Proof.
  exact (initData_without_store env).
Qed.

Lemma probe_failure_takes_memory_path_witness :
  isIndexedDBAvailable env_private = false /\
  (let r := start env_private in
   fst r = Some (Resolved tt) /\
   filter isOpen (calls (snd r)) = [] /\
   useMemoryStorage (app (snd r)) = true /\
   loading (app (snd r)) = false /\
   (error (app (snd r)) = None <->
    fitsHeap env_private 0 1000000 = true \/
    fitsHeap env_private 1 1000000 = true) /\
   (error (app (snd r)) = None ->
    map id (customers (app (snd r))) = upto 1 1000000 /\
    Z.of_nat (List.length (customers (app (snd r)))) = 1000000)).
Proof.
  split.
  - reflexivity.
  - apply (probe_failure_takes_memory_path env_private). reflexivity.
Defined.

Lemma open_implies_available (env : Browser) (database : IDBDatabase) :
  initializeDatabase env = Some (Resolved database) ->
  isIndexedDBAvailable env = true.
Proof.
  unfold initializeDatabase.
  destruct (isIndexedDBAvailable env); [reflexivity | discriminate].
Qed.

(** C6: when the store opens and reports itself populated, [initData]
    ends having never called the population and having read all records
    exactly once; when that read succeeds its result is the working
    set, no error is shown and the session stays on the persistent
    store. *)
Theorem populated_store_is_read_once
  (env : Browser) (database : IDBDatabase) :
  initializeDatabase env = Some (Resolved database) ->
  isDatabasePopulated database = Resolved true ->
  let r := start env in
  fst r = Some (Resolved tt) /\
  filter isPopulate (calls (snd r)) = [] /\
  filter isReadAll (calls (snd r)) = [CallReadAll] /\
  (forall result, getAllReq database = ReqSuccess result ->
     customers (app (snd r)) = result /\
     error (app (snd r)) = None /\
     useMemoryStorage (app (snd r)) = false /\
     loading (app (snd r)) = false /\
     filter isGenerate (calls (snd r)) = []).
Proof.
  intros Hopen Hpop r. subst r.
  pose proof (open_implies_available env database Hopen) as Hp.
  unfold start, initData. run_task. rewrite Hp. cbn [negb]. run_task.
  rewrite Hopen. run_task. rewrite Hpop. cbn [negb]. run_task.
  unfold loadCustomers. run_task.
  unfold initialWorld. cbn [app calls List.app].
  destruct (getAllReq database) as [m|result|m] eqn:Hget; run_task.
  - match goal with
    | |- context [recover env ?e ?s] =>
        pose proof (recover_spec env e s) as R
    end.
    cbv zeta in R. destruct R as [Rr [Rc _]]. rewrite Rr, Rc.
    split; [reflexivity | split; [reflexivity | split; [reflexivity|]]].
    intros res Hres. discriminate.
  - run_state.
    split; [reflexivity | split; [reflexivity | split; [reflexivity|]]].
    intros res Hres. injection Hres as <-. repeat split; reflexivity.
  - match goal with
    | |- context [recover env ?e ?s] =>
        pose proof (recover_spec env e s) as R
    end.
    cbv zeta in R. destruct R as [Rr [Rc _]]. rewrite Rr, Rc.
    split; [reflexivity | split; [reflexivity | split; [reflexivity|]]].
    intros res Hres. discriminate.
Qed.

Lemma populated_store_is_read_once_witness :
  initializeDatabase env_populated = Some (Resolved db_populated) /\
  isDatabasePopulated db_populated = Resolved true /\
  (let r := start env_populated in
   fst r = Some (Resolved tt) /\
   filter isPopulate (calls (snd r)) = [] /\
   filter isReadAll (calls (snd r)) = [CallReadAll] /\
   (forall result, getAllReq db_populated = ReqSuccess result ->
      customers (app (snd r)) = result /\
      error (app (snd r)) = None /\
      useMemoryStorage (app (snd r)) = false /\
      loading (app (snd r)) = false /\
      filter isGenerate (calls (snd r)) = [])).
Proof.
  split; [reflexivity | split; [reflexivity|]].
  apply (populated_store_is_read_once env_populated db_populated);
    reflexivity.
Defined.

(** The catch block entered before any in-memory generation. *)
Lemma recover_outcome (env : Browser) (e : string) (s : World * nat) :
  filter isGenerate (calls (fst s)) = [] ->
  let r := recover env e s in
  fst r = Some (Resolved tt) /\
  filter isGenerate (calls (fst (snd r))) = [CallGenerate] /\
  useMemoryStorage (app (fst (snd r))) = true /\
  loading (app (fst (snd r))) = false /\
  (fitsHeap env 0 1000000 = true ->
   error (app (fst (snd r))) = None /\
   map id (customers (app (fst (snd r)))) = upto 1 1000000) /\
  (fitsHeap env 0 1000000 = false ->
   error (app (fst (snd r)))
   = Some "Failed to generate customer data"%string).
Proof.
  intros Hnone r. subst r.
  pose proof (recover_spec env e s) as R. cbv zeta in R.
  rewrite Hnone in R. change (List.length (@nil Call)) with O in R.
  destruct R as [Rr [Rc [Ru [Rl [_ [Rok Rfail]]]]]].
  rewrite Rc, filter_app, Hnone.
  repeat split; try assumption; try reflexivity.
  - now apply Rok.
  - now apply Rok.
  - now apply Rfail.
Qed.

(** The path taken when a step of the persistent store fails. *)
Lemma initData_store_failure (env : Browser) :
  isIndexedDBAvailable env = true ->
  storeStepFails env ->
  let r := start env in
  fst r = Some (Resolved tt) /\
  filter isGenerate (calls (snd r)) = [CallGenerate] /\
  useMemoryStorage (app (snd r)) = true /\
  loading (app (snd r)) = false /\
  (fitsHeap env 0 1000000 = true ->
   error (app (snd r)) = None /\
   map id (customers (app (snd r))) = upto 1 1000000) /\
  (fitsHeap env 0 1000000 = false ->
   error (app (snd r)) = Some "Failed to generate customer data"%string).
Proof.
  intros Hp Hfail r. subst r.
  unfold start, initData. run_task. rewrite Hp. cbn [negb]. run_task.
  unfold initialWorld. cbn [app calls List.app].
  destruct Hfail as [[m Hopen] | [database [Hopen Hfail]]].
  - rewrite Hopen. run_task. apply recover_outcome. reflexivity.
  - rewrite Hopen. run_task.
    destruct Hfail as [[m Hpop] | [[Hpop Hw] | [[Hpop [Hw Hr]] | [Hpop Hr]]]].
    + rewrite Hpop. run_task. apply recover_outcome. reflexivity.
    + rewrite Hpop. cbn [negb]. unfold callPopulateDatabase. run_task.
      match goal with
      | |- context [V1.populateDatabase ?h ?d reportProgress ?s] =>
          pose proof (V1_populateDatabase_spec h d s) as P;
          set (p := V1.populateDatabase h d reportProgress s) in *
      end.
      cbv zeta in P. destruct P as [[Pc _] [_ Pfail]].
      destruct (Pfail Hw) as [m Hm]. rewrite Hm. run_task.
      apply recover_outcome. rewrite Pc. reflexivity.
    + rewrite Hpop. cbn [negb]. unfold callPopulateDatabase. run_task.
      match goal with
      | |- context [V1.populateDatabase ?h ?d reportProgress ?s] =>
          pose proof (V1_populateDatabase_spec h d s) as P;
          set (p := V1.populateDatabase h d reportProgress s) in *
      end.
      cbv zeta in P. destruct P as [[Pc _] [Pok _]].
      rewrite (Pok Hw). run_task. unfold loadCustomers. run_task.
      destruct (getAllReq database) as [m|result|m] eqn:Hget; run_task.
      * apply recover_outcome. cbn [fst calls]. rewrite Pc. reflexivity.
      * exfalso. exact (Hr result Hget).
      * apply recover_outcome. cbn [fst calls]. rewrite Pc. reflexivity.
    + rewrite Hpop. cbn [negb]. run_task. unfold loadCustomers. run_task.
      destruct (getAllReq database) as [m|result|m] eqn:Hget; run_task.
      * apply recover_outcome. reflexivity.
      * exfalso. exact (Hr result Hget).
      * apply recover_outcome. reflexivity.
Qed.

(** C7: when a step of the persistent store fails (the open, the
    population check, a transaction of the population, or the final
    read), [initData] ends having called the in-memory generation
    exactly once, in memory mode and no longer loading; if that
    generation succeeds no error is left and the working set holds the
    records 1..1000000; an error is left only if that generation fails
    too, and it is then the terminal message. *)
Theorem store_failure_falls_back_to_memory_once (env : Browser) :
  isIndexedDBAvailable env = true ->
  storeStepFails env ->
  let r := start env in
  fst r = Some (Resolved tt) /\
  filter isGenerate (calls (snd r)) = [CallGenerate] /\
  useMemoryStorage (app (snd r)) = true /\
  loading (app (snd r)) = false /\
  (fitsHeap env 0 1000000 = true ->
   error (app (snd r)) = None /\
   map id (customers (app (snd r))) = upto 1 1000000) /\
  (fitsHeap env 0 1000000 = false ->
   error (app (snd r)) = Some "Failed to generate customer data"%string).
Proof.
  exact (initData_store_failure env).
Qed.

Lemma store_failure_falls_back_to_memory_once_witness :
  isIndexedDBAvailable env_locked = true /\
  storeStepFails env_locked /\
  (let r := start env_locked in
   fst r = Some (Resolved tt) /\
   filter isGenerate (calls (snd r)) = [CallGenerate] /\
   useMemoryStorage (app (snd r)) = true /\
   loading (app (snd r)) = false /\
   (fitsHeap env_locked 0 1000000 = true ->
    error (app (snd r)) = None /\
    map id (customers (app (snd r))) = upto 1 1000000) /\
   (fitsHeap env_locked 0 1000000 = false ->
    error (app (snd r)) = Some "Failed to generate customer data"%string)).
Proof.
  assert (F : storeStepFails env_locked).
  { left. eexists. reflexivity. }
  split; [reflexivity | split; [exact F|]].
  apply (store_failure_falls_back_to_memory_once env_locked eq_refl F).
Defined.

(* ------------------------------------------------------------------ *)
(** ** Sorting a generated working set by identifier *)

Lemma StronglySorted_map_in {A B : Type} (R : A -> A -> Prop)
  (R' : B -> B -> Prop) (f : A -> B) (l : list A) :
  (forall x y, In x l -> In y l -> R x y -> R' (f x) (f y)) ->
  StronglySorted R l -> StronglySorted R' (map f l).
Proof.
  intros H Hs. induction Hs as [|x l Hl IH Hx]; simpl; constructor.
  - apply IH. intros a b Ha Hb. apply H; now right.
  - rewrite Forall_forall in *. intros y Hy. apply in_map_iff in Hy.
    destruct Hy as [z [<- Hz]]. apply H; [now left | now right | auto].
Qed.

Lemma sorted_permutation_unique (l1 l2 : list Z) :
  StronglySorted Z.le l1 -> StronglySorted Z.le l2 ->
  Permutation l1 l2 -> l1 = l2.
Proof.
  intros S1. revert l2. induction S1 as [|x t1 S1 IH Hx]; intros l2 S2 P.
  - now apply Permutation_nil in P.
  - destruct S2 as [|y t2 S2 Hy].
    + apply Permutation_sym, Permutation_nil in P. discriminate.
    + assert (x = y).
      { rewrite Forall_forall in Hx, Hy.
        assert (Ix : In x (y :: t2))
          by (apply (Permutation_in _ P); now left).
        assert (Iy : In y (x :: t1))
          by (apply (Permutation_in _ (Permutation_sym P)); now left).
        destruct Ix as [->|Ix]; [reflexivity|].
        destruct Iy as [->|Iy]; [reflexivity|].
        pose proof (Hx y Iy). pose proof (Hy x Ix). lia. }
      subst y. f_equal. apply IH; [assumption|].
      now apply Permutation_cons_inv in P.
Qed.

(** Sorted by identifier, ascending, the identifiers are in
    non-decreasing order. *)
Lemma sortRecords_by_id_in_order (records : list Customer) :
  StronglySorted Z.le
    (map id (sortRecords (mkSortConfig col_id asc) records)).
Proof.
  unfold sortRecords. cbn [column direction].
  set (sorted := Array_sort (compareFn asc) (map (decorate col_id) records)).
  assert (Hs : StronglySorted (fun x y => compareFn asc x y <= 0) sorted).
  { apply (Array_sort_StronglySorted (compareFn asc) (ofColumn col_id)).
    - intros x y _ _. apply compareFn_total.
    - apply compareFn_trans.
    - apply decorate_ofColumn. }
  rewrite map_map.
  apply (StronglySorted_map_in (fun x y => compareFn asc x y <= 0)); [|exact Hs].
  intros x y Ix Iy Hxy. subst sorted.
  apply (proj1 (Array_sort_In _ _ _)) in Ix, Iy.
  apply in_map_iff in Ix, Iy.
  destruct Ix as [a [<- _]], Iy as [b [<- _]].
  apply compareFn_le in Hxy. simpl in Hxy. apply Z.ltb_ge in Hxy.
  simpl. assumption.
Qed.

(** For every column and direction the output is in comparator order:
    no record is followed by one the comparator puts before it. *)
Lemma sortRecords_in_order (cfg : SortConfig) (records : list Customer) :
  StronglySorted
    (fun a b => compareFn (direction cfg) (decorate (column cfg) a)
                          (decorate (column cfg) b) <= 0)
    (sortRecords cfg records).
Proof.
  unfold sortRecords.
  set (sorted := Array_sort (compareFn (direction cfg))
                   (map (decorate (column cfg)) records)).
  assert (Hs : StronglySorted
                 (fun x y => compareFn (direction cfg) x y <= 0) sorted).
  { apply (Array_sort_StronglySorted (compareFn (direction cfg))
             (ofColumn (column cfg))).
    - intros x y _ _. apply compareFn_total.
    - apply compareFn_trans.
    - apply decorate_ofColumn. }
  apply (StronglySorted_map_in
           (fun x y => compareFn (direction cfg) x y <= 0)); [|exact Hs].
  intros x y Ix Iy Hxy. subst sorted.
  apply (proj1 (Array_sort_In _ _ _)) in Ix, Iy.
  apply in_map_iff in Ix, Iy.
  destruct Ix as [a [<- _]], Iy as [b [<- _]]. exact Hxy.
Qed.

(** Whatever the order in which the records 1..N arrive, the sort by
    identifier puts them in the order 1, 2, ..., N. *)
Lemma sortRecords_by_id_any_order (records : list Customer) (N : Z) :
  Permutation (map id records) (upto 1 N) ->
  map id (sortRecords (mkSortConfig col_id asc) records) = upto 1 N.
Proof.
  intros P. apply sorted_permutation_unique.
  - apply sortRecords_by_id_in_order.
  - rewrite <- (map_id (upto 1 N)).
    apply (StronglySorted_map_in Z.lt Z.le (fun z => z));
      [intros; lia | apply iota_sorted].
  - eapply perm_trans; [|exact P].
    apply Permutation_map, Permutation_sym, sortRecords_perm.
Qed.

(** C8: a working set generated with the identifiers 1..N, by either
    revision of the in-memory generation and for every N, comes out of
    the sort engine under (id, ascending) in the order 1, 2, ..., N. *)
Theorem sort_by_id_gives_identifier_order
  (h : Host) (N : Z) (k : nat) (m : Heap) :
  (let W := fst (V1.generateCustomersInMemory h N recordProgress ([], k)) in
   let out := sortedCustomers (List.length m) (mkSortConfig col_id asc)
                (m ++ [W]) in
   map id (deref (snd out) (fst out)) = upto 1 N)
  /\
  (exists W,
     fst (V2.generateCustomersInMemory h N recordProgress recordBatch ([], k))
     = Some W /\
     let out := sortedCustomers (List.length m) (mkSortConfig col_id asc)
                  (m ++ [W]) in
     map id (deref (snd out) (fst out)) = upto 1 N).
Proof.
  assert (Hstore : forall W, deref (m ++ [W]) (List.length m) = W)
    by (intros W; exact (deref_alloc W m)).
  split.
  - cbv zeta. unfold sortedCustomers. rewrite deref_alloc, Hstore.
    apply sortRecords_by_id_any_order. rewrite V1_generate_ids.
    apply Permutation_refl.
  - unfold V2.generateCustomersInMemory, V2.generateCustomersInMemoryWith.
    destruct (V2_generateLoop_spec h V2.BATCH_SIZE N ltac:(reflexivity)
                (Z.to_nat N) 1 [] ([], k))
      as [bs [H1 [_ [H3 _]]]]; [lia|].
    exists (List.concat bs). split; [exact H1|].
    cbv zeta. unfold sortedCustomers. rewrite deref_alloc, Hstore.
    apply sortRecords_by_id_any_order. rewrite concat_map, H3.
    apply Permutation_refl.
Qed.

(* ------------------------------------------------------------------ *)
(** ** Generated phones carry no capital letter *)

Lemma toLowerCase_app (a b : string) :
  toLowerCase (a ++ b) = (toLowerCase a ++ toLowerCase b)%string.
Proof.
  induction a as [|c a IH]; simpl; [reflexivity | now rewrite IH].
Qed.

Lemma toLowerCase_digits (d : Decimal.uint) :
  toLowerCase (NilEmpty.string_of_uint d) = NilEmpty.string_of_uint d.
Proof.
  induction d; simpl; try rewrite IHd; reflexivity.
Qed.

Lemma toLowerCase_number (z : Z) :
  toLowerCase (String_of_number z) = String_of_number z.
Proof.
  unfold String_of_number, NilZero.string_of_int, NilZero.string_of_uint.
  destruct (Z.to_int z) as [d|d]; destruct d;
    try reflexivity;
    try (apply (toLowerCase_digits (Decimal.D0 _)));
    try (apply (toLowerCase_digits (Decimal.D1 _)));
    simpl; try rewrite toLowerCase_digits; reflexivity.
Qed.

Lemma generatePhone_no_capitals (h : Host) (k : nat) :
  toLowerCase (fst (generatePhone h k)) = fst (generatePhone h k).
Proof.
  unfold generatePhone, bind, ret. cbv zeta. cbn [fst snd].
  rewrite !toLowerCase_app, !toLowerCase_number. reflexivity.
Qed.

Lemma generateCustomer_phone (h : Host) (i : Z) (k : nat) :
  phone (fst (generateCustomer h i k)) = fst (generatePhone h (3 + k)%nat).
Proof. reflexivity. Qed.

Lemma generateCustomer_no_capitals (h : Host) (i : Z) (k : nat) :
  toLowerCase (phone (fst (generateCustomer h i k)))
  = phone (fst (generateCustomer h i k)).
Proof.
  rewrite generateCustomer_phone. apply generatePhone_no_capitals.
Qed.

Section Generated.
Variable h : Host.
Variable P : Customer -> Prop.
Hypothesis generated : forall i k, P (fst (generateCustomer h i k)).

Lemma V1_generateLoop_Forall {C : Type} (count : Z)
  (oP : option (Z -> Z -> C -> C)) (xs : list Z) (acc : list Customer)
  (s : C * nat) :
  Forall P acc ->
  Forall P (fst (forEach xs (V1.generateStep h count oP) acc s)).
Proof.
  revert acc s; induction xs as [|i xs IH]; intros acc s Hacc.
  - exact Hacc.
  - rewrite forEach_cons. apply IH.
    unfold V1.generateStep, bind, ret, liftGen. cbv zeta. cbn [fst snd].
    apply Forall_app. split; [assumption|]. constructor; [|constructor].
    apply generated.
Qed.

Lemma generateBatch_acc_Forall {C : Type} (ids : list Z)
  (acc : list Customer) (s : C * nat) :
  Forall P acc ->
  Forall P (fst (forEach ids
                   (fun i (batchCustomers : list Customer) =>
                      customer <- liftGen (generateCustomer h i) ;;
                      ret (batchCustomers ++ [customer])) acc s)).
Proof.
  revert acc s; induction ids as [|i ids IH]; intros acc s Hacc.
  - exact Hacc.
  - rewrite forEach_cons. apply IH.
    unfold bind, ret, liftGen. cbv zeta. cbn [fst snd].
    apply Forall_app. split; [assumption|]. constructor; [|constructor].
    apply generated.
Qed.

Lemma V2_generateBatch_Forall {C : Type} (ids : list Z) (s : C * nat) :
  Forall P (fst (V2.generateBatch h ids s)).
Proof.
  apply generateBatch_acc_Forall. constructor.
Qed.

Lemma V2_generateLoop_Forall {C : Type} (B count : Z)
  (oP : option (Z -> Z -> C -> C)) (oB : option (list Customer -> C -> C))
  (fuel : nat) (start : Z) (all : list Customer) (s : C * nat) :
  Forall P all ->
  forall W, fst (V2.generateLoop fuel h B count oP oB start all s) = Some W ->
            Forall P W.
Proof.
  revert start all s. induction fuel as [|fuel IH]; intros start all s Hall W.
  - cbn [V2.generateLoop]. destruct (start <=? count); cbn.
    + discriminate.
    + intros [= <-]. assumption.
  - destruct (Z_lt_le_dec count start) as [Hout|Hin].
    + rewrite V2_generateLoop_exit by assumption. cbn.
      intros [= <-]. assumption.
    + rewrite V2_generateLoop_step by assumption. cbv zeta.
      apply IH. apply Forall_app. split; [assumption|].
      apply V2_generateBatch_Forall.
Qed.
End Generated.

(** On a working set produced by either revision of the in-memory
    generation the filter agrees with the wording of the specification:
    folding the case of a generated phone changes nothing. *)
Lemma filter_as_worded_on_generated (h : Host) (N : Z) (k : nat)
  (q : string) :
  (let W := fst (V1.generateCustomersInMemory h N recordProgress ([], k)) in
   filter (matchesSearch (toLowerCase q)) W
   = filter (matchesSearch_displayedPhone q) W)
  /\
  (forall W,
     fst (V2.generateCustomersInMemory h N recordProgress recordBatch
            ([], k)) = Some W ->
     filter (matchesSearch (toLowerCase q)) W
     = filter (matchesSearch_displayedPhone q) W).
Proof.
  split.
  - cbv zeta. apply filter_displayed_phone_agrees.
    apply Forall_forall. unfold V1.generateCustomersInMemory.
    apply (V1_generateLoop_Forall h
             (fun c => toLowerCase (phone c) = phone c)
             (generateCustomer_no_capitals h)).
    constructor.
  - intros W HW. apply filter_displayed_phone_agrees.
    apply Forall_forall.
    apply (V2_generateLoop_Forall h
             (fun c => toLowerCase (phone c) = phone c)
             (generateCustomer_no_capitals h) _ _ _ _ _ _ _ _
             (Forall_nil _) W HW).
Qed.

(* ------------------------------------------------------------------ *)
(** ** How a session ends *)

Lemma populate_commits_or_fails (database : IDBDatabase) :
  (forall b, 0 <= b < 100 -> writeTx database b = TxComplete) \/
  populateFails database.
Proof.
  unfold populateFails.
  assert (H : forall n : nat,
            (forall b, 0 <= b < Z.of_nat n -> writeTx database b = TxComplete)
            \/ (exists b, 0 <= b < Z.of_nat n /\
                          writeTx database b <> TxComplete)).
  { induction n as [|n [IH|[b [Hb Hne]]]].
    - left. intros b Hb. lia.
    - destruct (writeTx database (Z.of_nat n)) eqn:E.
      + right. exists (Z.of_nat n). split; [lia | congruence].
      + left. intros b Hb.
        destruct (Z.eq_dec b (Z.of_nat n)) as [->|]; [assumption|].
        apply IH. lia.
      + right. exists (Z.of_nat n). split; [lia | congruence].
      + right. exists (Z.of_nat n). split; [lia | congruence].
    - right. exists b. split; [lia | assumption]. }
  exact (H 100%nat).
Qed.

Lemma initializeDatabase_pending (env : Browser) :
  initializeDatabase env = None <-> openStaysBlocked env.
Proof.
  unfold initializeDatabase, openStaysBlocked.
  destruct (isIndexedDBAvailable env); cbn [negb].
  - destruct (indexedDB_open env); split;
      try discriminate; try (intros [_ H]; discriminate H); auto.
  - split; [discriminate | intros [H _]; discriminate H].
Qed.

Lemma openStaysBlocked_dec (env : Browser) :
  openStaysBlocked env \/ ~ openStaysBlocked env.
Proof.
  destruct (initializeDatabase env) as [o|] eqn:E.
  - right. intros H. apply initializeDatabase_pending in H. congruence.
  - left. now apply initializeDatabase_pending.
Qed.

(** While the open request stays blocked [initData] does not end, and
    the state is the one the component was mounted with. *)
Lemma initData_open_pending (env : Browser) :
  openStaysBlocked env ->
  fst (start env) = None /\ pendingSummary (snd (start env)).
Proof.
  intros Hb. pose proof Hb as [Hp _].
  apply initializeDatabase_pending in Hb.
  unfold start, initData. run_task. rewrite Hp. cbn [negb]. run_task.
  rewrite Hb. run_task. unfold pendingSummary, initialWorld.
  cbn. repeat split; reflexivity.
Qed.

Example blocked_open_never_ends :
  openStaysBlocked env_blocked /\
  start env_blocked
  = (None, mkWorld initialState [CallProbe; CallOpen; CallProbe]).
Proof.
  split; [split; reflexivity | reflexivity].
Qed.

Lemma store_fails_or_succeeds (env : Browser) :
  isIndexedDBAvailable env = true ->
  openStaysBlocked env \/
  storeStepFails env \/ exists result, storeSucceeds env result.
Proof.
  intros Hp. unfold storeStepFails, storeSucceeds.
  destruct (initializeDatabase env) as [[database|m]|] eqn:Hopen;
    [| right; left; left; now exists m
     | left; now apply initializeDatabase_pending].
  right.
  assert (Hread : (exists result, getAllReq database = ReqSuccess result)
                  \/ readAllFails database).
  { unfold readAllFails. destruct (getAllReq database) as [m|result|m].
    - right. discriminate.
    - left. now exists result.
    - right. discriminate. }
  destruct (isDatabasePopulated database) as [[|]|m] eqn:Hpop.
  - destruct Hread as [[result Hres]|Hread].
    + right. exists result, database. tauto.
    + left. right. exists database. tauto.
  - destruct (populate_commits_or_fails database) as [Hw|Hw].
    + destruct Hread as [[result Hres]|Hread].
      * right. exists result, database. tauto.
      * left. right. exists database. tauto.
    + left. right. exists database. tauto.
  - left. right. exists database. split; [reflexivity|]. left. now exists m.
Qed.

(** The persistent path without failure: the working set is what the
    store returned, nothing is generated in memory, no error is shown. *)
Lemma store_success_outcome (env : Browser) (result : list Customer) :
  storeSucceeds env result ->
  let r := start env in
  fst r = Some (Resolved tt) /\
  customers (app (snd r)) = result /\
  error (app (snd r)) = None /\
  useMemoryStorage (app (snd r)) = false /\
  loading (app (snd r)) = false /\
  filter isGenerate (calls (snd r)) = [] /\
  filter isReadAll (calls (snd r)) = [CallReadAll].
Proof.
  intros [database [Hopen [Hpop Hget]]] r. subst r.
  pose proof (open_implies_available env database Hopen) as Hp.
  unfold start, initData. run_task. rewrite Hp. cbn [negb]. run_task.
  unfold initialWorld. cbn [app calls List.app].
  rewrite Hopen. run_task.
  destruct Hpop as [Hpop | [Hpop Hw]].
  - rewrite Hpop. cbn [negb]. run_task. unfold loadCustomers. run_task.
    rewrite Hget. run_task. run_state. repeat split; reflexivity.
  - rewrite Hpop. cbn [negb]. unfold callPopulateDatabase. run_task.
    match goal with
    | |- context [V1.populateDatabase ?h ?d reportProgress ?s] =>
        pose proof (V1_populateDatabase_spec h d s) as Q;
        set (p := V1.populateDatabase h d reportProgress s) in *
    end.
    cbv zeta in Q. destruct Q as [[Pc [Pcu [Pl [Pe [Pu Pd]]]]] [Pok _]].
    rewrite (Pok Hw). run_task. unfold loadCustomers. run_task.
    rewrite Hget. run_task. run_state. rewrite Pc, Pe, Pu.
    repeat split; reflexivity.
Qed.

(** [initData] ends, with the loading flag cleared, unless the open
    request stays blocked. *)
Lemma session_ends_unless_blocked (env : Browser) :
  ~ openStaysBlocked env ->
  fst (start env) = Some (Resolved tt) /\
  loading (app (snd (start env))) = false.
Proof.
  intros Hnb. destruct (isIndexedDBAvailable env) eqn:Hp.
  - destruct (store_fails_or_succeeds env Hp) as [Hb | [Hf | [result Hs]]].
    + contradiction.
    + pose proof (initData_store_failure env Hp Hf) as H.
      cbv zeta in H. tauto.
    + pose proof (store_success_outcome env result Hs) as H.
      cbv zeta in H. tauto.
  - pose proof (initData_without_store env Hp) as H.
    cbv zeta in H. tauto.
Qed.

(** Whatever the path, an error is left at the end only when the
    in-memory generation has failed. *)
Lemma error_only_after_failed_generation (env : Browser) :
  error (app (snd (start env))) <> None ->
  fitsHeap env 0 1000000 = false.
Proof.
  intros He. destruct (isIndexedDBAvailable env) eqn:Hp.
  - destruct (store_fails_or_succeeds env Hp) as [Hb | [Hf | [result Hs]]].
    + destruct (initData_open_pending env Hb) as [_ [_ [_ [_ [_ [E _]]]]]].
      congruence.
    + pose proof (initData_store_failure env Hp Hf) as H.
      cbv zeta in H. destruct H as [_ [_ [_ [_ [Hok _]]]]].
      destruct (fitsHeap env 0 1000000); [|reflexivity].
      destruct (Hok eq_refl) as [Hnone _]. congruence.
    + pose proof (store_success_outcome env result Hs) as H.
      cbv zeta in H. destruct H as [_ [_ [Hnone _]]]. congruence.
  - pose proof (initData_without_store env Hp) as H.
    cbv zeta in H. destruct H as [_ [_ [_ [_ [Hiff _]]]]].
    destruct (fitsHeap env 0 1000000); [|reflexivity].
    exfalso. apply He. apply Hiff. now left.
Qed.

(* ------------------------------------------------------------------ *)
(** ** Worked scenarios *)

(** Scenario A of the specification, on the second revision's in-memory
    generation: ten records in batches of three arrive in batches of
    sizes 3, 3, 3, 1 and the progress shown is 30, 60, 90, 100. *)
Example scenario_total_10_batch_3 :
  let log := fst (snd (V2.generateCustomersInMemoryWith 3 host0 10
                         recordProgress recordBatch ([], O))) in
  map (map id) (batchesOf log) = [[1; 2; 3]; [4; 5; 6]; [7; 8; 9]; [10]] /\
  map (fun pt => percent (fst pt) (snd pt)) (progressOf log)
  = [30; 60; 90; 100].
Proof.
  vm_compute. split; reflexivity.
Qed.

(** The loop of the population run with the same total and batch size
    in place of the constants of the source, which it cannot be given:
    the last window is not truncated and the last report exceeds the
    total. *)
Example scenario_populate_10_batch_3 :
  let log := fst (snd (V2.populateDatabaseWith 10 3 host0 db_ok
                         recordProgress recordBatch ([], O))) in
  map (map id) (batchesOf log)
  = [[1; 2; 3]; [4; 5; 6]; [7; 8; 9]; [10; 11; 12]] /\
  progressOf log = [(3, 10); (6, 10); (9, 10); (12, 10)].
Proof.
  vm_compute. split; reflexivity.
Qed.

(** The sort engine on a view with ties: the two records named Mary
    Smith (in either case) keep their order in both directions. *)
Example sort_sample_by_name :
  map id (sortRecords (mkSortConfig col_name asc) sampleView) = [1; 3; 2] /\
  map id (sortRecords (mkSortConfig col_name desc) sampleView) = [3; 2; 1].
Proof.
  vm_compute. split; reflexivity.
Qed.

(** Scenario E of the specification: a query that matches nothing
    gives an empty view, and sorting the empty view gives an empty
    view. *)
Example scenario_no_match :
  let r := filteredCustomers 0%nat (Some "xyz-no-match"%string)
             [sampleView] in
  deref (snd r) (fst r) = [] /\
  deref (snd (sortedCustomers (fst r) (mkSortConfig col_id asc) (snd r)))
        (fst (sortedCustomers (fst r) (mkSortConfig col_id asc) (snd r)))
  = [].
Proof.
  vm_compute. split; reflexivity.
Qed.

(** A batch size of zero never lets the in-memory loop advance: no
    amount of fuel is enough. *)
Lemma V2_generate_zero_batch_diverges (h : Host) (count : Z)
  (fuel : nat) (all : list Customer) (s : list Event * nat) :
  1 <= count ->
  fst (V2.generateLoop fuel h 0 count recordProgress recordBatch 1 all s)
  = None.
Proof.
  intros H. revert all s. induction fuel as [|fuel IH]; intros all s.
  - cbn [V2.generateLoop].
    destruct (1 <=? count) eqn:E; [reflexivity | apply Z.leb_gt in E; lia].
  - rewrite V2_generateLoop_step by assumption. cbv zeta.
    change (1 + 0) with 1. apply IH.
Qed.

(* ------------------------------------------------------------------ *)
(** ** The fields of a generated record *)

Lemma Math_random_range (h : Host) (k : nat) :
  (0 <= fst (Math_random h k) /\ fst (Math_random h k) < 1)%Q.
Proof.
  unfold Math_random. cbn [fst].
  pose proof (Z.mod_pos_bound (random_bits h k) (2 ^ 53) ltac:(reflexivity))
    as [Hlo Hhi].
  split.
  - unfold Qle. cbn [Qnum Qden]. lia.
  - unfold Qlt. cbn [Qnum Qden].
    change (Z.pos (2 ^ 53)) with (2 ^ 53). lia.
Qed.

Lemma Math_random_draws (h : Host) (k : nat) : snd (Math_random h k) = S k.
Proof. reflexivity. Qed.

(** [Math.floor(r * n)] for [r] in [0,1) is one of [0 .. n-1]. *)
Lemma floor_scale (r : Q) (n : Z) :
  (0 <= r)%Q -> (r < 1)%Q -> 0 < n ->
  0 <= Math_floor (r * inject_Z n) < n.
Proof.
  intros H0 H1 Hn. unfold Math_floor.
  assert (Hn' : (0 < inject_Z n)%Q)
    by (unfold Qlt; cbn [Qnum Qden inject_Z]; lia).
  split.
  - rewrite <- (Qfloor_Z 0). apply Qfloor_resp_le.
    apply Qmult_le_0_compat; [assumption | now apply Qlt_le_weak].
  - rewrite Zlt_Qlt.
    eapply Qle_lt_trans; [apply Qfloor_le|].
    rewrite <- (Qmult_1_l (inject_Z n)) at 2.
    now apply Qmult_lt_compat_r.
Qed.

Lemma sample_In (h : Host) (xs : list string) (k : nat) :
  xs <> [] -> In (fst (sample h xs k)) xs.
Proof.
  intros Hne. unfold sample, bind, ret. cbn [fst snd].
  destruct (Math_random_range h k) as [H0 H1].
  assert (Hlen : 0 < Z.of_nat (List.length xs))
    by (destruct xs; [congruence | cbn [List.length]; lia]).
  pose proof (floor_scale _ _ H0 H1 Hlen) as Hi.
  apply nth_In. lia.
Qed.

Lemma sample_draws (h : Host) (xs : list string) (k : nat) :
  snd (sample h xs k) = S k.
Proof. reflexivity. Qed.

Lemma generateCustomer_draws (h : Host) (i : Z) (k : nat) :
  snd (generateCustomer h i k) = (drawsPerCustomer + k)%nat.
Proof. reflexivity. Qed.

Lemma firstNames_nonempty : firstNames <> [].
Proof. discriminate. Qed.
Lemma lastNames_nonempty : lastNames <> [].
Proof. discriminate. Qed.
Lemma domains_nonempty : domains <> [].
Proof. discriminate. Qed.
Lemma avatarColors_nonempty : avatarColors <> [].
Proof. discriminate. Qed.

(** The names, the address and the avatar of a generated record: every
    sampled part is an entry of its pool (the index never leaves the
    pool), the avatar carries the first letters of the two names. *)
Lemma generateCustomer_parts (h : Host) (i : Z) (k : nat) :
  let c := fst (generateCustomer h i k) in
  exists firstName lastName domain addedFirst addedLast : string,
    In firstName firstNames /\ In lastName lastNames /\
    In domain domains /\
    In addedFirst firstNames /\ In addedLast lastNames /\
    name c = (firstName ++ " " ++ lastName)%string /\
    email c = (toLowerCase firstName ++ "." ++ toLowerCase lastName
                 ++ String_of_number i ++ "@" ++ domain)%string /\
    addedBy c = (addedFirst ++ " " ++ addedLast)%string /\
    initials (avatar c) = (charAt0 firstName ++ charAt0 lastName)%string /\
    In (color (avatar c)) avatarColors.
Proof.
  intros c.
  exists (fst (sample h firstNames k)),
         (fst (sample h lastNames (1 + k)%nat)),
         (fst (sample h domains (2 + k)%nat)),
         (fst (sample h firstNames (8 + k)%nat)),
         (fst (sample h lastNames (9 + k)%nat)).
  split; [apply sample_In, firstNames_nonempty|].
  split; [apply sample_In, lastNames_nonempty|].
  split; [apply sample_In, domains_nonempty|].
  split; [apply sample_In, firstNames_nonempty|].
  split; [apply sample_In, lastNames_nonempty|].
  split; [reflexivity|]. split; [reflexivity|]. split; [reflexivity|].
  split; [reflexivity|].
  change (color (avatar c)) with (fst (sample h avatarColors (10 + k)%nat)).
  apply sample_In, avatarColors_nonempty.
Qed.

(** The score is one of 1..100, so the badge class of the table is one
    of [score-0] .. [score-4]. *)
Lemma scoreClass_div (score : Z) : scoreClass score = score / 25.
Proof.
  unfold scoreClass, Math_floor. symmetry. apply (Zdiv_Qdiv score 25).
Qed.

Lemma generateCustomer_score (h : Host) (i : Z) (k : nat) :
  let c := fst (generateCustomer h i k) in
  1 <= score c <= 100 /\ 0 <= scoreClass (score c) <= 4.
Proof.
  intros c.
  assert (Hs : 1 <= score c <= 100).
  { change (score c)
      with (Math_floor (fst (Math_random h (6 + k)%nat) * inject_Z 100) + 1).
    destruct (Math_random_range h (6 + k)%nat) as [H0 H1].
    pose proof (floor_scale _ 100 H0 H1 ltac:(lia)). lia. }
  split; [exact Hs|]. rewrite scoreClass_div.
  split.
  - apply Z.div_pos; lia.
  - apply Z.lt_succ_r. apply Z.div_lt_upper_bound; lia.
Qed.

Lemma String_length_append (a b : string) :
  String.length (a ++ b) = (String.length a + String.length b)%nat.
Proof.
  induction a as [|c a IH]; simpl; [reflexivity | now rewrite IH].
Qed.

(** A check run over a whole range of integers. *)
Lemma forallb_upto (p : Z -> bool) (lo hi : Z) :
  forallb p (upto lo hi) = true ->
  forall z, lo <= z <= hi -> p z = true.
Proof.
  intros H z Hz. rewrite forallb_forall in H. apply H, upto_In, Hz.
Qed.

Lemma String_of_number_3_digits (z : Z) :
  100 <= z <= 999 -> String.length (String_of_number z) = 3%nat.
Proof.
  intros Hz.
  apply Nat.eqb_eq.
  apply (forallb_upto
           (fun z => Nat.eqb (String.length (String_of_number z)) 3)
           100 999); [vm_compute; reflexivity | lia].
Qed.

Lemma String_of_number_4_digits (z : Z) :
  1000 <= z <= 9999 -> String.length (String_of_number z) = 4%nat.
Proof.
  intros Hz.
  apply Nat.eqb_eq.
  apply (forallb_upto
           (fun z => Nat.eqb (String.length (String_of_number z)) 4)
           1000 9999); [vm_compute; reflexivity | lia].
Qed.

(** The phone of a generated record: "+1 (AAA) PPP-LLLL" with an area
    code and a prefix in 100..999 and a line number in 1000..9999, hence
    seventeen characters. *)
Lemma generatePhone_shape (h : Host) (k : nat) :
  exists areaCode prefix lineNumber : Z,
    100 <= areaCode <= 999 /\ 100 <= prefix <= 999 /\
    1000 <= lineNumber <= 9999 /\
    fst (generatePhone h k)
    = ("+1 (" ++ String_of_number areaCode ++ ") "
         ++ String_of_number prefix ++ "-"
         ++ String_of_number lineNumber)%string /\
    String.length (fst (generatePhone h k)) = 17%nat.
Proof.
  destruct (Math_random_range h k) as [A0 A1].
  destruct (Math_random_range h (1 + k)%nat) as [P0 P1].
  destruct (Math_random_range h (2 + k)%nat) as [L0 L1].
  pose proof (floor_scale _ 900 A0 A1 ltac:(lia)) as HA.
  pose proof (floor_scale _ 900 P0 P1 ltac:(lia)) as HP.
  pose proof (floor_scale _ 9000 L0 L1 ltac:(lia)) as HL.
  exists (Math_floor (fst (Math_random h k) * inject_Z 900) + 100),
         (Math_floor (fst (Math_random h (1 + k)%nat) * inject_Z 900) + 100),
         (Math_floor (fst (Math_random h (2 + k)%nat) * inject_Z 9000) + 1000).
  split; [lia|]. split; [lia|]. split; [lia|].
  assert (E : fst (generatePhone h k)
    = ("+1 (" ++ String_of_number
                  (Math_floor (fst (Math_random h k) * inject_Z 900) + 100)
         ++ ") "
         ++ String_of_number
              (Math_floor (fst (Math_random h (1 + k)%nat) * inject_Z 900)
               + 100)
         ++ "-"
         ++ String_of_number
              (Math_floor (fst (Math_random h (2 + k)%nat) * inject_Z 9000)
               + 1000))%string) by reflexivity.
  split; [exact E|]. rewrite E.
  rewrite !String_length_append.
  rewrite !String_of_number_3_digits, String_of_number_4_digits by lia.
  reflexivity.
Qed.

(** The instant of the last message lies in the two years that end at
    the reading of the clock. *)
Lemma ToInteger_between (lo hi : Z) (x : Q) :
  (inject_Z lo <= x)%Q -> (x <= inject_Z hi)%Q -> lo <= ToInteger x <= hi.
Proof.
  intros Hlo Hhi. unfold ToInteger. destruct (Qle_bool 0 x).
  - split.
    + rewrite <- (Qfloor_Z lo). now apply Qfloor_resp_le.
    + rewrite Zle_Qle. eapply Qle_trans; [apply Qfloor_le | exact Hhi].
  - split.
    + rewrite Zle_Qle. eapply Qle_trans; [exact Hlo | apply Qle_ceiling].
    + rewrite <- (Qceiling_Z hi). now apply Qceiling_resp_le.
Qed.

Lemma generateDate_window (h : Host) (k : nat) :
  clock h k - 63072000000 <= fst (generateDate h k) <= clock h k.
Proof.
  unfold generateDate, Date_now, bind, ret. cbv zeta. cbn [fst snd].
  set (now := clock h k).
  replace (now - (now - 2 * 365 * 24 * 60 * 60 * 1000)) with 63072000000
    by lia.
  change (2 * 365 * 24 * 60 * 60 * 1000) with 63072000000.
  destruct (Math_random_range h k) as [H0 H1].
  set (r := fst (Math_random h k)) in *.
  apply ToInteger_between.
  - rewrite <- (Qplus_0_r (inject_Z (now - 63072000000))) at 1.
    apply Qplus_le_r. apply Qmult_le_0_compat; [assumption|].
    unfold Qle; cbn; lia.
  - replace now with ((now - 63072000000) + 63072000000) at 2 by lia.
    rewrite inject_Z_plus. apply Qplus_le_r.
    rewrite <- (Qmult_1_l (inject_Z 63072000000)) at 2.
    apply Qmult_le_compat_r; [now apply Qlt_le_weak|].
    unfold Qle; cbn; lia.
Qed.

(* ------------------------------------------------------------------ *)
(** ** The two revisions generate the same records *)

Lemma generateMany_app (h : Host) (xs ys : list Z) (k : nat) :
  fst (generateMany h (xs ++ ys) k)
  = fst (generateMany h xs k)
    ++ fst (generateMany h ys (snd (generateMany h xs k))) /\
  snd (generateMany h (xs ++ ys) k)
  = snd (generateMany h ys (snd (generateMany h xs k))).
Proof.
  revert k. induction xs as [|i xs IH]; intros k.
  - split; reflexivity.
  - cbn [List.app generateMany]. unfold bind, ret. cbn [fst snd].
    destruct (IH (snd (generateCustomer h i k))) as [IH1 IH2].
    rewrite IH1, IH2. split; reflexivity.
Qed.

Lemma generateMany_ids (h : Host) (xs : list Z) (k : nat) :
  map id (fst (generateMany h xs k)) = xs.
Proof.
  revert k. induction xs as [|i xs IH]; intros k; [reflexivity|].
  cbn [generateMany]. unfold bind, ret. cbn [fst snd map].
  now rewrite IH.
Qed.

Lemma generateMany_draws (h : Host) (xs : list Z) (k : nat) :
  snd (generateMany h xs k)
  = (drawsPerCustomer * List.length xs + k)%nat.
Proof.
  revert k. induction xs as [|i xs IH]; intros k; [reflexivity|].
  cbn [generateMany]. unfold bind, ret. cbn [fst snd].
  rewrite IH, generateCustomer_draws. cbn [List.length]. lia.
Qed.

(** The loop of the first revision returns the records of
    [generateMany], whatever the progress callback does. *)
Lemma V1_generateLoop_records {C : Type} (h : Host) (count : Z)
  (oP : option (Z -> Z -> C -> C)) (xs : list Z) (acc : list Customer)
  (s : C * nat) :
  fst (forEach xs (V1.generateStep h count oP) acc s)
  = acc ++ fst (generateMany h xs (snd s)) /\
  snd (snd (forEach xs (V1.generateStep h count oP) acc s))
  = snd (generateMany h xs (snd s)).
Proof.
  revert acc s. induction xs as [|i xs IH]; intros acc s.
  - cbn. now rewrite app_nil_r.
  - rewrite forEach_cons.
    destruct (IH (fst (V1.generateStep h count oP i acc s))
                 (snd (V1.generateStep h count oP i acc s))) as [IH1 IH2].
    rewrite IH1, IH2. clear IH IH1 IH2.
    assert (E1 : fst (V1.generateStep h count oP i acc s)
                 = acc ++ [fst (generateCustomer h i (snd s))]).
    { unfold V1.generateStep, bind, ret, liftGen. cbv zeta. cbn [fst snd].
      reflexivity. }
    assert (E2 : snd (snd (V1.generateStep h count oP i acc s))
                 = snd (generateCustomer h i (snd s))).
    { unfold V1.generateStep, bind, ret, liftGen, callProgress.
      cbv zeta. cbn [fst snd].
      destruct (Z.rem i V1.BATCH_SIZE =? 0); [destruct oP|]; reflexivity. }
    rewrite E1, E2. cbn [generateMany]. unfold bind, ret. cbn [fst snd].
    rewrite <- app_assoc. split; reflexivity.
Qed.

Lemma generateBatch_acc_records {C : Type} (h : Host) (ids : list Z)
  (acc : list Customer) (s : C * nat) :
  let r := forEach ids
             (fun i (batchCustomers : list Customer) =>
                customer <- liftGen (generateCustomer h i) ;;
                ret (batchCustomers ++ [customer])) acc s in
  fst r = acc ++ fst (generateMany h ids (snd s)) /\
  snd (snd r) = snd (generateMany h ids (snd s)).
Proof.
  revert acc s. induction ids as [|i ids IH]; intros acc s.
  - cbn. now rewrite app_nil_r.
  - cbv zeta. rewrite forEach_cons.
    match goal with
    | |- context [forEach ids ?b ?a ?t] =>
        destruct (IH a t) as [IH1 IH2]
    end.
    rewrite IH1, IH2. clear IH IH1 IH2.
    unfold bind, ret, liftGen. cbn [fst snd generateMany].
    unfold bind, ret. cbn [fst snd].
    rewrite <- app_assoc. split; reflexivity.
Qed.

Lemma V2_generateBatch_records {C : Type} (h : Host) (ids : list Z)
  (s : C * nat) :
  fst (V2.generateBatch h ids s) = fst (generateMany h ids (snd s)) /\
  fst (snd (V2.generateBatch h ids s)) = fst s /\
  snd (snd (V2.generateBatch h ids s)) = snd (generateMany h ids (snd s)).
Proof.
  destruct (generateBatch_acc_records h ids [] s) as [H1 H2].
  destruct (generateBatch_acc h ids [] s) as [_ H3].
  unfold V2.generateBatch. split; [exact H1 | split; [exact H3 | exact H2]].
Qed.

Lemma callbacks_keep_draws {C : Type} (oP : option (Z -> Z -> C -> C))
  (oB : option (list Customer -> C -> C)) (p t : Z) (b : list Customer)
  (s : C * nat) :
  snd (snd (callBatch oB b (snd (callProgress oP p t s)))) = snd s.
Proof.
  unfold callBatch, callProgress. destruct oP, oB; reflexivity.
Qed.

Lemma V2_generateLoop_records {C : Type} (h : Host) (B count : Z)
  (oP : option (Z -> Z -> C -> C)) (oB : option (list Customer -> C -> C)) :
  0 < B ->
  forall (fuel : nat) (start : Z) (all : list Customer) (s : C * nat),
    Z.max 0 (count - start + 1) <= Z.of_nat fuel ->
    fst (V2.generateLoop fuel h B count oP oB start all s)
    = Some (all ++ fst (generateMany h (upto start count) (snd s))) /\
    snd (snd (V2.generateLoop fuel h B count oP oB start all s))
    = snd (generateMany h (upto start count) (snd s)).
Proof.
  intros HB. induction fuel as [|fuel IH]; intros start all s Hfuel.
  - rewrite V2_generateLoop_exit by lia.
    rewrite upto_empty by lia. cbn. now rewrite app_nil_r.
  - destruct (Z_lt_le_dec count start) as [Hout|Hin].
    + rewrite V2_generateLoop_exit by lia.
      rewrite upto_empty by lia. cbn. now rewrite app_nil_r.
    + rewrite V2_generateLoop_step by assumption. cbv zeta.
      set (batchEnd := Z.min (start + B - 1) count).
      destruct (V2_generateBatch_records h (upto start batchEnd) s)
        as [R1 [_ R3]].
      match goal with
      | |- context [V2.generateLoop fuel h B count oP oB ?st ?a ?t] =>
          destruct (IH st a t ltac:(lia)) as [IH1 IH2]
      end.
      rewrite IH1, IH2, callbacks_keep_draws, R1, R3. clear IH1 IH2.
      assert (E : upto start count
                  = upto start batchEnd ++ upto (start + B) count).
      { destruct (Z_lt_le_dec (start + B - 1) count) as [Hlt|Hge].
        - replace batchEnd with (start + B - 1) by (unfold batchEnd; lia).
          rewrite <- (upto_app start (start + B - 1) count) by lia.
          replace (start + B - 1 + 1) with (start + B) by lia.
          reflexivity.
        - replace batchEnd with count by (unfold batchEnd; lia).
          rewrite (upto_empty (start + B)) by lia. now rewrite app_nil_r. }
      rewrite E.
      destruct (generateMany_app h (upto start batchEnd)
                  (upto (start + B) count) (snd s)) as [A1 A2].
      rewrite A1, A2, <- app_assoc. split; reflexivity.
Qed.

(* ------------------------------------------------------------------ *)
(** ** Generated addresses are unique *)

Lemma String_of_number_inj (a b : Z) :
  String_of_number a = String_of_number b -> a = b.
Proof.
  unfold String_of_number. intros H.
  assert (N : forall z, NilZero.int_of_string
                          (NilZero.string_of_int (Z.to_int z))
                        = Some (Z.to_int z)).
  { intros z. apply NilZero.isi; destruct z; cbn; try discriminate;
      intros E; injection E; apply DecimalPos.Unsigned.to_uint_nonnil. }
  pose proof (N a) as Ha. rewrite H, N in Ha. injection Ha as Ha.
  rewrite <- (DecimalZ.of_to a), <- (DecimalZ.of_to b). now rewrite Ha.
Qed.

Lemma allDigits_uint (d : Decimal.uint) :
  allDigits (NilEmpty.string_of_uint d) = true.
Proof.
  induction d; cbn; try assumption; reflexivity.
Qed.

Lemma String_of_number_digits (z : Z) :
  0 <= z ->
  allDigits (String_of_number z) = true /\
  String_of_number z <> EmptyString.
Proof.
  intros Hz. unfold String_of_number.
  destruct z as [|p|p]; [split; [reflexivity | discriminate] | | lia].
  cbn [Z.to_int NilZero.string_of_int].
  pose proof (DecimalPos.Unsigned.to_uint_nonnil p) as Hn.
  pose proof (allDigits_uint (Pos.to_uint p)) as Hd.
  unfold NilZero.string_of_uint.
  destruct (Pos.to_uint p); try congruence;
    (split; [exact Hd | discriminate]).
Qed.

Lemma fromFirstDigit_skip (a b : string) :
  noDigit a = true -> fromFirstDigit (a ++ b) = fromFirstDigit b.
Proof.
  induction a as [|c a IH]; cbn; [reflexivity|].
  destruct (isDigit c); cbn; [discriminate | exact IH].
Qed.

Lemma fromFirstDigit_digits (n b : string) :
  allDigits n = true -> n <> EmptyString ->
  fromFirstDigit (n ++ b) = (n ++ b)%string.
Proof.
  destruct n as [|c n]; [congruence|]. cbn.
  destruct (isDigit c); [reflexivity | discriminate].
Qed.

Lemma leadingDigits_stop (n : string) (c : ascii) (b : string) :
  allDigits n = true -> isDigit c = false ->
  leadingDigits (n ++ String c b) = n.
Proof.
  intros Hn Hc. induction n as [|d n IH]; cbn.
  - now rewrite Hc.
  - cbn in Hn. destruct (isDigit d); [|discriminate].
    cbn in Hn. now rewrite (IH Hn).
Qed.

Lemma names_carry_no_digit :
  forallb (fun s => noDigit (toLowerCase s)) firstNames = true /\
  forallb (fun s => noDigit (toLowerCase s)) lastNames = true.
Proof. split; reflexivity. Qed.

(** The identifier can be read back from a generated address. *)
Lemma digitsOfEmail_generated (h : Host) (i : Z) (k : nat) :
  0 <= i ->
  digitsOfEmail (email (fst (generateCustomer h i k))) = String_of_number i.
Proof.
  intros Hi.
  destruct (generateCustomer_parts h i k)
    as [f [l [d [af [al [Hf [Hl [_ [_ [_ [_ [He _]]]]]]]]]]]].
  cbv zeta in He. rewrite He. clear He.
  destruct names_carry_no_digit as [NF NL].
  rewrite forallb_forall in NF, NL.
  destruct (String_of_number_digits i Hi) as [Hd Hne].
  unfold digitsOfEmail.
  rewrite fromFirstDigit_skip by (apply NF, Hf).
  change ("." ++ toLowerCase l ++ String_of_number i ++ "@" ++ d)%string
    with (String "." (toLowerCase l ++ String_of_number i ++ "@" ++ d)).
  cbn [fromFirstDigit]. change (isDigit ".") with false. cbv iota.
  rewrite fromFirstDigit_skip by (apply NL, Hl).
  rewrite fromFirstDigit_digits by assumption.
  apply leadingDigits_stop; [assumption | reflexivity].
Qed.

Lemma generated_email_determines_id (h h' : Host) (i j : Z) (k k' : nat) :
  0 <= i -> 0 <= j ->
  email (fst (generateCustomer h i k)) = email (fst (generateCustomer h' j k'))
  -> i = j.
Proof.
  intros Hi Hj E. apply String_of_number_inj.
  rewrite <- (digitsOfEmail_generated h i k Hi).
  rewrite <- (digitsOfEmail_generated h' j k' Hj).
  now rewrite E.
Qed.

Lemma generateMany_emails (h : Host) (xs : list Z) (k : nat) :
  Forall (fun i => 0 <= i) xs ->
  map (fun c => digitsOfEmail (email c)) (fst (generateMany h xs k))
  = map String_of_number xs.
Proof.
  revert k. induction xs as [|i xs IH]; intros k Hxs; [reflexivity|].
  inversion Hxs as [|? ? Hi Hxs']; subst.
  cbn [generateMany]. unfold bind, ret. cbn [fst snd map].
  rewrite IH by assumption. now rewrite digitsOfEmail_generated.
Qed.

Lemma NoDup_map_injective {A B : Type} (f : A -> B) (l : list A) :
  (forall a b, f a = f b -> a = b) -> NoDup l -> NoDup (map f l).
Proof.
  intros Hf Hl. induction Hl as [|x l Hx Hl IH]; cbn; constructor.
  - intros Hin. apply in_map_iff in Hin. destruct Hin as [y [Hy Hin]].
    apply Hf in Hy. now subst y.
  - exact IH.
Qed.

Lemma generateMany_emails_NoDup (h : Host) (N : Z) (k : nat) :
  NoDup (map email (fst (generateMany h (upto 1 N) k))).
Proof.
  apply (NoDup_map_inv digitsOfEmail). rewrite map_map.
  rewrite generateMany_emails.
  - apply NoDup_map_injective.
    + intros a b. apply String_of_number_inj.
    + apply iota_NoDup.
  - apply Forall_forall. intros i Hi. apply upto_In in Hi. lia.
Qed.

(* ------------------------------------------------------------------ *)
(** ** Population: what is reported when a transaction fails *)

Lemma V1_addBatch_frame {C : Type} (h : Host) (B batch : Z) (s : C * nat) :
  fst (snd (V1.addBatch h B batch s)) = fst s.
Proof.
  unfold V1.addBatch. apply forEach_frame. reflexivity.
Qed.

(** The first revision's loop, for any consumer: the transactions
    [batch .. j-1] complete and, unless [j] is the number of batches,
    transaction [j] does not.  The consumer has then been told of the
    batches [batch+1 .. j] and of nothing else. *)
Lemma V1_populateLoop_trace {C : Type} (h : Host) (db : IDBDatabase)
  (N B : Z) (oP : option (Z -> Z -> C -> C)) :
  0 < B ->
  forall (fuel : nat) (batch j : Z) (s : C * nat),
    batch <= j <= (N + B - 1) / B ->
    (forall b, batch <= b < j -> writeTx db b = TxComplete) ->
    (j < (N + B - 1) / B -> writeTx db j <> TxComplete) ->
    Z.max 0 ((N + B - 1) / B - batch) <= Z.of_nat fuel ->
    let r := V1.populateLoop fuel h db N B oP batch (batch * B) s in
    fst (snd r)
    = fold_left (applyProgress oP N)
        (map (fun i => i * B) (upto (batch + 1) j)) (fst s) /\
    (j = (N + B - 1) / B -> fst r = Some (Resolved tt)) /\
    (j < (N + B - 1) / B -> exists m, fst r = Some (Rejected m)).
Proof.
  intros HB. set (c := (N + B - 1) / B).
  assert (Hcond : forall batch,
            lt_quotient batch N B = true <-> batch < c).
  { intros batch. rewrite lt_quotient_pos by assumption.
    rewrite Z.ltb_lt. apply lt_quotient_ceiling. assumption. }
  induction fuel as [|fuel IH]; intros batch j s Hj Hok Hbad Hfuel r.
  - assert (E : lt_quotient batch N B = false).
    { destruct (lt_quotient batch N B) eqn:E; [|reflexivity].
      apply Hcond in E. lia. }
    subst r. cbn [V1.populateLoop]. rewrite E. cbn [ret fst snd].
    rewrite upto_empty by lia. cbn.
    split; [reflexivity|]. split; [reflexivity | lia].
  - destruct (Z_le_gt_dec c batch) as [Hout|Hin].
    + assert (E : lt_quotient batch N B = false).
      { destruct (lt_quotient batch N B) eqn:E; [|reflexivity].
        apply Hcond in E. lia. }
      subst r. cbn [V1.populateLoop]. rewrite E. cbn [ret fst snd].
      rewrite upto_empty by lia. cbn.
      split; [reflexivity|]. split; [reflexivity | lia].
    + assert (E : lt_quotient batch N B = true) by (apply Hcond; lia).
      subst r. cbn [V1.populateLoop]. rewrite E.
      pose proof (V1_addBatch_frame h B batch s) as Hgen.
      set (gen := V1.addBatch h B batch s) in *.
      destruct (Z.eq_dec batch j) as [->|Hne].
      * (* the transaction that does not complete *)
        specialize (Hbad ltac:(lia)).
        rewrite upto_empty by lia. cbn [map fold_left].
        destruct (writeTx db j) eqn:Htx; [| congruence | |].
        -- cbn [ret fst snd]. split; [reflexivity|].
           split; [lia | intros _; eexists; reflexivity].
        -- unfold bind at 1. cbv zeta. fold gen. cbn [ret fst snd].
           split; [exact Hgen|].
           split; [lia | intros _; eexists; reflexivity].
        -- unfold bind at 1. cbv zeta. fold gen. cbn [ret fst snd].
           split; [exact Hgen|].
           split; [lia | intros _; eexists; reflexivity].
      * rewrite (Hok batch) by lia.
        unfold bind at 1. cbv zeta. fold gen.
        unfold bind at 1. cbv zeta.
        replace (batch * B + B) with ((batch + 1) * B) by lia.
        set (s' := snd (callProgress oP ((batch + 1) * B) N (snd gen))).
        destruct (IH (batch + 1) j s') as [F [Hres Hrej]]; try lia.
        { intros b Hb. apply Hok. lia. }
        { exact Hbad. }
        cbv zeta in F, Hres, Hrej.
        split; [|split; [exact Hres | exact Hrej]].
        rewrite F.
        rewrite <- (upto_app (batch + 1) (batch + 1) j) by lia.
        replace (upto (batch + 1) (batch + 1)) with [batch + 1]
          by (unfold upto; replace (Z.to_nat (batch + 1 - (batch + 1) + 1))
                with 1%nat by lia; reflexivity).
        cbn [List.app map fold_left]. f_equal.
        subst s'. unfold callProgress, applyProgress.
        destruct oP; cbn [fst snd]; now rewrite Hgen.
Qed.

Lemma fold_report_progress (total : Z) (xs : list Z) (w : World) :
  xs <> [] ->
  progress (app (fold_left (applyProgress reportProgress total) xs w))
  = percent (last xs 0) total.
Proof.
  revert w. induction xs as [|i xs IH]; intros w Hne; [congruence|].
  cbn [fold_left]. destruct xs as [|i' xs].
  - reflexivity.
  - rewrite IH by discriminate. reflexivity.
Qed.


Lemma percent_of_batch (j : Z) :
  1 <= j <= 100 -> percent (j * 10000) 1000000 = percentOfBatch j.
Proof.
  intros Hj. apply Z.eqb_eq.
  apply (forallb_upto
           (fun j => percent (j * 10000) 1000000 =? percentOfBatch j) 1 100);
    [vm_compute; reflexivity | exact Hj].
Qed.

Lemma upto_singleton (a : Z) : upto a a = [a].
Proof.
  unfold upto. replace (Z.to_nat (a - a + 1)) with 1%nat by lia. reflexivity.
Qed.

Lemma upto_cons (a b : Z) : a <= b -> upto a b = a :: upto (a + 1) b.
Proof.
  intros H. rewrite <- (upto_app a a b) by lia. now rewrite upto_singleton.
Qed.

(** The second revision's loop observed by a recording consumer: the
    transactions [batch .. j-1] complete and transaction [j] does not.
    The consumer has received the batches [batch .. j-1], each after its
    progress report, and nothing of batch [j]. *)
Lemma V2_populateLoop_prefix (h : Host) (db : IDBDatabase) (N B : Z) :
  0 < B ->
  forall (fuel : nat) (batch j : Z) (s : list Event * nat),
    batch <= j < (N + B - 1) / B ->
    (forall b, batch <= b < j -> writeTx db b = TxComplete) ->
    writeTx db j <> TxComplete ->
    Z.max 0 ((N + B - 1) / B - batch) <= Z.of_nat fuel ->
    let r := V2.populateLoop fuel h db N B recordProgress recordBatch
               batch (batch * B) s in
    exists batches : list (list Customer),
      (exists m, fst r = Some (Rejected m)) /\
      fst (snd r) = fst s ++ batchEvents N batches /\
      List.concat (map (map id) batches) = upto (batch * B + 1) (j * B) /\
      map (fun b => last (map id b) 0) batches
      = map (fun i => i * B) (upto (batch + 1) j).
Proof.
  intros HB. set (c := (N + B - 1) / B).
  assert (Hcond : forall batch, batch < c -> lt_quotient batch N B = true).
  { intros batch Hb. rewrite lt_quotient_pos by assumption.
    apply Z.ltb_lt. apply lt_quotient_ceiling; assumption. }
  induction fuel as [|fuel IH]; intros batch j s Hj Hok Hbad Hfuel r; [lia|].
  subst r.
  set (ids := map (fun i => batch * B + i + 1) (upto 0 (B - 1))).
  assert (Hids' : ids = upto (batch * B + 1) (batch * B + B)).
  { subst ids. rewrite map_shift_upto. f_equal; lia. }
  destruct (generateBatch_spec h ids s) as [Hids Hcons].
  destruct (Z.eq_dec batch j) as [->|Hne].
  - exists []. cbn [V2.populateLoop]. rewrite (Hcond j) by lia.
    unfold bind at 1. cbv zeta. fold ids.
    rewrite !upto_empty by lia. cbn [batchEvents flat_map map List.concat].
    rewrite app_nil_r.
    destruct (writeTx db j) eqn:Htx; [| congruence | |];
      cbn [ret fst snd];
      (split; [eexists; reflexivity|];
       split; [exact Hcons | split; reflexivity]).
  - rewrite V2_populateLoop_commit; [| apply Hcond; lia | apply Hok; lia].
    cbv zeta. fold ids.
    set (r := V2.generateBatch h ids s) in *.
    replace (batch * B + B) with ((batch + 1) * B) in Hids' |- * by lia.
    set (s' := snd (callBatch recordBatch (fst r)
                 (snd (callProgress recordProgress ((batch + 1) * B) N
                         (snd r))))).
    destruct (IH (batch + 1) j s') as [bs [H1 [H2 [H3 H4]]]]; try lia.
    { intros b Hb. apply Hok. lia. }
    { exact Hbad. }
    cbv zeta in H1, H2.
    assert (Hend : last (map id (fst r)) 0 = (batch + 1) * B)
      by (rewrite Hids, Hids', upto_last; lia).
    exists (fst r :: bs). split; [exact H1|]. rewrite H2.
    split; [|split].
    + subst s'. cbn. rewrite Hcons. unfold batchEvents. cbn [flat_map].
      rewrite Hend. rewrite <- !app_assoc. reflexivity.
    + cbn [map List.concat]. rewrite Hids, H3, Hids'.
      apply upto_app; nia.
    + cbn [map]. rewrite Hend, H4. symmetry.
      rewrite (upto_cons (batch + 1) j) by lia. reflexivity.
Qed.

(* ------------------------------------------------------------------ *)
(** ** What a session leaves behind *)

Lemma last_reported (count : Z) :
  0 < count -> Z.rem count V1.BATCH_SIZE = 0 ->
  filter reportedAt (upto 1 count) <> [] /\
  last (filter reportedAt (upto 1 count)) 0 = count.
Proof.
  intros Hpos Hrem.
  rewrite (upto_snoc 1 count) by lia. rewrite filter_app. cbn [filter].
  unfold reportedAt at 2 4. rewrite Hrem. cbn [Z.eqb].
  split; [|apply last_last].
  intros E. apply app_eq_nil in E. destruct E as [_ E]. discriminate.
Qed.

Lemma V1_generate_final_progress (h : Host) (count : Z) (s : World * nat) :
  0 < count -> Z.rem count V1.BATCH_SIZE = 0 ->
  progress (app (fst (snd (V1.generateCustomersInMemory h count
                             reportProgress s)))) = percent count count.
Proof.
  intros Hpos Hrem. unfold V1.generateCustomersInMemory.
  destruct (V1_generateLoop_spec h count reportProgress (upto 1 count) [] s)
    as [_ ->].
  destruct (last_reported count Hpos Hrem) as [Hne Hlast].
  rewrite fold_report_progress by exact Hne.
  now rewrite Hlast.
Qed.

Lemma callGenerate_progress (env : Browser) (count : Z) (s : World * nat) :
  0 < count -> Z.rem count V1.BATCH_SIZE = 0 ->
  fitsHeap env (List.length (filter isGenerate (calls (fst s)))) count
  = true ->
  progress (app (fst (snd (callGenerateCustomersInMemory env count
                             reportProgress s)))) = percent count count.
Proof.
  intros Hpos Hrem Hfit.
  unfold callGenerateCustomersInMemory, fitsHeap in *. cbv zeta.
  destruct (heapLimit env _) as [[fits m]|].
  - destruct (fits <? count); [discriminate|]. cbn [fst snd].
    now apply V1_generate_final_progress.
  - cbn [fst snd]. now apply V1_generate_final_progress.
Qed.

Lemma recover_progress (env : Browser) (err : string) (s : World * nat) :
  fitsHeap env (List.length (filter isGenerate (calls (fst s)))) 1000000
  = true ->
  progress (app (fst (snd (recover env err s)))) = 100.
Proof.
  intros Hfit. unfold recover. run_task.
  set (s1 := (mkWorld (setUseMemoryStorage true
                         (setError (Some (messageOrDefault err))
                            (app (fst s)))) (calls (fst s)), snd s)).
  pose proof (callGenerate_spec env 1000000 s1) as G. cbv zeta in G.
  pose proof (callGenerate_progress env 1000000 s1 ltac:(reflexivity)
                ltac:(reflexivity) Hfit) as P.
  change (calls (fst s1)) with (calls (fst s)) in G.
  destruct G as [_ [_ [_ [_ [_ [_ [Gok _]]]]]]].
  destruct (Gok Hfit) as [cs [Hr _]].
  rewrite Hr. run_state. rewrite <- percent_complete. exact P.
Qed.

Lemma existsb_isGenerate_snoc (pre : list Call) :
  existsb isGenerate (pre ++ [CallGenerate]) = true.
Proof.
  rewrite existsb_app. cbn. apply orb_true_r.
Qed.

(** The catch block entered with an empty working set. *)
Lemma recover_summary (env : Browser) (e : string) (s : World * nat)
  (pre : list Call) :
  calls (fst s) = pre -> customers (app (fst s)) = [] ->
  In (pre ++ [CallGenerate]) initDataCallLogs ->
  fst (recover env e s) = Some (Resolved tt) /\
  sessionSummary (fst (snd (recover env e s))).
Proof.
  intros Hpre Hcust Hin.
  pose proof (recover_spec env e s) as R. cbv zeta in R.
  pose proof (recover_progress env e s) as P.
  destruct R as [Rr [Rc [Ru [Rl [_ [Rok Rfail]]]]]].
  split; [exact Rr|]. unfold sessionSummary.
  rewrite Rc, Ru, Rl, Hpre, existsb_isGenerate_snoc. cbn [orb].
  split; [exact Hin|]. split; [reflexivity|]. split; [reflexivity|].
  destruct (fitsHeap env _ 1000000).
  - destruct (Rok eq_refl) as [He Hids]. rewrite He.
    split; [now left|]. split; [intros _ _; exact Hids|].
    intros _. now apply P.
  - destruct (Rfail eq_refl) as [He Hc]. rewrite He, Hc, Hcust.
    split; [right; split; [|split]; reflexivity|]. split; discriminate.
Qed.

Lemma V1_populateDatabase_progress (h : Host) (db : IDBDatabase)
  (s : World * nat) :
  (forall b, 0 <= b < 100 -> writeTx db b = TxComplete) ->
  progress (app (fst (snd (V1.populateDatabase h db reportProgress s))))
  = 100.
Proof.
  intros Hall. unfold V1.populateDatabase.
  destruct (V1_populateLoop_trace h db V1.TOTAL_RECORDS V1.BATCH_SIZE
              reportProgress ltac:(reflexivity)
              (Z.to_nat V1.TOTAL_RECORDS) 0 100 s) as [F _].
  - vm_compute. split; discriminate.
  - exact Hall.
  - vm_compute. discriminate.
  - vm_compute. discriminate.
  - cbv zeta in F. change (0 * V1.BATCH_SIZE) with 0 in F. rewrite F.
    rewrite fold_report_progress by (vm_compute; discriminate).
    vm_compute. reflexivity.
Qed.

(** Every session that ends, whatever else the browser does. *)
Lemma initData_summary (env : Browser) :
  ~ openStaysBlocked env ->
  fst (start env) = Some (Resolved tt) /\ sessionSummary (snd (start env)).
Proof.
  intros Hnb. unfold start, initData. run_task.
  unfold initialWorld. cbn [app calls List.app].
  destruct (isIndexedDBAvailable env) eqn:Hp; cbn [negb]; run_task.
  - (* the store is tried *)
    destruct (initializeDatabase env) as [[database|m]|] eqn:Hopen; run_task.
    2:{ apply (recover_summary env m _ [CallProbe; CallOpen; CallProbe]);
          [reflexivity | reflexivity | cbn; tauto]. }
    2:{ exfalso. apply Hnb. now apply initializeDatabase_pending. }
    destruct (isDatabasePopulated database) as [[|]|m] eqn:Hpop;
      cbn [negb]; run_task.
    + (* already populated *)
      unfold loadCustomers. run_task.
      destruct (getAllReq database) as [m|result|m] eqn:Hget; run_task.
      * apply (recover_summary env _ _
                 [CallProbe; CallOpen; CallProbe; CallIsPopulated;
                  CallReadAll]);
          [reflexivity | reflexivity | cbn; tauto].
      * run_state. split; [reflexivity|]. unfold sessionSummary.
        run_state.
        split; [cbn; tauto|]. split; [reflexivity|]. split; [reflexivity|].
        split; [now left|]. split; [discriminate | reflexivity].
      * apply (recover_summary env _ _
                 [CallProbe; CallOpen; CallProbe; CallIsPopulated;
                  CallReadAll]);
          [reflexivity | reflexivity | cbn; tauto].
    + (* to be populated *)
      unfold callPopulateDatabase. run_task.
      match goal with
      | |- context [V1.populateDatabase ?h ?d reportProgress ?s] =>
          pose proof (V1_populateDatabase_spec h d s) as Q;
          pose proof (V1_populateDatabase_progress h d s) as QP;
          set (p := V1.populateDatabase h d reportProgress s) in *
      end.
      cbv zeta in Q. destruct Q as [[Pc [Pcu [Pl [Pe [Pu Pd]]]]] [Pok Pfail]].
      cbn [fst app calls customers loading error useMemoryStorage db
           setDb setError] in Pc, Pcu, Pl, Pe, Pu.
      destruct (populate_commits_or_fails database) as [Hw|Hw].
      * rewrite (Pok Hw). run_task. unfold loadCustomers. run_task.
        destruct (getAllReq database) as [m|result|m] eqn:Hget; run_task.
        -- apply (recover_summary env _ _
                    [CallProbe; CallOpen; CallProbe; CallIsPopulated;
                     CallPopulate; CallReadAll]).
           ++ cbn [fst calls]. now rewrite Pc.
           ++ cbn [fst app]. exact Pcu.
           ++ cbn; tauto.
        -- run_state. split; [reflexivity|]. unfold sessionSummary.
           run_state.
           rewrite Pc, Pe, Pu, (QP Hw).
           split; [cbn; tauto|]. split; [reflexivity|].
           split; [reflexivity|]. split; [now left|].
           split; [discriminate | reflexivity].
        -- apply (recover_summary env _ _
                    [CallProbe; CallOpen; CallProbe; CallIsPopulated;
                     CallPopulate; CallReadAll]).
           ++ cbn [fst calls]. now rewrite Pc.
           ++ cbn [fst app]. exact Pcu.
           ++ cbn; tauto.
      * destruct (Pfail Hw) as [m Hm]. rewrite Hm. run_task.
        apply (recover_summary env _ _
                 [CallProbe; CallOpen; CallProbe; CallIsPopulated;
                  CallPopulate]).
        -- exact Pc.
        -- exact Pcu.
        -- cbn; tauto.
    + apply (recover_summary env _ _
               [CallProbe; CallOpen; CallProbe; CallIsPopulated]);
        [reflexivity | reflexivity | cbn; tauto].
  - (* no store *)
    set (s1 := (mkWorld (setUseMemoryStorage true (setError None initialState))
                  [CallProbe], O)).
    pose proof (callGenerate_spec env 1000000 s1) as G. cbv zeta in G.
    pose proof (callGenerate_progress env 1000000 s1 ltac:(reflexivity)
                  ltac:(reflexivity)) as GP.
    change (List.length (filter isGenerate (calls (fst s1)))) with O in G, GP.
    destruct G as [Gc [Gcust [Gl [Ge [Gu [Gd [Gok Gfail]]]]]]].
    destruct (fitsHeap env 0 1000000) eqn:Hfit.
    + destruct (Gok eq_refl) as [cs [Hr Hids]].
      rewrite Hr. run_state. split; [reflexivity|]. unfold sessionSummary.
      run_state.
      rewrite Gc, Gu, Ge, (GP eq_refl), percent_complete.
      split; [cbn; tauto|]. split; [reflexivity|]. split; [reflexivity|].
      split; [now left|]. split; [intros _ _; exact Hids | reflexivity].
    + destruct (Gfail eq_refl) as [m Hr].
      rewrite Hr. run_state.
      apply (recover_summary env m _ [CallProbe; CallGenerate]).
      * exact Gc.
      * exact Gcust.
      * cbn; tauto.
Qed.

(* ------------------------------------------------------------------ *)
(** ** Refining a search *)

Lemma isSubstringOf_trans (a b c : string) :
  isSubstringOf a b -> isSubstringOf b c -> isSubstringOf a c.
Proof.
  intros [p [q Hb]] [p' [q' Hc]]. subst b c.
  exists (p' ++ p)%string, (q ++ q')%string.
  assert (A : forall x y z : string, ((x ++ y) ++ z = x ++ (y ++ z))%string).
  { intros x y z. induction x as [|ch x IH]; cbn; [reflexivity|].
    now rewrite IH. }
  now rewrite !A.
Qed.

Lemma matchesSearch_weaken (t t' : string) (c : Customer) :
  isSubstringOf t t' ->
  matchesSearch t' c = true -> matchesSearch t c = true.
Proof.
  intros Hsub. unfold matchesSearch. rewrite !orb_true_iff, !includes_iff.
  intros [[H|H]|H]; [left; left | left; right | right];
    exact (isSubstringOf_trans _ _ _ Hsub H).
Qed.

Lemma filter_filter_implied {A : Type} (p q : A -> bool) (l : list A) :
  (forall x, p x = true -> q x = true) ->
  filter p (filter q l) = filter p l.
Proof.
  intros H. induction l as [|x l IH]; cbn; [reflexivity|].
  destruct (q x) eqn:Q; cbn.
  - now rewrite IH.
  - destruct (p x) eqn:P; [|exact IH].
    rewrite (H x P) in Q. discriminate.
Qed.

Lemma filteredCustomers_view (m : Heap) (r : ArrayRef) (q : string) :
  deref (snd (filteredCustomers r (Some q) m))
        (fst (filteredCustomers r (Some q) m))
  = match q with
    | EmptyString => deref m r
    | _ => filter (matchesSearch (toLowerCase q)) (deref m r)
    end.
Proof.
  destruct q as [|ch q]; [reflexivity|].
  rewrite filteredCustomers_nonempty by discriminate. apply deref_alloc.
Qed.

(* ------------------------------------------------------------------ *)
(** ** More on the sort engine *)

Lemma js_tie_eq (a b : Value) :
  isNum a = isNum b -> js_lt a b = false -> js_lt b a = false -> a = b.
Proof.
  destruct a as [x|s], b as [y|t]; cbn; try discriminate; intros _ H1 H2.
  - apply Z.ltb_ge in H1, H2. f_equal. lia.
  - f_equal. unfold String.ltb in H1, H2.
    rewrite String.compare_antisym in H2.
    destruct (String.compare s t) eqn:E; cbn in *; try discriminate.
    now apply String.compare_eq_iff.
Qed.

Lemma tiedBy_compareFn (d : Direction) (x y : Decorated) :
  tiedBy (compareFn d) x y
  = negb (js_lt (compareValue x) (compareValue y)) &&
    negb (js_lt (compareValue y) (compareValue x)).
Proof.
  unfold tiedBy.
  destruct (compareFn d x y =? 0) eqn:E.
  - apply Z.eqb_eq, compareFn_zero in E. destruct E as [-> ->]. reflexivity.
  - apply Z.eqb_neq in E. rewrite compareFn_zero in E.
    destruct (js_lt (compareValue x) (compareValue y)),
             (js_lt (compareValue y) (compareValue x)); try reflexivity.
    exfalso. apply E. split; reflexivity.
Qed.

Lemma tiedBy_direction (d d' : Direction) (x y : Decorated) :
  tiedBy (compareFn d) x y = tiedBy (compareFn d') x y.
Proof. now rewrite !tiedBy_compareFn. Qed.

(** The sort keeps every class of ties in its sequence. *)
Lemma Array_sort_ties (c : Column) (d : Direction) (l : list Decorated)
  (x : Decorated) :
  Forall (ofColumn c) l -> ofColumn c x ->
  filter (tiedBy (compareFn d) x) (Array_sort (compareFn d) l)
  = filter (tiedBy (compareFn d) x) l.
Proof.
  intros Hl Dx. apply Array_sort_filter.
  intros a b Ia Ib Ha Hb. unfold tiedBy in Ha, Hb.
  apply Z.eqb_eq in Ha, Hb. apply compareFn_zero in Ha, Hb.
  rewrite Forall_forall in Hl.
  pose proof (Hl a Ia) as Da. pose proof (Hl b Ib) as Db.
  unfold ofColumn in *. apply compareFn_le. destruct d.
  - apply (js_nlt_trans (compareValue a) (compareValue x) (compareValue b));
      (congruence || tauto).
  - apply (js_nlt_trans (compareValue b) (compareValue x) (compareValue a));
      (congruence || tauto).
Qed.

Lemma Array_sort_ofColumn (c : Column) (d : Direction) (l : list Decorated) :
  Forall (ofColumn c) l -> Forall (ofColumn c) (Array_sort (compareFn d) l).
Proof.
  intros H. rewrite Forall_forall in *. intros y Hy. apply H.
  now apply (proj1 (Array_sort_In (compareFn d) y l)).
Qed.

Lemma Array_sort_in_order (c : Column) (d : Direction) (l : list Decorated) :
  Forall (ofColumn c) l ->
  StronglySorted (fun x y => compareFn d x y <= 0)
                 (Array_sort (compareFn d) l).
Proof.
  intros H. apply (Array_sort_StronglySorted (compareFn d) (ofColumn c)).
  - intros x y _ _. apply compareFn_total.
  - apply compareFn_trans.
  - exact H.
Qed.

Lemma Forall_filter {A : Type} (P : A -> Prop) (p : A -> bool) (l : list A) :
  Forall P l -> Forall P (filter p l).
Proof.
  intros H. rewrite Forall_forall in *. intros x Hx.
  apply filter_In in Hx. now apply H.
Qed.

Lemma filter_comm {A : Type} (p q : A -> bool) (l : list A) :
  filter p (filter q l) = filter q (filter p l).
Proof.
  induction l as [|x l IH]; cbn; [reflexivity|].
  destruct (p x) eqn:P, (q x) eqn:Q; cbn; rewrite ?P, ?Q, IH; reflexivity.
Qed.

Lemma filter_decorated (c : Column) (p : Customer -> bool)
  (records : list Customer) :
  map (decorate c) (filter p records)
  = filter (fun d => p (customer d)) (map (decorate c) records).
Proof.
  induction records as [|x l IH]; cbn; [reflexivity|].
  destruct (p x); cbn; now rewrite IH.
Qed.

Lemma filter_undecorated (p : Customer -> bool) (l : list Decorated) :
  filter p (map customer l) = map customer (filter (fun d => p (customer d)) l).
Proof.
  induction l as [|x l IH]; cbn; [reflexivity|].
  destruct (p (customer x)); cbn; now rewrite IH.
Qed.

(** Sorting what the filter keeps is filtering what the sort returns. *)
Lemma sortRecords_filter (cfg : SortConfig) (p : Customer -> bool)
  (records : list Customer) :
  sortRecords cfg (filter p records) = filter p (sortRecords cfg records).
Proof.
  unfold sortRecords. rewrite filter_undecorated. f_equal.
  set (c := column cfg). set (d := direction cfg).
  pose proof (decorate_ofColumn c records) as Hdec.
  symmetry. apply (Array_sort_unique c d (filter p records)).
  - apply Forall_filter, Array_sort_ofColumn, Hdec.
  - apply filter_StronglySorted, (Array_sort_in_order c), Hdec.
  - intros x Dx. rewrite filter_decorated, filter_comm.
    rewrite (Array_sort_ties c) by assumption. apply filter_comm.
Qed.

Lemma redecorate (c : Column) (records : list Customer) (l : list Decorated) :
  (forall d, In d l -> In d (map (decorate c) records)) ->
  map (decorate c) (map customer l) = l.
Proof.
  intros H. rewrite map_map. rewrite <- (map_id l) at 2.
  apply map_ext_in. intros d Hd. apply H, in_map_iff in Hd.
  destruct Hd as [x [<- _]]. reflexivity.
Qed.

Lemma StronglySorted_snoc {A : Type} (R : A -> A -> Prop) (l : list A)
  (x : A) :
  StronglySorted R l -> Forall (fun y => R y x) l ->
  StronglySorted R (l ++ [x]).
Proof.
  intros Hs Hx. induction Hs as [|y l Hl IH Hy]; cbn.
  - constructor; constructor.
  - inversion Hx as [|? ? Hyx Hx']; subst. constructor.
    + now apply IH.
    + apply Forall_app. split; [assumption | now constructor].
Qed.

Lemma StronglySorted_rev {A : Type} (R : A -> A -> Prop) (l : list A) :
  StronglySorted R l -> StronglySorted (fun x y => R y x) (rev l).
Proof.
  intros Hs. induction Hs as [|x l Hl IH Hx]; cbn; [constructor|].
  apply StronglySorted_snoc; [exact IH|].
  rewrite Forall_forall in *. intros y Hy. apply Hx.
  now apply in_rev.
Qed.

Lemma filter_rev_eq {A : Type} (p : A -> bool) (l : list A) :
  filter p (rev l) = rev (filter p l).
Proof.
  induction l as [|x l IH]; cbn; [reflexivity|].
  rewrite filter_app, IH. cbn. destruct (p x); cbn;
    [reflexivity | apply app_nil_r].
Qed.

(** With pairwise distinct keys a class of ties holds one record at
    most. *)
Lemma ties_of_distinct_keys (c : Column) (d : Direction)
  (records : list Customer) (x : Decorated) :
  NoDup (map (sortKey c) records) -> ofColumn c x ->
  (List.length (filter (tiedBy (compareFn d) x) (map (decorate c) records))
   <= 1)%nat.
Proof.
  intros Hnd Dx. induction records as [|a l IH]; cbn [map filter]; [cbn; lia|].
  inversion Hnd as [|? ? Ha Hl]; subst. specialize (IH Hl).
  destruct (tiedBy (compareFn d) x (decorate c a)) eqn:T; [|exact IH].
  assert (Hnone : filter (tiedBy (compareFn d) x) (map (decorate c) l) = []).
  { destruct (filter (tiedBy (compareFn d) x) (map (decorate c) l))
      as [|y ys] eqn:F; [reflexivity | exfalso].
    assert (Iy : In y (y :: ys)) by now left.
    rewrite <- F in Iy. apply filter_In in Iy. destruct Iy as [Iy Ty].
    apply in_map_iff in Iy. destruct Iy as [b [<- Ib]].
    rewrite tiedBy_compareFn in T, Ty.
    apply andb_true_iff in T, Ty. rewrite !negb_true_iff in T, Ty.
    pose proof (decorate_ofColumn c [a; b]) as Hab.
    inversion Hab as [|? ? Da Hb']; subst. inversion Hb' as [|? ? Db _]; subst.
    unfold ofColumn in *.
    assert (Ea : compareValue x = compareValue (decorate c a))
      by (apply js_tie_eq; (congruence || tauto)).
    assert (Eb : compareValue x = compareValue (decorate c b))
      by (apply js_tie_eq; (congruence || tauto)).
    apply Ha. apply in_map_iff. exists b. split; [|assumption].
    unfold sortKey. congruence. }
  rewrite Hnone. cbn. lia.
Qed.

Lemma rev_short {A : Type} (l : list A) :
  (List.length l <= 1)%nat -> rev l = l.
Proof.
  destruct l as [|x [|y l]]; cbn; try reflexivity. lia.
Qed.

(** With pairwise distinct keys the descending order is the ascending
    order read backwards. *)
Lemma sortRecords_desc_rev (c : Column) (records : list Customer) :
  NoDup (map (sortKey c) records) ->
  sortRecords (mkSortConfig c desc) records
  = rev (sortRecords (mkSortConfig c asc) records).
Proof.
  intros Hnd. unfold sortRecords. cbn [column direction].
  rewrite <- map_rev. f_equal.
  pose proof (decorate_ofColumn c records) as Hdec.
  symmetry. apply (Array_sort_unique c desc records).
  - apply Forall_rev, Array_sort_ofColumn, Hdec.
  - pose proof (StronglySorted_rev _ _ (Array_sort_in_order c asc _ Hdec))
      as Hs.
    eapply StronglySorted_map_in with (f := fun z => z) in Hs.
    + rewrite map_id in Hs. exact Hs.
    + intros x y _ _ H. cbv beta in H.
      apply compareFn_le in H. apply compareFn_le. exact H.
  - intros x Dx. rewrite filter_rev_eq.
    rewrite (filter_ext _ _ (tiedBy_direction desc asc x)).
    rewrite (Array_sort_ties c asc) by assumption.
    rewrite (filter_ext _ _ (tiedBy_direction asc desc x)).
    apply rev_short. now apply ties_of_distinct_keys.
Qed.

(* ------------------------------------------------------------------ *)
(** ** The window of the virtual list *)

Lemma Qdiv_lt_iff (x c : Q) (R : Z) :
  0 < R -> ((x / inject_Z R < c)%Q <-> (x < c * inject_Z R)%Q).
Proof.
  intros HR.
  assert (HR' : (0 < inject_Z R)%Q)
    by (unfold Qlt; cbn [Qnum Qden inject_Z]; lia).
  assert (Hne : ~ (inject_Z R == 0)%Q)
    by (intros E; rewrite E in HR'; discriminate).
  split; intros H.
  - apply (Qmult_lt_r _ _ (inject_Z R) HR') in H.
    unfold Qdiv in H. rewrite <- Qmult_assoc, (Qmult_comm (/ _)) in H.
    rewrite Qmult_inv_r, Qmult_1_r in H; assumption.
  - now apply Qlt_shift_div_r.
Qed.

Lemma Qdiv_gt_iff (x c : Q) (R : Z) :
  0 < R -> ((c < x / inject_Z R)%Q <-> (c * inject_Z R < x)%Q).
Proof.
  intros HR.
  assert (HR' : (0 < inject_Z R)%Q)
    by (unfold Qlt; cbn [Qnum Qden inject_Z]; lia).
  assert (Hne : ~ (inject_Z R == 0)%Q)
    by (intros E; rewrite E in HR'; discriminate).
  split; intros H.
  - apply (Qmult_lt_r _ _ (inject_Z R) HR') in H.
    unfold Qdiv in H. rewrite <- Qmult_assoc, (Qmult_comm (/ _)) in H.
    rewrite Qmult_inv_r, Qmult_1_r in H; assumption.
  - now apply Qlt_shift_div_l.
Qed.

(** [Math.floor(x / R) <= i] exactly when [x] lies below row [i + 1]. *)
Lemma floor_div_le (x : Q) (R i : Z) :
  0 < R ->
  (Math_floor (x / inject_Z R) <= i <-> (x < inject_Z ((i + 1) * R))%Q).
Proof.
  intros HR. unfold Math_floor. rewrite inject_Z_mult.
  rewrite <- Qdiv_lt_iff by assumption. split; intros H.
  - eapply Qlt_le_trans; [apply Qlt_floor|].
    rewrite <- Zle_Qle. lia.
  - apply Z.lt_succ_r. rewrite Zlt_Qlt.
    eapply Qle_lt_trans; [apply Qfloor_le|].
    replace (Z.succ i) with (i + 1) by lia. exact H.
Qed.

(** [i < Math.ceil(x / R)] exactly when row [i] starts below [x]. *)
Lemma ceil_div_gt (x : Q) (R i : Z) :
  0 < R ->
  (i < Math_ceil (x / inject_Z R) <-> (inject_Z (i * R) < x)%Q).
Proof.
  intros HR. unfold Math_ceil. rewrite inject_Z_mult.
  rewrite <- Qdiv_gt_iff by assumption. split; intros H.
  - eapply Qle_lt_trans; [|apply Qceiling_lt].
    rewrite <- Zle_Qle. lia.
  - rewrite Zlt_Qlt.
    eapply Qlt_le_trans; [exact H | apply Qle_ceiling].
Qed.

Lemma handleScroll_cases (R : Z) (data : list Customer) (s v : Q)
  (range : VisibleRange) :
  let r' := handleScroll R data (Some (mkContainer s v)) range in
  let startIndex := Z.max 0 (Math_floor (s / inject_Z R) - 20) in
  let endIndex := Z.min (Z.of_nat (List.length data))
                        (Math_ceil ((s + v) / inject_Z R) + 20) in
  (r' = mkVisibleRange startIndex endIndex /\
   (5 < Z.abs (startIndex - rangeStart range) \/
    5 < Z.abs (endIndex - rangeEnd range))) \/
  (r' = range /\
   Z.abs (startIndex - rangeStart range) <= 5 /\
   Z.abs (endIndex - rangeEnd range) <= 5).
Proof.
  intros r' startIndex endIndex. subst r'. unfold handleScroll.
  cbn [scrollTop clientHeight].
  change VIEWPORT_BUFFER with 20. fold startIndex endIndex.
  destruct (5 <? Z.abs (startIndex - rangeStart range)) eqn:E1;
  destruct (5 <? Z.abs (endIndex - rangeEnd range)) eqn:E2; cbn [orb];
    rewrite ?Z.ltb_lt, ?Z.ltb_ge in *.
  - left. split; [reflexivity | now left].
  - left. split; [reflexivity | now left].
  - left. split; [reflexivity | now right].
  - right. split; [reflexivity | split; assumption].
Qed.

(** A list at most 25 rows longer than one viewport: wherever the
    container is scrolled to, the window that [handleScroll] computes
    starts in the first six rows and ends in the last six. *)
Lemma handleScroll_window (R : Z) (data : list Customer) (rows : Z)
  (current : Container) :
  0 < R ->
  let len := Z.of_nat (List.length data) in
  rows + 20 <= len <= rows + 25 ->
  scrolledWithin R data rows current ->
  let startIndex :=
    Z.max 0 (Math_floor (scrollTop current / inject_Z R) - 20) in
  let endIndex :=
    Z.min len (Math_ceil ((scrollTop current + clientHeight current)
                          / inject_Z R) + 20) in
  0 <= startIndex <= 5 /\ rows + 20 <= endIndex <= len.
Proof.
  intros HR len Hlen Hin startIndex endIndex. subst startIndex endIndex.
  destruct current as [s v]. destruct Hin as [Hs [Hbound Hrows]].
  unfold totalHeight in Hbound. cbn [scrollTop clientHeight] in *.
  fold len in Hbound.
  assert (Hv : (inject_Z ((rows - 1) * R) < v)%Q).
  { apply (ceil_div_gt v R (rows - 1) HR). lia. }
  assert (Hf : Math_floor (s / inject_Z R) <= 25).
  { apply (floor_div_le s R 25 HR).
    assert (Hz : len * R <= (25 + 1) * R + (rows - 1) * R) by nia.
    rewrite Zle_Qle, inject_Z_plus in Hz. lra. }
  assert (Hc : rows <= Math_ceil ((s + v) / inject_Z R)).
  { apply Z.lt_pred_le. apply (ceil_div_gt (s + v) R (Z.pred rows) HR).
    replace (Z.pred rows) with (rows - 1) by lia. lra. }
  lia.
Qed.

(** In such a list a range that starts in the first six rows and ends
    in the last six is kept by every call. *)
Lemma handleScroll_frozen (R : Z) (data : list Customer) (rows : Z)
  (current : Container) (range : VisibleRange) :
  0 < R ->
  let len := Z.of_nat (List.length data) in
  rows + 20 <= len <= rows + 25 ->
  scrolledWithin R data rows current ->
  0 <= rangeStart range <= 5 ->
  rows + 20 <= rangeEnd range <= len ->
  handleScroll R data (Some current) range = range.
Proof.
  intros HR len Hlen Hin Ha Hb.
  pose proof (handleScroll_window R data rows current HR Hlen Hin) as W.
  cbv zeta in W. destruct current as [s v].
  cbn [scrollTop clientHeight] in W.
  destruct (handleScroll_cases R data s v range)
    as [[_ Hupd]|[-> _]]; [|reflexivity].
  fold len in Hupd. lia.
Qed.

Lemma handleScrolls_frozen (R : Z) (data : list Customer) (rows : Z)
  (containers : list Container) (range : VisibleRange) :
  0 < R ->
  let len := Z.of_nat (List.length data) in
  rows + 20 <= len <= rows + 25 ->
  Forall (scrolledWithin R data rows) containers ->
  0 <= rangeStart range <= 5 ->
  rows + 20 <= rangeEnd range <= len ->
  handleScrolls R data containers range = range.
Proof.
  intros HR len Hlen Hall Ha Hb. unfold handleScrolls.
  induction Hall as [|current containers Hin _ IH]; [reflexivity|].
  cbn [fold_left].
  rewrite (handleScroll_frozen R data rows current range) by assumption.
  exact IH.
Qed.

(** The range that a call computes when it replaces the range. *)
Lemma handleScroll_replaces (R : Z) (data : list Customer)
  (current : Container) (range : VisibleRange) :
  let startIndex :=
    Z.max 0 (Math_floor (scrollTop current / inject_Z R) - 20) in
  let endIndex :=
    Z.min (Z.of_nat (List.length data))
          (Math_ceil ((scrollTop current + clientHeight current)
                      / inject_Z R) + 20) in
  5 < Z.abs (endIndex - rangeEnd range) ->
  handleScroll R data (Some current) range
  = mkVisibleRange startIndex endIndex.
Proof.
  intros startIndex endIndex Hfar. subst startIndex endIndex.
  destruct current as [s v]. cbn [scrollTop clientHeight] in *.
  destruct (handleScroll_cases R data s v range)
    as [[-> _]|[_ [_ Hnear]]]; [reflexivity | lia].
Qed.

Lemma visibleData_whole (data : list Customer) (b : Z) :
  Z.of_nat (List.length data) <= b ->
  visibleData data (mkVisibleRange 0 b) = data.
Proof.
  intros H. unfold visibleData. cbn [rangeStart rangeEnd].
  unfold Array_slice. cbn [Z.ltb Z.compare].
  destruct (b <? 0) eqn:E; [apply Z.ltb_lt in E; lia|].
  rewrite Z.min_r by lia. rewrite Z.min_l by lia.
  cbn [Z.to_nat skipn]. apply firstn_all2. lia.
Qed.

(* ------------------------------------------------------------------ *)
(** ** The rows handed to the DOM *)

Lemma Array_slice_spec {A : Type} (l : list A) (a b : Z) :
  0 <= a -> 0 <= b ->
  Array_slice l a b
  = firstn (Z.to_nat (b - a)) (skipn (Z.to_nat a) l).
Proof.
  intros Ha Hb. unfold Array_slice.
  destruct (a <? 0) eqn:Ea; [apply Z.ltb_lt in Ea; lia|].
  destruct (b <? 0) eqn:Eb; [apply Z.ltb_lt in Eb; lia|].
  set (len := Z.of_nat (List.length l)).
  destruct (Z_le_gt_dec a len) as [Hal|Hal].
  - rewrite (Z.min_l a len) by lia.
    destruct (Z_le_gt_dec b len) as [Hbl|Hbl].
    + now rewrite (Z.min_l b len) by lia.
    + rewrite (Z.min_r b len) by lia.
      rewrite !firstn_all2; try reflexivity;
        rewrite length_skipn; subst len; lia.
  - rewrite (Z.min_r a len) by lia.
    rewrite !skipn_all2 by (subst len; lia).
    now rewrite !firstn_nil.
Qed.

Lemma Array_slice_length {A : Type} (l : list A) (a b : Z) :
  0 <= a -> 0 <= b ->
  (Z.of_nat (List.length (Array_slice l a b)) <= Z.max 0 (b - a)) /\
  (Z.of_nat (List.length (Array_slice l a b)) <= Z.of_nat (List.length l)).
Proof.
  intros Ha Hb. rewrite Array_slice_spec by assumption.
  rewrite length_firstn, length_skipn. lia.
Qed.

Lemma Array_slice_nth {A : Type} (l : list A) (a b : Z) (k : nat) :
  0 <= a -> 0 <= b -> a + Z.of_nat k < b ->
  nth_error (Array_slice l a b) k = nth_error l (Z.to_nat a + k).
Proof.
  intros Ha Hb Hk. rewrite Array_slice_spec by assumption.
  rewrite nth_error_firstn.
  destruct (Nat.ltb k (Z.to_nat (b - a))) eqn:E.
  - apply nth_error_skipn.
  - apply Nat.ltb_ge in E. lia.
Qed.

(** The number of rows above the viewport's first row and below its
    last one that the window adds. *)
Lemma window_width (R : Z) (s v : Q) :
  0 < R -> (0 <= v)%Q ->
  Math_ceil ((s + v) / inject_Z R) - Math_floor (s / inject_Z R)
  <= Math_ceil (v / inject_Z R) + 1.
Proof.
  intros HR Hv.
  set (f := Math_floor (s / inject_Z R)).
  set (c0 := Math_ceil (v / inject_Z R)).
  assert (Hs : (s < inject_Z ((f + 1) * R))%Q)
    by (apply (floor_div_le s R f HR); subst f; lia).
  assert (Hv0 : ~ (inject_Z (c0 * R) < v)%Q).
  { intros H. apply (ceil_div_gt v R c0 HR) in H. subst c0. lia. }
  apply Qnot_lt_le in Hv0.
  assert (H : ~ (f + c0 + 1 < Math_ceil ((s + v) / inject_Z R))).
  { intros H. apply (ceil_div_gt (s + v) R (f + c0 + 1) HR) in H.
    replace ((f + c0 + 1) * R) with ((f + 1) * R + c0 * R) in H by lia.
    rewrite inject_Z_plus in H. lra. }
  lia.
Qed.

(* ------------------------------------------------------------------ *)
(** ** The progress of the first revision's in-memory generation *)

Lemma reportedAt_multiple (j : Z) : reportedAt (j * V1.BATCH_SIZE) = true.
Proof.
  unfold reportedAt. apply Z.eqb_eq. apply Z.rem_mul. discriminate.
Qed.

Lemma reportedAt_between (i j : Z) :
  0 <= j -> j * V1.BATCH_SIZE < i < (j + 1) * V1.BATCH_SIZE ->
  reportedAt i = false.
Proof.
  intros Hj Hi. unfold reportedAt, V1.BATCH_SIZE in *. apply Z.eqb_neq.
  rewrite Z.rem_mod_nonneg by lia. intros E.
  apply Z.mod_divide in E; [|lia]. destruct E as [q E]. nia.
Qed.

Lemma filter_none {A : Type} (p : A -> bool) (l : list A) :
  (forall x, In x l -> p x = false) -> filter p l = [].
Proof.
  intros H. induction l as [|x l IH]; cbn; [reflexivity|].
  rewrite (H x (or_introl eq_refl)). apply IH. intros y Hy. apply H.
  now right.
Qed.

(** Among 1 .. n * 10000 the identifiers at which progress is reported
    are the multiples 10000, 20000, .., n * 10000. *)
Lemma reported_identifiers (n : nat) :
  filter reportedAt (upto 1 (Z.of_nat n * V1.BATCH_SIZE))
  = map (fun j => j * V1.BATCH_SIZE) (upto 1 (Z.of_nat n)).
Proof.
  induction n as [|n IH].
  - reflexivity.
  - assert (HB : V1.BATCH_SIZE = 10000) by reflexivity.
    rewrite <- (upto_app 1 (Z.of_nat n * V1.BATCH_SIZE)
                  (Z.of_nat (S n) * V1.BATCH_SIZE)) by lia.
    rewrite (upto_snoc (Z.of_nat n * V1.BATCH_SIZE + 1)) by lia.
    rewrite !filter_app, IH. cbn [filter].
    rewrite reportedAt_multiple.
    rewrite (filter_none reportedAt (upto _ _)).
    + rewrite (upto_snoc 1 (Z.of_nat (S n))) by lia. rewrite map_app.
      replace (Z.of_nat (S n) - 1) with (Z.of_nat n) by lia. reflexivity.
    + intros i Hi. apply upto_In in Hi.
      apply (reportedAt_between i (Z.of_nat n)); lia.
Qed.

(* ------------------------------------------------------------------ *)
(** ** The debounced search term *)

Lemma stepDebounce_invariant (delay : Z) (s : Debounce) (e : DebounceEvent) :
  (handler s = None -> debouncedValue s = currentValue s) ->
  (forall due v, handler s = Some (due, v) -> v = currentValue s) ->
  let s' := stepDebounce delay s e in
  (handler s' = None -> debouncedValue s' = currentValue s') /\
  (forall due v, handler s' = Some (due, v) -> v = currentValue s').
Proof.
  intros H0 H1 s'. subst s'. destruct e as [now v|now]; cbn [stepDebounce].
  - unfold renderDebounce. destruct (String.eqb v (currentValue s)).
    + split; assumption.
    + cbn. split; [discriminate|]. intros due v' [= _ <-]. reflexivity.
  - unfold fireTimeout. destruct (handler s) as [[due v]|] eqn:Hh.
    + destruct (due <=? now).
      * cbn. split; [intros _; now apply (H1 due) | discriminate].
      * rewrite Hh. split; [discriminate|]. intros due' v' [= <- <-].
        now apply (H1 due).
    + rewrite Hh. split; [exact H0 | discriminate].
Qed.

Lemma stepDebounce_value (delay : Z) (s : Debounce) (e : DebounceEvent) :
  (forall due v, handler s = Some (due, v) -> v = currentValue s) ->
  debouncedValue (stepDebounce delay s e) = debouncedValue s \/
  debouncedValue (stepDebounce delay s e) = currentValue s.
Proof.
  intros H1. destruct e as [now v|now]; cbn [stepDebounce].
  - unfold renderDebounce. destruct (String.eqb v (currentValue s));
      now left.
  - unfold fireTimeout. destruct (handler s) as [[due v]|] eqn:Hh;
      [|now left].
    destruct (due <=? now); [|now left]. right. cbn. now apply (H1 due).
Qed.

Lemma renderedValues_app (l1 l2 : list DebounceEvent) :
  renderedValues (l1 ++ l2) = renderedValues l1 ++ renderedValues l2.
Proof.
  induction l1 as [|[now v|now] l1 IH]; cbn; [reflexivity | | exact IH].
  now rewrite IH.
Qed.

Lemma early_ticks_change_nothing (delay : Z) (s : Debounce)
  (due : Z) (v : string) (ticks : list Z) :
  handler s = Some (due, v) ->
  Forall (fun t => t < due) ticks ->
  runDebounce delay s (map TimerTick ticks) = s.
Proof.
  intros Hh Hticks. induction Hticks as [|t ticks Ht _ IH]; [reflexivity|].
  cbn [map]. unfold runDebounce in *. cbn [fold_left stepDebounce].
  assert (E : fireTimeout t s = s).
  { unfold fireTimeout. rewrite Hh.
    destruct (due <=? t) eqn:L; [apply Z.leb_le in L; lia | reflexivity]. }
  rewrite E. exact IH.
Qed.

(* ------------------------------------------------------------------ *)
(** ** Properties of every generated working set *)

Lemma V1_generate_records {C : Type} (h : Host) (N : Z)
  (oP : option (Z -> Z -> C -> C)) (s : C * nat) :
  fst (V1.generateCustomersInMemory h N oP s)
  = fst (generateMany h (upto 1 N) (snd s)).
Proof.
  unfold V1.generateCustomersInMemory.
  now destruct (V1_generateLoop_records h N oP (upto 1 N) [] s) as [-> _].
Qed.

Lemma V2_generate_records {C : Type} (h : Host) (N : Z)
  (oP : option (Z -> Z -> C -> C)) (oB : option (list Customer -> C -> C))
  (s : C * nat) :
  fst (V2.generateCustomersInMemory h N oP oB s)
  = Some (fst (generateMany h (upto 1 N) (snd s))).
Proof.
  unfold V2.generateCustomersInMemory, V2.generateCustomersInMemoryWith.
  now destruct (V2_generateLoop_records h V2.BATCH_SIZE N oP oB
                  ltac:(reflexivity) (Z.to_nat N) 1 [] s ltac:(lia))
    as [-> _].
Qed.

Lemma generateMany_Forall (h : Host) (P : Customer -> Prop) :
  (forall i k, P (fst (generateCustomer h i k))) ->
  forall xs k, Forall P (fst (generateMany h xs k)).
Proof.
  intros H. induction xs as [|i xs IH]; intros k; cbn [generateMany].
  - constructor.
  - unfold bind, ret. cbn [fst snd]. constructor; [apply H | apply IH].
Qed.

Lemma generated_by_both {C C' : Type} (h : Host) (P : Customer -> Prop) :
  (forall i k, P (fst (generateCustomer h i k))) ->
  forall (N : Z) (oP : option (Z -> Z -> C -> C))
         (oP' : option (Z -> Z -> C' -> C'))
         (oB : option (list Customer -> C' -> C'))
         (s : C * nat) (s' : C' * nat),
    Forall P (fst (V1.generateCustomersInMemory h N oP s)) /\
    exists W, fst (V2.generateCustomersInMemory h N oP' oB s') = Some W /\
              Forall P W.
Proof.
  intros H N oP oP' oB s s'. split.
  - rewrite V1_generate_records. now apply generateMany_Forall.
  - eexists. split; [apply V2_generate_records|].
    now apply generateMany_Forall.
Qed.

(** X1: in the array returned by either revision of
    [generateCustomersInMemory], every record's name is a first name and
    a last name of the pools joined by a space, its avatar carries the
    first letters of those two names and a colour of the palette, and
    its [addedBy] is again a pool first name and last name: the sampling
    index never leaves a pool. *)
Theorem generated_names_come_from_pools {C C' : Type} (h : Host) (N : Z)
  (oP : option (Z -> Z -> C -> C)) (oP' : option (Z -> Z -> C' -> C'))
  (oB : option (list Customer -> C' -> C')) (s : C * nat) (s' : C' * nat) :
  let wellNamed := fun c : Customer =>
    exists firstName lastName addedFirst addedLast : string,
      In firstName firstNames /\ In lastName lastNames /\
      In addedFirst firstNames /\ In addedLast lastNames /\
      name c = (firstName ++ " " ++ lastName)%string /\
      addedBy c = (addedFirst ++ " " ++ addedLast)%string /\
      initials (avatar c) = (charAt0 firstName ++ charAt0 lastName)%string /\
      In (color (avatar c)) avatarColors in
  Forall wellNamed (fst (V1.generateCustomersInMemory h N oP s)) /\
  exists W, fst (V2.generateCustomersInMemory h N oP' oB s') = Some W /\
            Forall wellNamed W.
Proof.
  intros wellNamed. apply generated_by_both. intros i k.
  destruct (generateCustomer_parts h i k)
    as [f [l [d [af [al [Hf [Hl [_ [Haf [Hal [Hn [_ [Ha [Hi Hc]]]]]]]]]]]]]].
  exists f, l, af, al. tauto.
Qed.

(** X2: every record of a generated working set has a score between 1
    and 100, so the class of its badge in the table,
    [score-Math.floor(score / 25)], is one of [score-0] .. [score-4]. *)
Theorem generated_scores_fit_the_badges {C C' : Type} (h : Host) (N : Z)
  (oP : option (Z -> Z -> C -> C)) (oP' : option (Z -> Z -> C' -> C'))
  (oB : option (list Customer -> C' -> C')) (s : C * nat) (s' : C' * nat) :
  let scored := fun c : Customer =>
    1 <= score c <= 100 /\ 0 <= scoreClass (score c) <= 4 in
  Forall scored (fst (V1.generateCustomersInMemory h N oP s)) /\
  exists W, fst (V2.generateCustomersInMemory h N oP' oB s') = Some W /\
            Forall scored W.
Proof.
  intros scored. apply generated_by_both. intros i k.
  apply generateCustomer_score.
Qed.

(** X3: every record of a generated working set has a phone of the
    shape "+1 (AAA) PPP-LLLL", with an area code and a prefix between
    100 and 999 and a line number between 1000 and 9999: seventeen
    characters. *)
Theorem generated_phones_have_one_shape {C C' : Type} (h : Host) (N : Z)
  (oP : option (Z -> Z -> C -> C)) (oP' : option (Z -> Z -> C' -> C'))
  (oB : option (list Customer -> C' -> C')) (s : C * nat) (s' : C' * nat) :
  let shaped := fun c : Customer =>
    exists areaCode prefix lineNumber : Z,
      100 <= areaCode <= 999 /\ 100 <= prefix <= 999 /\
      1000 <= lineNumber <= 9999 /\
      phone c = ("+1 (" ++ String_of_number areaCode ++ ") "
                   ++ String_of_number prefix ++ "-"
                   ++ String_of_number lineNumber)%string /\
      String.length (phone c) = 17%nat in
  Forall shaped (fst (V1.generateCustomersInMemory h N oP s)) /\
  exists W, fst (V2.generateCustomersInMemory h N oP' oB s') = Some W /\
            Forall shaped W.
Proof.
  intros shaped. apply generated_by_both. intros i k.
  unfold shaped. rewrite generateCustomer_phone.
  apply generatePhone_shape.
Qed.

(** X4: the instant of the last message of a generated record lies in
    the two years (63,072,000,000 ms) that end at the reading of the
    clock made for it, whatever the random source answers. *)
Theorem last_message_within_two_years (h : Host) (i : Z) (k : nat) :
  let c := fst (generateCustomer h i k) in
  let now := clock h (7 + k)%nat in
  now - 63072000000 <= lastMessageAt c <= now.
Proof.
  intros c now.
  change (lastMessageAt c) with (fst (generateDate h (7 + k)%nat)).
  apply generateDate_window.
Qed.

(** X5: no two records of a generated working set share an address:
    the identifier written into the address can be read back from it. *)
Theorem generated_emails_are_unique {C C' : Type} (h : Host) (N : Z)
  (oP : option (Z -> Z -> C -> C)) (oP' : option (Z -> Z -> C' -> C'))
  (oB : option (list Customer -> C' -> C')) (s : C * nat) (s' : C' * nat) :
  NoDup (map email (fst (V1.generateCustomersInMemory h N oP s))) /\
  exists W, fst (V2.generateCustomersInMemory h N oP' oB s') = Some W /\
            NoDup (map email W).
Proof.
  split.
  - rewrite V1_generate_records. apply generateMany_emails_NoDup.
  - eexists. split; [apply V2_generate_records|].
    apply generateMany_emails_NoDup.
Qed.

Section SameDraws.
Variables h h' : Host.
Hypothesis same_draws : forall n, random_bits h' n = random_bits h n.

Lemma Math_random_same (k : nat) : Math_random h' k = Math_random h k.
Proof. unfold Math_random. now rewrite same_draws. Qed.

Lemma sample_same (xs : list string) (k : nat) :
  sample h' xs k = sample h xs k.
Proof. unfold sample, bind, ret. now rewrite Math_random_same. Qed.

Lemma generatePhone_same (k : nat) : generatePhone h' k = generatePhone h k.
Proof. unfold generatePhone, bind, ret. now rewrite !Math_random_same. Qed.

Lemma generateAvatar_same (f l : string) (k : nat) :
  generateAvatar h' f l k = generateAvatar h f l k.
Proof. unfold generateAvatar, bind, ret. now rewrite sample_same. Qed.

(** With the same draws, a record differs at most in the field computed
    from the clock. *)
Lemma generateCustomer_same (i : Z) (k : nat) :
  sameButLastMessageAt (fst (generateCustomer h' i k))
                       (fst (generateCustomer h i k)).
Proof.
  unfold sameButLastMessageAt, generateCustomer, generateDate, Date_now,
    bind, ret.
  cbn [fst snd id name phone email score addedBy avatar].
  rewrite !sample_same, !generatePhone_same, !Math_random_same,
    !generateAvatar_same.
  repeat split; reflexivity.
Qed.

Lemma generateMany_same (xs : list Z) (k : nat) :
  Forall2 sameButLastMessageAt (fst (generateMany h' xs k))
                               (fst (generateMany h xs k)).
Proof.
  revert k. induction xs as [|i xs IH]; intros k; cbn [generateMany].
  - constructor.
  - unfold bind, ret. cbn [fst snd]. constructor.
    + apply generateCustomer_same.
    + rewrite !generateCustomer_draws. apply IH.
Qed.

Hypothesis same_clock : forall n, clock h' n = clock h n.

Lemma generateCustomer_same_clock (i : Z) (k : nat) :
  generateCustomer h' i k = generateCustomer h i k.
Proof.
  unfold generateCustomer, generateDate, Date_now, bind, ret.
  cbn [fst snd].
  rewrite !sample_same, !generatePhone_same, !Math_random_same,
    !generateAvatar_same, !same_clock.
  reflexivity.
Qed.

Lemma generateMany_same_clock (xs : list Z) (k : nat) :
  generateMany h' xs k = generateMany h xs k.
Proof.
  revert k. induction xs as [|i xs IH]; intros k; cbn [generateMany].
  - reflexivity.
  - unfold bind, ret. now rewrite generateCustomer_same_clock, IH.
Qed.
End SameDraws.

(** X6: for every positive batch size, when the two revisions of
    [generateCustomersInMemory] are given the same random draws, the
    second returns an array that agrees with the first's, record by
    record, on every field except [lastMessageAt], which is computed
    from the [Date.now()] reading of each run, and it leaves the random
    source at the same draw; when the clock readings of the two runs
    are the same as well, the two arrays are equal.  Batching and the
    callbacks change what is reported, never what is drawn. *)
Theorem revisions_agree_up_to_the_clock {C C' : Type} (h h' : Host)
  (N B : Z) (oP : option (Z -> Z -> C -> C))
  (oP' : option (Z -> Z -> C' -> C'))
  (oB : option (list Customer -> C' -> C')) (c : C) (c' : C') (k : nat) :
  0 < B ->
  (forall n, random_bits h' n = random_bits h n) ->
  let first := V1.generateCustomersInMemory h N oP (c, k) in
  let second := V2.generateCustomersInMemoryWith B h' N oP' oB (c', k) in
  exists W' : list Customer,
    fst second = Some W' /\
    Forall2 sameButLastMessageAt W' (fst first) /\
    snd (snd second) = snd (snd first) /\
    ((forall n, clock h' n = clock h n) -> W' = fst first).
Proof.
  intros HB Hdraws first second. subst first second.
  unfold V2.generateCustomersInMemoryWith, V1.generateCustomersInMemory.
  destruct (V2_generateLoop_records h' B N oP' oB HB (Z.to_nat N) 1 []
              (c', k) ltac:(lia)) as [R1 R2].
  destruct (V1_generateLoop_records h N oP (upto 1 N) [] (c, k)) as [L1 L2].
  rewrite R1, R2, L1, L2. cbn [snd List.app].
  eexists. split; [reflexivity|]. split; [|split].
  - now apply generateMany_same.
  - now rewrite !generateMany_draws.
  - intros Hclock. now rewrite (generateMany_same_clock h h' Hdraws Hclock).
Qed.

Lemma revisions_agree_up_to_the_clock_witness :
  0 < 3 /\
  (forall n, random_bits host_later n = random_bits host0 n) /\
  (let first := V1.generateCustomersInMemory host0 10 recordProgress
                  ([], O) in
   let second := V2.generateCustomersInMemoryWith 3 host_later 10
                   recordProgress recordBatch ([], O) in
   exists W' : list Customer,
     fst second = Some W' /\
     Forall2 sameButLastMessageAt W' (fst first) /\
     snd (snd second) = snd (snd first) /\
     ((forall n, clock host_later n = clock host0 n) -> W' = fst first)).
Proof.
  split; [lia|]. split; [reflexivity|].
  apply (revisions_agree_up_to_the_clock host0 host_later 10 3
           recordProgress recordProgress recordBatch [] [] O).
  - lia.
  - reflexivity.
Defined.

(** The same draws read one minute later: the records of the two
    revisions then differ, in [lastMessageAt] only. *)
Example later_clock_changes_last_message :
  let W := fst (V1.generateCustomersInMemory host0 2 recordProgress
                  ([], O)) in
  exists W',
    fst (V2.generateCustomersInMemory host_later 2 recordProgress
           recordBatch ([], O)) = Some W' /\
    map lastMessageAt W' = map (fun c => lastMessageAt c + 60000) W /\
    W' <> W.
Proof.
  eexists. split; [vm_compute; reflexivity|]. split.
  - vm_compute. reflexivity.
  - vm_compute. discriminate.
Qed.

(* ------------------------------------------------------------------ *)
(** ** Population, observed from outside *)

(** X7: when the write transactions of the batches before batch [j]
    complete and that of batch [j] does not, the second revision's
    [populateDatabase] rejects, and its consumer has been handed exactly
    the records 1 .. j*B, in order, and the progress reports B, 2B, ..,
    j*B: nothing of the batch whose transaction failed, and nothing
    after it. *)
Theorem populate_failure_reports_committed_batches_only
  (h : Host) (db : IDBDatabase) (N B j : Z) (k : nat) :
  0 < B -> 0 <= j -> j * B < N ->
  (forall b, 0 <= b < j -> writeTx db b = TxComplete) ->
  writeTx db j <> TxComplete ->
  let r := V2.populateDatabaseWith N B h db recordProgress recordBatch
             ([], k) in
  (exists m, fst r = Some (Rejected m)) /\
  List.concat (map (map id) (batchesOf (fst (snd r)))) = upto 1 (j * B) /\
  progressOf (fst (snd r)) = map (fun i => (i * B, N)) (upto 1 j).
Proof.
  intros HB Hj HjN Hok Hbad r. subst r. unfold V2.populateDatabaseWith.
  pose proof (proj1 (lt_quotient_ceiling j N B HB) HjN) as Hc.
  pose proof (ceiling_le_total N B HB) as Hcap.
  destruct (V2_populateLoop_prefix h db N B HB (Z.to_nat N) 0 j ([], k))
    as [bs [Hr [Hlog [Hids Hlast]]]]; try assumption; try lia.
  cbv zeta in Hr, Hlog. change (0 * B) with 0 in Hr, Hlog, Hids.
  split; [exact Hr|]. rewrite Hlog. cbn [fst List.app].
  rewrite batchesOf_batchEvents, progressOf_batchEvents.
  split; [exact Hids|].
  rewrite <- (map_map (fun b => last (map id b) 0) (fun e => (e, N))).
  rewrite Hlast, map_map. reflexivity.
Qed.

Lemma populate_failure_reports_committed_batches_only_witness :
  0 < 3 /\ 0 <= 2 /\ 2 * 3 < 10 /\
  (forall b, 0 <= b < 2 -> writeTx db_third_aborts b = TxComplete) /\
  writeTx db_third_aborts 2 <> TxComplete /\
  (let r := V2.populateDatabaseWith 10 3 host0 db_third_aborts
              recordProgress recordBatch ([], O) in
   (exists m, fst r = Some (Rejected m)) /\
   List.concat (map (map id) (batchesOf (fst (snd r)))) = upto 1 (2 * 3) /\
   progressOf (fst (snd r)) = map (fun i => (i * 3, 10)) (upto 1 2)).
Proof.
  assert (H : forall b, 0 <= b < 2 -> writeTx db_third_aborts b = TxComplete).
  { intros b Hb. cbn. destruct (b =? 2) eqn:E; [|reflexivity].
    apply Z.eqb_eq in E. lia. }
  split; [lia|]. split; [lia|]. split; [lia|]. split; [exact H|].
  split; [discriminate|].
  apply (populate_failure_reports_committed_batches_only host0
           db_third_aborts 10 3 2 O); try lia; [exact H | discriminate].
Defined.

(** X8: the first revision's [populateDatabase], the one [initData]
    calls: when the transactions of the batches before batch [j]
    complete and, unless [j] is 100, that of batch [j] does not, it
    reports progress once for each of the batches 1 .. j, in order, at
    i * 10000 of 1,000,000.  The percentage the application derives
    from the i-th report is i, except that the arithmetic of doubles
    gives 28 at the 29th, 56 at the 57th and 57 at the 58th: 28 and 56
    are shown twice, 29 and 58 never.  It resolves when all hundred
    transactions complete and rejects at the first that does not. *)
Theorem legacy_populate_reports_each_batch
  (h : Host) (db : IDBDatabase) (j : Z) (k : nat) :
  0 <= j <= 100 ->
  (forall b, 0 <= b < j -> writeTx db b = TxComplete) ->
  (j < 100 -> writeTx db j <> TxComplete) ->
  let r := V1.populateDatabase h db recordProgress ([], k) in
  progressOf (fst (snd r)) = map (fun i => (i * 10000, 1000000)) (upto 1 j) /\
  map (fun pt => percent (fst pt) (snd pt)) (progressOf (fst (snd r)))
  = map percentOfBatch (upto 1 j) /\
  (j = 100 -> fst r = Some (Resolved tt)) /\
  (j < 100 -> exists m, fst r = Some (Rejected m)).
Proof.
  intros Hj Hok Hbad r. subst r. unfold V1.populateDatabase.
  destruct (V1_populateLoop_trace h db V1.TOTAL_RECORDS V1.BATCH_SIZE
              recordProgress ltac:(reflexivity)
              (Z.to_nat V1.TOTAL_RECORDS) 0 j ([], k)) as [F [Hres Hrej]].
  - change ((V1.TOTAL_RECORDS + V1.BATCH_SIZE - 1) / V1.BATCH_SIZE) with 100.
    lia.
  - exact Hok.
  - exact Hbad.
  - vm_compute. discriminate.
  - cbv zeta in F, Hres, Hrej.
    change (0 * V1.BATCH_SIZE) with 0 in F, Hres, Hrej.
    assert (E : progressOf (fst (snd (V1.populateLoop
                  (Z.to_nat V1.TOTAL_RECORDS) h db V1.TOTAL_RECORDS
                  V1.BATCH_SIZE recordProgress 0 0 ([], k))))
                = map (fun i => (i * 10000, 1000000)) (upto 1 j)).
    { rewrite F, fold_record_progress. cbn [fst List.app].
      rewrite progressOf_progress, map_map. reflexivity. }
    split; [exact E|]. split; [|split; [exact Hres | exact Hrej]].
    rewrite E, map_map. cbn [fst snd].
    apply map_ext_in. intros i Hi. apply upto_In in Hi.
    apply percent_of_batch. lia.
Qed.

Lemma legacy_populate_reports_each_batch_witness :
  0 <= 100 <= 100 /\
  (forall b, 0 <= b < 100 -> writeTx db_ok b = TxComplete) /\
  (100 < 100 -> writeTx db_ok 100 <> TxComplete) /\
  (let r := V1.populateDatabase host0 db_ok recordProgress ([], O) in
   progressOf (fst (snd r))
   = map (fun i => (i * 10000, 1000000)) (upto 1 100) /\
   map (fun pt => percent (fst pt) (snd pt)) (progressOf (fst (snd r)))
   = map percentOfBatch (upto 1 100) /\
   (100 = 100 -> fst r = Some (Resolved tt)) /\
   (100 < 100 -> exists m, fst r = Some (Rejected m))).
Proof.
  split; [lia|]. split; [reflexivity|]. split; [lia|].
  apply (legacy_populate_reports_each_batch host0 db_ok 100 O);
    [lia | reflexivity | lia].
Defined.

(* ------------------------------------------------------------------ *)
(** ** Sessions *)

Lemma recover_calls (env : Browser) (e : string) (s : World * nat) :
  calls (fst (snd (recover env e s))) = calls (fst s) ++ [CallGenerate].
Proof.
  pose proof (recover_spec env e s) as R. cbv zeta in R. tauto.
Qed.

(** X9: when [initData] ends without error, the progress shown has
    reached 100 if anything was generated in memory or written to the
    store during the session, and is still 0 if the records were only
    read from a store found populated. *)
Theorem progress_is_complete_when_loading_ends (env : Browser) :
  error (app (snd (start env))) = None ->
  progress (app (snd (start env)))
  = if existsb isGenerate (calls (snd (start env)))
       || existsb isPopulate (calls (snd (start env)))
    then 100 else 0.
Proof.
  destruct (openStaysBlocked_dec env) as [Hb|Hnb].
  - destruct (initData_open_pending env Hb) as [_ [Hc [_ [_ [Hp _]]]]].
    intros _. rewrite Hc, Hp. reflexivity.
  - destruct (initData_summary env Hnb) as [_ [_ [_ [_ [_ [_ H]]]]]]. exact H.
Qed.

Lemma progress_is_complete_when_loading_ends_witness :
  error (app (snd (start env_populated))) = None /\
  progress (app (snd (start env_populated)))
  = if existsb isGenerate (calls (snd (start env_populated)))
       || existsb isPopulate (calls (snd (start env_populated)))
    then 100 else 0.
Proof.
  split; [reflexivity|].
  apply (progress_is_complete_when_loading_ends env_populated). reflexivity.
Defined.

(** X10: once the store is open and its count is read, [initData]
    calls [populateDatabase] exactly once when the count is below
    1,000,000, a partially populated store included, and never when it
    is 1,000,000 or more, wherever the session goes afterwards. *)
Theorem store_is_populated_unless_full (env : Browser)
  (database : IDBDatabase) (n : Z) :
  initializeDatabase env = Some (Resolved database) ->
  countReq database = ReqSuccess n ->
  filter isPopulate (calls (snd (start env)))
  = if n <? 1000000 then [CallPopulate] else [].
Proof.
  intros Hopen Hcount.
  pose proof (open_implies_available env database Hopen) as Hp.
  assert (Hpop : isDatabasePopulated database = Resolved (1000000 <=? n))
    by (unfold isDatabasePopulated; now rewrite Hcount).
  unfold start, initData. run_task. rewrite Hp. cbn [negb]. run_task.
  unfold initialWorld. cbn [app calls List.app].
  rewrite Hopen. run_task. rewrite Hpop.
  destruct (n <? 1000000) eqn:E.
  - apply Z.ltb_lt in E.
    replace (1000000 <=? n) with false by (symmetry; apply Z.leb_gt; lia).
    cbn [negb]. unfold callPopulateDatabase. run_task.
    match goal with
    | |- context [V1.populateDatabase ?h ?d reportProgress ?s] =>
        pose proof (V1_populateDatabase_spec h d s) as Q;
        set (p := V1.populateDatabase h d reportProgress s) in *
    end.
    cbv zeta in Q. destruct Q as [[Pc _] [Pok Pfail]].
    cbn [fst calls] in Pc.
    destruct (populate_commits_or_fails database) as [Hw|Hw].
    + rewrite (Pok Hw). run_task. unfold loadCustomers. run_task.
      destruct (getAllReq database) as [m|result|m]; run_task;
        rewrite ?recover_calls; cbn [fst calls]; rewrite Pc; reflexivity.
    + destruct (Pfail Hw) as [m Hm]. rewrite Hm. run_task.
      rewrite recover_calls, Pc. reflexivity.
  - apply Z.ltb_ge in E.
    replace (1000000 <=? n) with true by (symmetry; apply Z.leb_le; lia).
    cbn [negb]. run_task. unfold loadCustomers. run_task.
    destruct (getAllReq database) as [m|result|m]; run_task;
      rewrite ?recover_calls; reflexivity.
Qed.

Lemma store_is_populated_unless_full_witness :
  initializeDatabase env_partial = Some (Resolved db_partial) /\
  countReq db_partial = ReqSuccess 250000 /\
  filter isPopulate (calls (snd (start env_partial)))
  = if 250000 <? 1000000 then [CallPopulate] else [].
Proof.
  split; [reflexivity|]. split; [reflexivity|].
  apply (store_is_populated_unless_full env_partial db_partial 250000);
    reflexivity.
Defined.

Lemma initDataCallLogs_shape (log : list Call) :
  In log (blockedCallLog :: initDataCallLogs) ->
  storeCallAfterGenerate log = false /\
  (List.length (filter isGenerate log) <= 2)%nat /\
  (List.length (filter isOpen log) <= 1)%nat /\
  (List.length (filter isPopulate log) <= 1)%nat /\
  (List.length (filter isReadAll log) <= 1)%nat /\
  hd_error log = Some CallProbe.
Proof.
  unfold initDataCallLogs, blockedCallLog. cbn [In].
  intros H; repeat (destruct H as [<-|H]; [cbn; repeat split; lia|]);
    contradiction.
Qed.

(** X11: whatever the browser does, the data-layer calls of [initData]
    form one of ten sequences.  When the open request stays blocked
    (its [onblocked] handler only warns, so the promise is never
    settled) [initData] never ends and the calls are the probe, the
    open and the probe inside it; in every other case [initData] ends
    and the calls form one of the nine sequences of
    [initDataCallLogs].  In all ten the capability probe comes first;
    the store is opened, populated and read at most once each; the
    in-memory generation runs at most twice; no call of the store ever
    follows an in-memory generation; and the memory-storage flag is set
    exactly when an in-memory generation was called. *)
Theorem session_calls_follow_one_of_ten_sequences (env : Browser) :
  let log := calls (snd (start env)) in
  (openStaysBlocked env ->
   fst (start env) = None /\ log = blockedCallLog) /\
  (~ openStaysBlocked env ->
   fst (start env) = Some (Resolved tt) /\ In log initDataCallLogs) /\
  In log (blockedCallLog :: initDataCallLogs) /\
  useMemoryStorage (app (snd (start env))) = existsb isGenerate log /\
  storeCallAfterGenerate log = false /\
  (List.length (filter isGenerate log) <= 2)%nat /\
  (List.length (filter isOpen log) <= 1)%nat /\
  (List.length (filter isPopulate log) <= 1)%nat /\
  (List.length (filter isReadAll log) <= 1)%nat /\
  hd_error log = Some CallProbe.
Proof.
  intros log. subst log.
  split.
  { intros Hb. destruct (initData_open_pending env Hb) as [He [Hc _]].
    split; assumption. }
  split.
  { intros Hnb. destruct (initData_summary env Hnb) as [He [Hin _]].
    split; assumption. }
  assert (H : In (calls (snd (start env))) (blockedCallLog :: initDataCallLogs)
              /\ useMemoryStorage (app (snd (start env)))
                 = existsb isGenerate (calls (snd (start env)))).
  { destruct (openStaysBlocked_dec env) as [Hb|Hnb].
    - destruct (initData_open_pending env Hb)
        as [_ [Hc [_ [_ [_ [_ Hu]]]]]].
      rewrite Hc, Hu. split; [now left | reflexivity].
    - destruct (initData_summary env Hnb) as [_ [Hin [Hmem _]]].
      split; [now right | exact Hmem]. }
  destruct H as [Hin Hmem].
  split; [exact Hin|]. split; [exact Hmem|].
  now apply initDataCallLogs_shape.
Qed.

(** X12: unless the open request stays blocked, [initData] ends and the
    component then no longer renders the loading screen: it renders the
    "No Data Loaded" screen when the working set is empty and the main
    screen otherwise; an error is then left only as the terminal
    message, always with an empty working set, so the screen is "No
    Data Loaded" and the message itself, which only the loading screen
    prints, is not rendered.  When the open request stays blocked,
    [initData] never ends and the component keeps rendering the loading
    screen, with no progress, no error and no memory notice. *)
Theorem session_leaves_loading_screen_unless_open_blocked (env : Browser)
  (debouncedSearchTerm : option string) (sortConfig : SortConfig) :
  let a := app (snd (start env)) in
  (openStaysBlocked env ->
   fst (start env) = None /\
   render a debouncedSearchTerm sortConfig = LoadingScreen false None None) /\
  (~ openStaysBlocked env ->
   fst (start env) = Some (Resolved tt) /\
   (customers a = [] ->
    render a debouncedSearchTerm sortConfig = NoDataScreen) /\
   (customers a <> [] ->
    render a debouncedSearchTerm sortConfig
    = MainScreen
        (List.length (displayed (customers a) debouncedSearchTerm sortConfig))
        (List.length (customers a)) (useMemoryStorage a)) /\
   (error a <> None ->
    error a = Some "Failed to generate customer data"%string /\
    useMemoryStorage a = true /\
    render a debouncedSearchTerm sortConfig = NoDataScreen)).
Proof.
  intros a. subst a. split.
  - intros Hb.
    destruct (initData_open_pending env Hb)
      as [Hend [_ [_ [Hl [Hp [He Hu]]]]]].
    split; [exact Hend|]. unfold render. rewrite Hl, Hp, He, Hu. reflexivity.
  - intros Hnb.
    destruct (initData_summary env Hnb)
      as [Hend [Hin [Hmem [Hload [Herr _]]]]].
    split; [exact Hend|]. unfold render. rewrite Hload.
    split; [intros ->; reflexivity|]. split.
    + intros Hne. destruct (customers (app (snd (start env)))); [congruence|].
      reflexivity.
    + intros He. destruct Herr as [Herr|[Herr [Hc Hu]]]; [congruence|].
      rewrite Hc. split; [exact Herr|]. split; [exact Hu | reflexivity].
Qed.

(* ------------------------------------------------------------------ *)
(** ** The view: search and sort together *)

(** X13: when a query contains an earlier query (case aside), the
    filter's answer to it is the filter applied to the earlier answer:
    typing further characters only removes rows, and leaves the rows
    that stay in their order. *)
Theorem refining_a_query_filters_the_previous_answer
  (m : Heap) (customers : ArrayRef) (q q' : string) :
  q' <> EmptyString ->
  isSubstringOf (toLowerCase q) (toLowerCase q') ->
  let answer := fun t : string =>
    deref (snd (filteredCustomers customers (Some t) m))
          (fst (filteredCustomers customers (Some t) m)) in
  answer q' = filter (matchesSearch (toLowerCase q')) (answer q).
Proof.
  intros Hne Hsub answer. subst answer. cbv beta.
  rewrite !filteredCustomers_view.
  destruct q' as [|ch' q']; [congruence|].
  destruct q as [|ch q]; [reflexivity|].
  symmetry. apply filter_filter_implied.
  intros c. now apply matchesSearch_weaken.
Qed.

Lemma refining_a_query_filters_the_previous_answer_witness :
  "Mar"%string <> EmptyString /\
  isSubstringOf (toLowerCase "ma") (toLowerCase "Mar") /\
  (let answer := fun t : string =>
     deref (snd (filteredCustomers 0%nat (Some t) [sampleView]))
           (fst (filteredCustomers 0%nat (Some t) [sampleView])) in
   answer "Mar"%string
   = filter (matchesSearch (toLowerCase "Mar")) (answer "ma"%string)).
Proof.
  assert (H : isSubstringOf (toLowerCase "ma") (toLowerCase "Mar"))
    by (exists EmptyString, "r"%string; reflexivity).
  split; [discriminate|]. split; [exact H|].
  apply (refining_a_query_filters_the_previous_answer [sampleView] 0%nat
           "ma" "Mar"); [discriminate | exact H].
Defined.

Lemma displayed_unfold (customers : list Customer) (term : option string)
  (cfg : SortConfig) :
  displayed customers term cfg
  = sortRecords cfg
      match term with
      | None | Some EmptyString => customers
      | Some q => filter (matchesSearch (toLowerCase q)) customers
      end.
Proof.
  unfold displayed, sortedCustomers. cbv zeta. rewrite deref_alloc.
  f_equal. destruct term as [[|ch q]|]; reflexivity.
Qed.

(** X14: the view shown for a search term is the view shown without
    one, with the rows that do not match removed: filtering before the
    sort, as the component does, gives the rows in the order they have
    in the fully sorted list. *)
Theorem search_keeps_the_sorted_order (customers : list Customer)
  (q : string) (sortConfig : SortConfig) :
  q <> EmptyString ->
  displayed customers (Some q) sortConfig
  = filter (matchesSearch (toLowerCase q))
           (displayed customers None sortConfig).
Proof.
  intros Hq. rewrite !displayed_unfold.
  destruct q as [|ch q]; [congruence|]. apply sortRecords_filter.
Qed.

Lemma search_keeps_the_sorted_order_witness :
  "smith"%string <> EmptyString /\
  displayed sampleView (Some "smith"%string) (mkSortConfig col_name desc)
  = filter (matchesSearch (toLowerCase "smith"))
           (displayed sampleView None (mkSortConfig col_name desc)).
Proof.
  split; [discriminate|].
  apply (search_keeps_the_sorted_order sampleView "smith"
           (mkSortConfig col_name desc)).
  discriminate.
Defined.

(** X15: clicking the header of the column the view is sorted by
    flips the direction, and when the records carry pairwise distinct
    values in that column the view then shows the same rows in the
    reverse order. *)
Theorem second_click_reverses_distinct_keys (c : Column) (d : Direction)
  (records : list Customer) :
  NoDup (map (sortKey c) records) ->
  handleSort (mkSortConfig c d) c
  = mkSortConfig c (match d with asc => desc | desc => asc end) /\
  sortRecords (handleSort (mkSortConfig c d) c) records
  = rev (sortRecords (mkSortConfig c d) records).
Proof.
  intros Hnd.
  assert (E : handleSort (mkSortConfig c d) c
              = mkSortConfig c (match d with asc => desc | desc => asc end)).
  { unfold handleSort. cbn [column direction].
    destruct c, d; reflexivity. }
  split; [exact E|]. rewrite E. destruct d.
  - now apply sortRecords_desc_rev.
  - rewrite (sortRecords_desc_rev c records Hnd). now rewrite rev_involutive.
Qed.

Lemma second_click_reverses_distinct_keys_witness :
  NoDup (map (sortKey col_id) sampleView) /\
  handleSort (mkSortConfig col_id asc) col_id = mkSortConfig col_id desc /\
  sortRecords (handleSort (mkSortConfig col_id asc) col_id) sampleView
  = rev (sortRecords (mkSortConfig col_id asc) sampleView).
Proof.
  assert (H : NoDup (map (sortKey col_id) sampleView)).
  { cbn. repeat constructor; cbn; intuition discriminate. }
  split; [exact H|].
  apply (second_click_reverses_distinct_keys col_id asc sampleView H).
Defined.

(** X16: sorting a view that is already sorted by the same column, in
    either direction, gives what sorting the original view gives: ties
    fall back to the original sequence, not to the one of the previous
    sort; in particular sorting twice is sorting once. *)
Theorem sorting_again_forgets_the_previous_sort (c : Column)
  (d d' : Direction) (records : list Customer) :
  sortRecords (mkSortConfig c d') (sortRecords (mkSortConfig c d) records)
  = sortRecords (mkSortConfig c d') records.
Proof.
  unfold sortRecords. cbn [column direction]. f_equal.
  pose proof (decorate_ofColumn c records) as Hdec.
  set (L := map (decorate c) records) in *.
  assert (E : map (decorate c) (map customer (Array_sort (compareFn d) L))
              = Array_sort (compareFn d) L).
  { apply (redecorate c records). intros x Hx.
    now apply (proj1 (Array_sort_In (compareFn d) x L)). }
  rewrite E.
  apply (sorted_stable_unique (compareFn d') (ofColumn c)).
  - intros x _. apply compareFn_ties. reflexivity.
  - intros x y _ _ H. apply compareFn_zero in H. apply compareFn_zero. tauto.
  - intros x y _ _ H1 H2. apply compareFn_le in H1, H2.
    apply compareFn_zero. destruct d'; tauto.
  - apply Array_sort_ofColumn, Array_sort_ofColumn, Hdec.
  - apply Array_sort_ofColumn, Hdec.
  - apply (Array_sort_in_order c), Array_sort_ofColumn, Hdec.
  - apply (Array_sort_in_order c), Hdec.
  - intros x Dx.
    rewrite (Array_sort_ties c d')
      by (try apply Array_sort_ofColumn; assumption).
    rewrite (Array_sort_ties c d' L) by assumption.
    rewrite !(filter_ext _ _ (tiedBy_direction d' d x)).
    now apply (Array_sort_ties c d).
Qed.

(** X17: in "Showing X of Y customers", X never exceeds Y, equals Y
    when there is no search term, and does not depend on the sort
    configuration. *)
Theorem shown_count_never_exceeds_total (customers : list Customer)
  (debouncedSearchTerm : option string) (sortConfig sortConfig' : SortConfig) :
  let shown := List.length (displayed customers debouncedSearchTerm
                              sortConfig) in
  (shown <= List.length customers)%nat /\
  (debouncedSearchTerm = None \/ debouncedSearchTerm = Some EmptyString ->
   shown = List.length customers) /\
  List.length (displayed customers debouncedSearchTerm sortConfig') = shown.
Proof.
  intros shown. subst shown. rewrite !displayed_unfold.
  assert (L : forall cfg l, List.length (sortRecords cfg l) = List.length l).
  { intros cfg l. symmetry. apply Permutation_length, sortRecords_perm. }
  rewrite !L. split; [|split; [|reflexivity]].
  - destruct debouncedSearchTerm as [[|ch q]|]; try apply Nat.le_refl.
    apply filter_length_le.
  - intros [->| ->]; reflexivity.
Qed.

(* ------------------------------------------------------------------ *)
(** ** The virtual list *)

(** X18: after a scroll event, every row of the list that meets the
    viewport is inside the rendered range, provided it is neither among
    the first five nor among the last five rows of the list; and
    whenever the event replaces the range, every row that meets the
    viewport is inside it. *)
Theorem scroll_keeps_the_viewport_rendered (rowHeight : Z)
  (data : list Customer) (current : Container)
  (visibleRange : VisibleRange) (i : Z) :
  0 < rowHeight -> inViewport rowHeight current i ->
  let r' := handleScroll rowHeight data (Some current) visibleRange in
  (5 <= i < Z.of_nat (List.length data) - 5 ->
   rangeStart r' <= i < rangeEnd r') /\
  (r' <> visibleRange -> 0 <= i < Z.of_nat (List.length data) ->
   rangeStart r' <= i < rangeEnd r').
Proof.
  destruct current as [s v].
  intros HR [Hlo Hhi] r'. subst r'. cbn [scrollTop clientHeight] in Hlo, Hhi.
  apply (floor_div_le s rowHeight i HR) in Hhi.
  apply (ceil_div_gt (s + v) rowHeight i HR) in Hlo.
  destruct (handleScroll_cases rowHeight data s v visibleRange)
    as [[-> _]|[-> [H1 H2]]];
    cbn [rangeStart rangeEnd]; split; intros; try congruence; lia.
Qed.

Lemma scroll_keeps_the_viewport_rendered_witness :
  0 < desktopRowHeight /\
  inViewport desktopRowHeight (mkContainer 600 300) 12 /\
  (let r' := handleScroll desktopRowHeight hundredRows
               (Some (mkContainer 600 300)) initialRange in
   (5 <= 12 < Z.of_nat (List.length hundredRows) - 5 ->
    rangeStart r' <= 12 < rangeEnd r') /\
   (r' <> initialRange -> 0 <= 12 < Z.of_nat (List.length hundredRows) ->
    rangeStart r' <= 12 < rangeEnd r')).
Proof.
  assert (H : inViewport desktopRowHeight (mkContainer 600 300) 12)
    by (split; reflexivity).
  split; [reflexivity|]. split; [exact H|].
  apply (scroll_keeps_the_viewport_rendered desktopRowHeight hundredRows
           (mkContainer 600 300) initialRange 12); [reflexivity | exact H].
Defined.

(** X19: a list that is 21 to 25 rows longer than one viewport and
    has fewer than 45 rows.  With the range 0..50 that the component
    is mounted with (and that the search-reset effect restores) every
    row of the list is rendered.  The first call of [handleScroll]
    made with that range replaces it by the window around the
    container's position, and the calls that follow, with no reset of
    the range between them, never replace it again, wherever the
    container is scrolled to: the thresholds of five rows are not
    exceeded again.  When that first call comes while the viewport ends
    at least 21 rows above the end of the list, as when scrolling
    starts at the top, the range it leaves stops short of the last row:
    until the range is reset the last row is not rendered, although it
    meets the viewport when the container is scrolled to its end. *)
Theorem short_list_range_freezes_at_first_scroll (rowHeight : Z)
  (data : list Customer) (rows : Z) (first : Container)
  (later : list Container) :
  0 < rowHeight -> 0 <= rows ->
  let len := Z.of_nat (List.length data) in
  rows + 20 < len <= rows + 25 -> len < 45 ->
  scrolledWithin rowHeight data rows first ->
  Forall (scrolledWithin rowHeight data rows) later ->
  let frozen := handleScroll rowHeight data (Some first) initialRange in
  visibleData data initialRange = data /\
  frozen
  = mkVisibleRange
      (Z.max 0 (Math_floor (scrollTop first / inject_Z rowHeight) - 20))
      (Z.min len (Math_ceil ((scrollTop first + clientHeight first)
                             / inject_Z rowHeight) + 20)) /\
  frozen <> initialRange /\
  handleScrolls rowHeight data (first :: later) initialRange = frozen /\
  ((scrollTop first + clientHeight first
    <= inject_Z ((len - 21) * rowHeight))%Q ->
   rangeEnd frozen <= len - 1 /\
   (List.length (visibleData data frozen) < List.length data)%nat) /\
  (forall bottom : Container,
     (0 < clientHeight bottom)%Q ->
     (scrollTop bottom + clientHeight bottom
      == inject_Z (totalHeight rowHeight data))%Q ->
     inViewport rowHeight bottom (len - 1)).
Proof.
  intros HR Hrows len Hlen Hshort Hfirst Hlater frozen.
  assert (Hlen' : rows + 20 <= len <= rows + 25) by lia.
  pose proof (handleScroll_window rowHeight data rows first HR Hlen' Hfirst)
    as W.
  cbv zeta in W. fold len in W. destruct W as [Wa Wb].
  assert (E : frozen
              = mkVisibleRange
                  (Z.max 0 (Math_floor (scrollTop first / inject_Z rowHeight)
                            - 20))
                  (Z.min len
                     (Math_ceil ((scrollTop first + clientHeight first)
                                 / inject_Z rowHeight) + 20))).
  { subst frozen. apply handleScroll_replaces.
    fold len. cbn [rangeEnd initialRange]. lia. }
  split; [apply visibleData_whole; fold len; lia|].
  split; [exact E|]. split; [|split; [|split]].
  - rewrite E. unfold initialRange. intros H. injection H as _ H. lia.
  - unfold handleScrolls. cbn [fold_left]. fold frozen.
    apply (handleScrolls_frozen rowHeight data rows later frozen HR Hlen'
             Hlater); rewrite E; cbn [rangeStart rangeEnd]; assumption.
  - intros Habove.
    assert (Hc : Math_ceil ((scrollTop first + clientHeight first)
                            / inject_Z rowHeight) <= len - 21).
    { apply Z.nlt_ge. intros Hlt.
      apply (ceil_div_gt _ rowHeight (len - 21) HR) in Hlt. lra. }
    assert (Hend : rangeEnd frozen <= len - 1)
      by (rewrite E; cbn [rangeEnd]; lia).
    split; [exact Hend|].
    unfold visibleData.
    destruct (Array_slice_length data (rangeStart frozen) (rangeEnd frozen))
      as [L _].
    + rewrite E. cbn [rangeStart]. lia.
    + rewrite E. cbn [rangeEnd]. lia.
    + assert (0 <= rangeStart frozen) by (rewrite E; cbn [rangeStart]; lia).
      fold len in Hend. unfold len in Hend. lia.
  - intros [s v] Hv Hbottom. unfold inViewport, totalHeight in *.
    cbn [scrollTop clientHeight] in *. fold len in Hbottom.
    assert (Hz : (len - 1) * rowHeight < len * rowHeight) by nia.
    rewrite Zlt_Qlt in Hz.
    replace (len - 1 + 1) with len by lia. split; lra.
Qed.

Lemma short_list_range_freezes_at_first_scroll_witness :
  0 < desktopRowHeight /\ 0 <= 5 /\
  (let len := Z.of_nat (List.length thirtyRows) in
   5 + 20 < len <= 5 + 25 /\ len < 45 /\
   scrolledWithin desktopRowHeight thirtyRows 5 (mkContainer 30 300) /\
   Forall (scrolledWithin desktopRowHeight thirtyRows 5)
     [mkContainer 1500 300; mkContainer 0 300] /\
   (let frozen := handleScroll desktopRowHeight thirtyRows
                    (Some (mkContainer 30 300)) initialRange in
    visibleData thirtyRows initialRange = thirtyRows /\
    frozen
    = mkVisibleRange
        (Z.max 0 (Math_floor (scrollTop (mkContainer 30 300)
                              / inject_Z desktopRowHeight) - 20))
        (Z.min len
           (Math_ceil ((scrollTop (mkContainer 30 300)
                        + clientHeight (mkContainer 30 300))
                       / inject_Z desktopRowHeight) + 20)) /\
    frozen <> initialRange /\
    handleScrolls desktopRowHeight thirtyRows
      [mkContainer 30 300; mkContainer 1500 300; mkContainer 0 300]
      initialRange = frozen /\
    ((scrollTop (mkContainer 30 300) + clientHeight (mkContainer 30 300)
      <= inject_Z ((len - 21) * desktopRowHeight))%Q ->
     rangeEnd frozen <= len - 1 /\
     (List.length (visibleData thirtyRows frozen)
      < List.length thirtyRows)%nat) /\
    (forall bottom : Container,
       (0 < clientHeight bottom)%Q ->
       (scrollTop bottom + clientHeight bottom
        == inject_Z (totalHeight desktopRowHeight thirtyRows))%Q ->
       inViewport desktopRowHeight bottom (len - 1)))).
Proof.
  assert (H1 : 5 + 20 < Z.of_nat (List.length thirtyRows) <= 5 + 25)
    by (vm_compute; split; [reflexivity | discriminate]).
  assert (H2 : Z.of_nat (List.length thirtyRows) < 45) by reflexivity.
  assert (H3 : scrolledWithin desktopRowHeight thirtyRows 5
                 (mkContainer 30 300))
    by (split; [discriminate | split; [discriminate | reflexivity]]).
  assert (H4 : Forall (scrolledWithin desktopRowHeight thirtyRows 5)
                 [mkContainer 1500 300; mkContainer 0 300])
    by (repeat constructor; discriminate).
  split; [reflexivity|]. split; [lia|]. cbv zeta.
  split; [exact H1|]. split; [exact H2|]. split; [exact H3|].
  split; [exact H4|].
  apply (short_list_range_freezes_at_first_scroll desktopRowHeight
           thirtyRows 5 (mkContainer 30 300)
           [mkContainer 1500 300; mkContainer 0 300]);
    [reflexivity | lia | exact H1 | exact H2 | exact H3 | exact H4].
Defined.

(** The same list on a desktop layout, 300 pixels high: mounted, the
    thirty rows are rendered; a first scroll event half a row down
    leaves the rows 0..25, and scrolling to the end and back to the top
    changes nothing. *)
Example thirty_rows_scrolled :
  List.length (visibleData thirtyRows initialRange) = 30%nat /\
  handleScrolls desktopRowHeight thirtyRows [mkContainer 30 300] initialRange
  = mkVisibleRange 0 26 /\
  handleScrolls desktopRowHeight thirtyRows
    [mkContainer 30 300; mkContainer 1500 300] initialRange
  = mkVisibleRange 0 26 /\
  handleScrolls desktopRowHeight thirtyRows
    [mkContainer 30 300; mkContainer 1500 300; mkContainer 0 300]
    initialRange
  = mkVisibleRange 0 26 /\
  List.length (visibleData thirtyRows (mkVisibleRange 0 26)) = 26%nat.
Proof.
  vm_compute. repeat split; reflexivity.
Qed.

(** X20: a scroll event keeps the bounds of the range non-negative,
    and the number of rows handed to the DOM afterwards is at most the
    number of rows of one viewport plus 51, whatever the length of the
    list. *)
Theorem rendered_rows_are_bounded (rowHeight : Z) (data : list Customer)
  (scrollTop' viewportHeight : Q) (visibleRange : VisibleRange) :
  0 < rowHeight -> (0 <= scrollTop')%Q -> (0 <= viewportHeight)%Q ->
  0 <= rangeStart visibleRange -> 0 <= rangeEnd visibleRange ->
  let r' := handleScroll rowHeight data
              (Some (mkContainer scrollTop' viewportHeight)) visibleRange in
  0 <= rangeStart r' /\ 0 <= rangeEnd r' /\
  Z.of_nat (List.length (visibleData data r'))
  <= Math_ceil (viewportHeight / inject_Z rowHeight) + 51.
Proof.
  intros HR Hs Hv H0 H1 r'. subst r'.
  set (R := rowHeight) in *. set (s := scrollTop') in *.
  set (v := viewportHeight) in *. set (range := visibleRange) in *.
  pose proof (window_width R s v HR Hv) as W.
  assert (Hf : 0 <= Math_floor (s / inject_Z R)).
  { unfold Math_floor. rewrite <- (Qfloor_Z 0). apply Qfloor_resp_le.
    apply Qle_shift_div_l; [unfold Qlt; cbn; lia|].
    now rewrite Qmult_0_l. }
  assert (Hc : 0 <= Math_ceil ((s + v) / inject_Z R)).
  { unfold Math_ceil. rewrite <- (Qceiling_Z 0). apply Qceiling_resp_le.
    apply Qle_shift_div_l; [unfold Qlt; cbn; lia|].
    rewrite Qmult_0_l. rewrite <- (Qplus_0_l 0).
    now apply Qplus_le_compat. }
  assert (Hc0 : 0 <= Math_ceil (v / inject_Z R)).
  { unfold Math_ceil. rewrite <- (Qceiling_Z 0). apply Qceiling_resp_le.
    apply Qle_shift_div_l; [unfold Qlt; cbn; lia|].
    now rewrite Qmult_0_l. }
  unfold visibleData.
  destruct (handleScroll_cases R data s v range) as [[-> _]|[-> [A B]]];
    cbn [rangeStart rangeEnd].
  - split; [lia|]. split; [lia|].
    pose proof (Array_slice_length data
                  (Z.max 0 (Math_floor (s / inject_Z R) - 20))
                  (Z.min (Z.of_nat (List.length data))
                         (Math_ceil ((s + v) / inject_Z R) + 20))
                  ltac:(lia) ltac:(lia)) as [L _].
    lia.
  - split; [assumption|]. split; [assumption|].
    pose proof (Array_slice_length data (rangeStart range) (rangeEnd range)
                  H0 H1) as [L _].
    lia.
Qed.

Lemma rendered_rows_are_bounded_witness :
  0 < desktopRowHeight /\ (0 <= 600)%Q /\ (0 <= 300)%Q /\
  0 <= rangeStart initialRange /\ 0 <= rangeEnd initialRange /\
  (let r' := handleScroll desktopRowHeight hundredRows
               (Some (mkContainer 600 300)) initialRange in
   0 <= rangeStart r' /\ 0 <= rangeEnd r' /\
   Z.of_nat (List.length (visibleData hundredRows r'))
   <= Math_ceil (300 / inject_Z desktopRowHeight) + 51).
Proof.
  split; [reflexivity|]. split; [discriminate|]. split; [discriminate|].
  split; [discriminate|]. split; [discriminate|].
  apply (rendered_rows_are_bounded desktopRowHeight hundredRows 600 300
           initialRange);
    (reflexivity || discriminate).
Defined.

(** X21: for a range with non-negative bounds, the k-th row handed to
    the DOM is row start+k of the list, for every k below end-start, and
    the offset of the rendered block puts it at the height that row has
    in the full list. *)
Theorem rendered_rows_are_the_rows_of_the_range (rowHeight : Z)
  (data : list Customer) (visibleRange : VisibleRange) (k : nat) :
  0 <= rangeStart visibleRange -> 0 <= rangeEnd visibleRange ->
  rangeStart visibleRange + Z.of_nat k < rangeEnd visibleRange ->
  nth_error (visibleData data visibleRange) k
  = nth_error data (Z.to_nat (rangeStart visibleRange) + k) /\
  offsetY rowHeight visibleRange + Z.of_nat k * rowHeight
  = (rangeStart visibleRange + Z.of_nat k) * rowHeight.
Proof.
  intros H0 H1 Hk. split.
  - now apply Array_slice_nth.
  - unfold offsetY. lia.
Qed.

Lemma rendered_rows_are_the_rows_of_the_range_witness :
  0 <= rangeStart (mkVisibleRange 1 3) /\
  0 <= rangeEnd (mkVisibleRange 1 3) /\
  rangeStart (mkVisibleRange 1 3) + Z.of_nat 1 < rangeEnd (mkVisibleRange 1 3)
  /\
  nth_error (visibleData sampleView (mkVisibleRange 1 3)) 1
  = nth_error sampleView (Z.to_nat (rangeStart (mkVisibleRange 1 3)) + 1) /\
  offsetY desktopRowHeight (mkVisibleRange 1 3) + Z.of_nat 1 * desktopRowHeight
  = (rangeStart (mkVisibleRange 1 3) + Z.of_nat 1) * desktopRowHeight.
Proof.
  split; [discriminate|]. split; [discriminate|]. split; [reflexivity|].
  apply (rendered_rows_are_the_rows_of_the_range desktopRowHeight sampleView
           (mkVisibleRange 1 3) 1); (discriminate || reflexivity).
Defined.

(* ------------------------------------------------------------------ *)
(** ** Progress shown while generating in memory *)

(** X22: asked for n * 10000 records, the first revision of
    [generateCustomersInMemory] reports progress at the identifiers
    10000, 20000, .., n * 10000 and nowhere else.  For the 1,000,000
    records of the application the percentage derived from the i-th of
    the hundred reports is i, except that the arithmetic of doubles
    gives 28 at the 29th, 56 at the 57th and 57 at the 58th: the
    percentages never decrease and end at 100, but 28 and 56 are shown
    twice and 29 and 58 never. *)
Theorem legacy_generation_reports_each_batch (h : Host) (n k : nat) :
  progressOf (fst (snd (V1.generateCustomersInMemory h
                          (Z.of_nat n * 10000) recordProgress ([], k))))
  = map (fun j => (j * 10000, Z.of_nat n * 10000)) (upto 1 (Z.of_nat n)) /\
  map (fun pt => percent (fst pt) (snd pt))
      (progressOf (fst (snd (V1.generateCustomersInMemory h 1000000
                               recordProgress ([], k)))))
  = map percentOfBatch (upto 1 100) /\
  StronglySorted Z.le (map percentOfBatch (upto 1 100)) /\
  last (map percentOfBatch (upto 1 100)) 0 = 100 /\
  ~ In 29 (map percentOfBatch (upto 1 100)) /\
  ~ In 58 (map percentOfBatch (upto 1 100)).
Proof.
  assert (G : forall m : nat,
            progressOf (fst (snd (V1.generateCustomersInMemory h
                                    (Z.of_nat m * 10000) recordProgress
                                    ([], k))))
            = map (fun j => (j * 10000, Z.of_nat m * 10000))
                  (upto 1 (Z.of_nat m))).
  { intros m. rewrite V1_generate_progress.
    change 10000 with V1.BATCH_SIZE. rewrite reported_identifiers.
    now rewrite map_map. }
  split; [apply G|]. split.
  - change 1000000 with (Z.of_nat (Z.to_nat 100) * 10000) at 1.
    rewrite G, map_map. cbn [fst snd].
    change (Z.of_nat (Z.to_nat 100)) with 100.
    apply map_ext_in. intros i Hi. apply upto_In in Hi.
    change (100 * 10000) with 1000000. now apply percent_of_batch.
  - split; [|split; [reflexivity|]].
    + apply (StronglySorted_map_in Z.lt Z.le percentOfBatch);
        [|apply iota_sorted].
      intros x y Hx Hy Hlt. apply upto_In in Hx, Hy. unfold percentOfBatch.
      destruct ((x =? 29) || (x =? 57) || (x =? 58)) eqn:Ex;
      destruct ((y =? 29) || (y =? 57) || (y =? 58)) eqn:Ey; lia.
    + assert (D : forall v, In v (map percentOfBatch (upto 1 100)) ->
                            v <> 29 /\ v <> 58).
      { intros v Hv. apply in_map_iff in Hv. destruct Hv as [i [<- Hi]].
        unfold percentOfBatch.
        destruct (i =? 29) eqn:E29; [apply Z.eqb_eq in E29; cbn; lia|].
        destruct (i =? 57) eqn:E57; [apply Z.eqb_eq in E57; cbn; lia|].
        destruct (i =? 58) eqn:E58; [apply Z.eqb_eq in E58; cbn; lia|].
        apply Z.eqb_neq in E29, E58. cbn. lia. }
      split; intros Hin; apply D in Hin; lia.
Qed.

(* ------------------------------------------------------------------ *)
(** ** The debounced search term *)

(** X23: through any sequence of renders and timer callbacks after the
    first render, the debounced value is always one of the values the
    hook was given; a pending timeout always carries the value of the
    latest render; and whenever no timeout is pending the debounced
    value is the value of the latest render. *)
Theorem debounced_value_follows_the_latest_value (delay now : Z)
  (value : string) (events : list DebounceEvent) :
  let s := runDebounce delay (mountDebounce delay now value) events in
  (handler s = None -> debouncedValue s = currentValue s) /\
  (forall due v, handler s = Some (due, v) -> v = currentValue s) /\
  In (currentValue s) (value :: renderedValues events) /\
  In (debouncedValue s) (value :: renderedValues events).
Proof.
  induction events as [|e events IH] using rev_ind.
  - cbn. split; [discriminate|]. split.
    + intros due v [= _ <-]. reflexivity.
    + split; now left.
  - cbv zeta in *. unfold runDebounce in *. rewrite fold_left_app.
    cbn [fold_left].
    set (s := fold_left (stepDebounce delay) events
                (mountDebounce delay now value)) in *.
    destruct IH as [I0 [I1 [Ic Id]]].
    destruct (stepDebounce_invariant delay s e I0 I1) as [J0 J1].
    split; [exact J0|]. split; [exact J1|].
    rewrite renderedValues_app.
    assert (Hc : In (currentValue (stepDebounce delay s e))
                    (value :: renderedValues events ++ renderedValues [e])).
    { destruct e as [t v|t]; cbn [stepDebounce].
      - unfold renderDebounce. destruct (String.eqb v (currentValue s)).
        + rewrite app_comm_cons. apply in_or_app. now left.
        + cbn [currentValue]. rewrite app_comm_cons. apply in_or_app.
          right. now left.
      - unfold fireTimeout. destruct (handler s) as [[due v]|];
          [destruct (due <=? t)|]; cbn [currentValue];
          rewrite app_comm_cons; apply in_or_app; now left. }
    split; [exact Hc|].
    destruct (stepDebounce_value delay s e I1) as [->| ->].
    + rewrite app_comm_cons. apply in_or_app. now left.
    + rewrite app_comm_cons. apply in_or_app. now left.
Qed.

(** X24: after a render with a new value at the instant [now], timer
    callbacks that the host runs before [now + delay] leave the
    debounced value as it was, and the first one it runs at or after
    [now + delay] makes it the new value and leaves no timeout pending:
    the view is filtered [delay] milliseconds after the last keystroke,
    not before. *)
Theorem debounce_waits_for_the_delay (delay now : Z) (s : Debounce)
  (value : string) (early : list Z) (late : Z) :
  value <> currentValue s ->
  Forall (fun t => t < now + delay) early ->
  now + delay <= late ->
  let typed := stepDebounce delay s (Rendered now value) in
  let waiting := runDebounce delay typed (map TimerTick early) in
  debouncedValue waiting = debouncedValue s /\
  currentValue waiting = value /\
  stepDebounce delay waiting (TimerTick late) = mkDebounce value value None.
Proof.
  intros Hnew Hearly Hlate typed waiting.
  assert (Ht : typed = mkDebounce value (debouncedValue s)
                         (Some (now + delay, value))).
  { subst typed. cbn [stepDebounce]. unfold renderDebounce.
    destruct (String.eqb value (currentValue s)) eqn:E; [|reflexivity].
    apply String.eqb_eq in E. contradiction. }
  assert (Hw : waiting = typed).
  { subst waiting. apply (early_ticks_change_nothing delay typed
                            (now + delay) value); [|assumption].
    now rewrite Ht. }
  rewrite Hw, Ht. cbn [debouncedValue currentValue stepDebounce].
  split; [reflexivity|]. split; [reflexivity|].
  unfold fireTimeout. cbn [handler currentValue].
  destruct (now + delay <=? late) eqn:L; [reflexivity|].
  apply Z.leb_gt in L. lia.
Qed.

Lemma debounce_waits_for_the_delay_witness :
  "ma"%string <> currentValue (mountDebounce 250 0 "m") /\
  Forall (fun t => t < 100 + 250) [120; 349] /\
  100 + 250 <= 350 /\
  (let typed := stepDebounce 250 (mountDebounce 250 0 "m")
                  (Rendered 100 "ma") in
   let waiting := runDebounce 250 typed (map TimerTick [120; 349]) in
   debouncedValue waiting = debouncedValue (mountDebounce 250 0 "m") /\
   currentValue waiting = "ma"%string /\
   stepDebounce 250 waiting (TimerTick 350) = mkDebounce "ma" "ma" None).
Proof.
  assert (H : Forall (fun t => t < 100 + 250) [120; 349])
    by (repeat constructor).
  split; [discriminate|]. split; [exact H|]. split; [lia|].
  apply (debounce_waits_for_the_delay 250 100 (mountDebounce 250 0 "m")
           "ma" [120; 349] 350); [discriminate | exact H | lia].
Defined.
